(** * PCB_GBR: Gerber/Excellon to G-code, verified against its specification

    A shallow embedding of the planning, parsing and emission routines of
    the repository, one module per source file:

    - [Num]          decimal numbers, Python's [round] and [%.Nf] formatting
    - [GcodeWriter]  gcode_writer.py   (tool-change sequence)
    - [Outline]      board_outline.py  (holding tabs and outline walk)
    - [GeomUtils]    geom_utils.py     (nearest-neighbour path ordering)
    - [Excellon]     excellon_parser.py (hole de-duplication)
    - [FixedPoint]   the coordinate decoder of excellon_parser.py and
                     gerber_parser.py
    - [Drilling]     drilling.py and ui/main_window.py (drill assignment, planner)
    - [Gerber]       gerber_parser.py  (operation codes, polarity composition)

    Numbers.  Python floats are modelled by exact rationals ([Q]): every
    float is a rational, and sums, products and comparisons are taken
    without rounding.  The concrete inputs used below are chosen so that
    the float computation and the exact one agree.

    Loops.  A [for] over a list is a fold or a structural recursion; a
    [while] takes a number of rounds and returns [None] when they do not
    suffice, and the theorems show that the rounds given do suffice. *)

From stdpp Require Import gmap list.
From Stdlib Require Import ZArith QArith Qround Qabs Qminmax List String Ascii Bool Lia.
From Stdlib Require Import Sorting.Permutation Sorting.Sorted.
From Stdlib Require Import Numbers.DecimalString Lqa.
Import ListNotations.

Local Open Scope Q_scope.

(* ===================================================================== *)
(** ** Numbers *)
(* ===================================================================== *)

Module Num.

(** Python's [round(x)] on a float: nearest integer, ties to even. *)
Definition round_half_even (q : Q) : Z :=
  let f := Qfloor q in
  let r := q - inject_Z f in
  match Qcompare r (1 # 2) with
  | Lt => f
  | Gt => (f + 1)%Z
  | Eq => if Z.even f then f else (f + 1)%Z
  end.

(** [str(n)] for an integer. *)
Definition Z_to_string (z : Z) : string :=
  NilEmpty.string_of_int (Z.to_int z).

Fixpoint zeros (n : nat) : string :=
  match n with
  | O => EmptyString
  | S k => String "0"%char (zeros k)
  end.

(** [s.rjust(n, "0")] *)
Definition rjust0 (n : nat) (s : string) : string :=
  String.append (zeros (n - String.length s)) s.

(** [s.ljust(n, "0")] *)
Definition ljust0 (n : nat) (s : string) : string :=
  String.append s (zeros (n - String.length s)).

(** [f"{q:.Nf}"]: the value correctly rounded (ties to even) to [prec]
    decimals, sign first. *)
Definition fmt_f (prec : nat) (q : Q) : string :=
  let scale := (10 ^ Z.of_nat prec)%Z in
  let n := round_half_even (Qabs q * inject_Z scale) in
  let ip := Z_to_string (n / scale) in
  let fp := rjust0 prec (Z_to_string (n mod scale)) in
  let body := match prec with
              | O => ip
              | _ => String.append ip (String "."%char fp)
              end in
  if Qlt_le_dec q 0 then String "-"%char body else body.

End Num.

(* ===================================================================== *)
(** ** gcode_writer.py *)
(* ===================================================================== *)

Module GcodeWriter.

(** The values the writer reads from job_config.py
    ([get_toolchange_z], [get_park_xy], [get_spindle_warmup_s],
    [get_travel_z]). *)
Record job_config := {
  toolchange_z : Q;
  park_x : Q;
  park_y : Q;
  spindle_warmup_s : Q;
  travel_z : Q
}.

(** A bit dictionary, as far as the writer looks into it: [bit.get("rpm")]. *)
Record bit := {
  bit_name : string;
  bit_rpm : option Z
}.

(** The output file: the chunks written so far, oldest first. *)
Definition ofile := list string.

Definition write (o : ofile) (s : string) : ofile := o ++ [s].

Definition nl : string := String (ascii_of_nat 10) EmptyString.

Definition cat (l : list string) : string := String.concat EmptyString l.

(** [int(bit.get("rpm", 0))] *)
Definition rpm_of (b : bit) : Z :=
  match bit_rpm b with
  | Some r => r
  | None => 0%Z
  end.

Definition spindle_on_line (rpm : Z) : string :=
  if (0 <? rpm)%Z then cat ["S"%string; Num.Z_to_string rpm; " M3"%string; nl]
  else cat ["M3"%string; nl].

Definition toolchange_sequence (cfg : job_config) (o : ofile) (b : bit)
    (message : string) : ofile :=
  let tc_z := toolchange_z cfg in
  let px := park_x cfg in
  let py := park_y cfg in
  let o := write o (cat [nl; "G0 Z"%string; Num.fmt_f 3 tc_z; nl]) in
  let o := write o (cat ["M5"%string; nl]) in
  let o := write o (cat ["G0 X"%string; Num.fmt_f 3 px; " Y"%string; Num.fmt_f 3 py; nl]) in
  let o := write o (cat ["; "%string; message; nl]) in
  let o := write o (cat ["M0"%string; nl]) in
  let rpm := rpm_of b in
  let o := write o (spindle_on_line rpm) in
  let warm := spindle_warmup_s cfg in
  let o := if Qlt_le_dec 0 warm
           then write o (cat ["G4 P"%string; Num.fmt_f 3 warm; nl])
           else o in
  write o (cat ["G0 Z"%string; Num.fmt_f 3 (travel_z cfg); nl]).

(** [end_sequence] *)
Definition end_sequence (cfg : job_config) (o : ofile) (end_program : bool) : ofile :=
  let o := write o (cat [nl; "G0 Z"%string; Num.fmt_f 3 (travel_z cfg); nl]) in
  let o := write o (cat ["M5"%string; nl]) in
  let o := write o (cat ["G0 X"%string; Num.fmt_f 3 (park_x cfg); " Y"%string;
                         Num.fmt_f 3 (park_y cfg); nl]) in
  if end_program then write o (cat ["M2"%string; nl]) else o.

(** The part of the sequence before the spindle-on line. *)
Definition toolchange_prefix (cfg : job_config) (message : string) : list string :=
  [ cat [nl; "G0 Z"%string; Num.fmt_f 3 (toolchange_z cfg); nl];
    cat ["M5"%string; nl];
    cat ["G0 X"%string; Num.fmt_f 3 (park_x cfg); " Y"%string;
         Num.fmt_f 3 (park_y cfg); nl];
    cat ["; "%string; message; nl];
    cat ["M0"%string; nl] ].

(** The part after it: the optional dwell and the rapid to travel Z. *)
Definition toolchange_suffix (cfg : job_config) : list string :=
  (if Qlt_le_dec 0 (spindle_warmup_s cfg)
   then [cat ["G4 P"%string; Num.fmt_f 3 (spindle_warmup_s cfg); nl]]
   else [])
  ++ [cat ["G0 Z"%string; Num.fmt_f 3 (travel_z cfg); nl]].

(** Does the string contain the character? *)
Fixpoint has_char (c : ascii) (s : string) : bool :=
  match s with
  | EmptyString => false
  | String a r => Ascii.eqb a c || has_char c r
  end.

Definition default_config : job_config :=
  {| toolchange_z := 30; park_x := 0; park_y := 0;
     spindle_warmup_s := 0; travel_z := 10 |}.

Example fmt_examples :
  Num.fmt_f 3 30 = "30.000"%string /\
  Num.fmt_f 3 (1 # 16) = "0.062"%string /\
  Num.fmt_f 3 (- (5 # 4)) = "-1.250"%string /\
  Num.fmt_f 4 (12 # 10) = "1.2000"%string.
Proof. repeat split; vm_compute; reflexivity. Qed.

Example toolchange_default :
  toolchange_sequence default_config [] {| bit_name := "d08"; bit_rpm := Some 12000%Z |}
    "Drill"%string
  = [ cat [nl; "G0 Z30.000"%string; nl]; cat ["M5"%string; nl];
      cat ["G0 X0.000 Y0.000"%string; nl]; cat ["; Drill"%string; nl];
      cat ["M0"%string; nl]; cat ["S12000 M3"%string; nl];
      cat ["G0 Z10.000"%string; nl] ].
Proof. vm_compute. reflexivity. Qed.

(** The bare spindle-on line carries no speed word. *)
Lemma bare_m3_no_speed : has_char "S"%char (cat ["M3"%string; nl]) = false.
Proof. reflexivity. Qed.

(** C10: every tool-change sequence appends, to whatever the file holds,
    the raise to tool-change Z, M5, the rapid to the park position, the
    comment and M0; then the spindle-on line; then the optional G4 dwell
    and the rapid to travel Z.  The spindle-on line is [S<rpm> M3] when the
    bit's rpm is greater than 0, and a bare [M3], which holds no S word,
    when the rpm is 0, negative or missing; the lines around it do not
    depend on the rpm. *)
Theorem toolchange_sequence_spindle (cfg : job_config) (o : ofile) (b : bit)
    (message : string) :
  toolchange_sequence cfg o b message
    = o ++ toolchange_prefix cfg message
        ++ [match bit_rpm b with
            | Some r =>
                if (0 <? r)%Z
                then cat ["S"%string; Num.Z_to_string r; " M3"%string; nl]
                else cat ["M3"%string; nl]
            | None => cat ["M3"%string; nl]
            end]
        ++ toolchange_suffix cfg
  /\ has_char "S"%char (cat ["M3"%string; nl]) = false.
Proof.
  split; [| exact bare_m3_no_speed].
  unfold toolchange_sequence, toolchange_prefix, toolchange_suffix,
    spindle_on_line, rpm_of.
  destruct (bit_rpm b) as [r |]; cbn [Z.ltb Z.compare];
    destruct (Qlt_le_dec 0 (spindle_warmup_s cfg));
    unfold write; repeat rewrite <- app_assoc; reflexivity.
Qed.

End GcodeWriter.

(* ===================================================================== *)
(** ** board_outline.py: holding tabs and the outline walk *)
(* ===================================================================== *)

Module Outline.

(** One descent of the outline walk: the arc length at which the
    [G1 Z...] line is written and the Z it carries. *)
Record cut_step := { at_dist : Q; cut_z : Q }.

Definition tab_width : Q := 1.
Definition tab_half : Q := tab_width / 2.
Definition step : Q := 1 # 2.

Definition full_depth (pcb_thickness : Q) : Q := pcb_thickness.
Definition tab_depth (pcb_thickness : Q) : Q := pcb_thickness * (75 # 100).

Definition tab_spacing (length : Q) : Q := length * (20 # 100).

(** [while d < length: tab_positions.append(d); d += tab_spacing] *)
Fixpoint tab_loop (fuel : nat) (length spacing d : Q) : option (list Q) :=
  if Qlt_le_dec d length then
    match fuel with
    | O => None
    | S k => option_map (cons d) (tab_loop k length spacing (d + spacing))
    end
  else Some [].

(** Five rounds are enough for any perimeter: the fifth multiple of a
    fifth of the perimeter is the perimeter ([tab_loop_total]). *)
Definition tab_positions (tabs_enabled : bool) (length : Q) : list Q :=
  if tabs_enabled && (if Qlt_le_dec 0 length then true else false) then
    match tab_loop 5 length (tab_spacing length) (tab_spacing length) with
    | Some l => l
    | None => []
    end
  else [].

Definition is_in_tab (tabs : list Q) (dist : Q) : bool :=
  existsb (fun t => Qle_bool (Qabs (dist - t)) tab_half) tabs.

(** [depth = tab_depth if is_in_tab(dist) else full_depth] *)
Definition step_depth (tabs : list Q) (pcb_thickness dist : Q) : Q :=
  if is_in_tab tabs dist then tab_depth pcb_thickness else full_depth pcb_thickness.

(** [while dist < length: ...; dist = min(dist + step, length)].
    [None] when the rounds given do not reach the end of the outline. *)
Fixpoint walk (fuel : nat) (tabs : list Q) (pcb_thickness length dist : Q)
    : option (list cut_step) :=
  if Qlt_le_dec dist length then
    match fuel with
    | O => None
    | S k =>
        let depth := step_depth tabs pcb_thickness dist in
        let next_dist := Qmin (dist + step) length in
        option_map (cons {| at_dist := dist; cut_z := - depth |})
                   (walk k tabs pcb_thickness length next_dist)
    end
  else Some [].

(** The arc lengths visited by the walk. *)
Fixpoint walk_dists (fuel : nat) (length dist : Q) : option (list Q) :=
  if Qlt_le_dec dist length then
    match fuel with
    | O => None
    | S k => option_map (cons dist) (walk_dists k length (Qmin (dist + step) length))
    end
  else Some [].

(** Rounds needed from [dist]: one per half millimetre left. *)
Definition walk_fuel (length dist : Q) : nat :=
  Z.to_nat (Qceiling ((length - dist) / step)).

(** The outline part of [run_outline] without ramp ([dist = 0.0]). *)
Definition outline_cuts (tabs_enabled : bool) (pcb_thickness length : Q)
    : option (list cut_step) :=
  walk (walk_fuel length 0) (tab_positions tabs_enabled length) pcb_thickness length 0.

(** [k] half-millimetre marks from 0: 0, 0.5, 1, ... *)
Definition half_marks (k : nat) : list Q :=
  map (fun i => inject_Z (Z.of_nat i) / 2) (seq 0 k).

Definition Qlist_eqb (a b : list Q) : bool :=
  (Nat.eqb (List.length a) (List.length b))
  && forallb (fun p => Qeq_bool (fst p) (snd p)) (combine a b).

Lemma Qlist_eqb_Forall2 (a b : list Q) :
  Qlist_eqb a b = true -> Forall2 Qeq a b.
Proof.
  unfold Qlist_eqb. revert b.
  induction a as [| x a IH]; intros [| y b] H; cbn in H; try discriminate.
  - constructor.
  - apply andb_prop in H as [Hl H]. apply andb_prop in H as [Hxy H].
    constructor.
    + now apply Qeq_bool_iff.
    + apply IH. now rewrite Hl, H.
Qed.

Lemma walk_trace (fuel : nat) (tabs : list Q) (th length dist : Q) :
  walk fuel tabs th length dist
  = option_map
      (map (fun d => {| at_dist := d; cut_z := - step_depth tabs th d |}))
      (walk_dists fuel length dist).
Proof.
  revert dist. induction fuel as [| k IH]; intros dist; cbn [walk walk_dists].
  - now destruct (Qlt_le_dec dist length).
  - destruct (Qlt_le_dec dist length); [| reflexivity].
    rewrite IH. now destruct (walk_dists k length (Qmin (dist + step) length)).
Qed.

Lemma is_in_tab_proper (t1 t2 : list Q) (d : Q) :
  Forall2 Qeq t1 t2 -> is_in_tab t1 d = is_in_tab t2 d.
Proof.
  unfold is_in_tab. induction 1 as [| x y l1 l2 Hxy _ IH]; cbn [existsb];
    [reflexivity |].
  rewrite IH. f_equal.
  apply eq_true_iff_eq. rewrite !Qle_bool_iff. now rewrite Hxy.
Qed.

Lemma is_in_tab_spec (tabs : list Q) (d : Q) :
  is_in_tab tabs d = true <-> exists t, In t tabs /\ Qabs (d - t) <= 1 # 2.
Proof.
  unfold is_in_tab. rewrite existsb_exists.
  split; intros [t [Hin Ht]]; exists t; split; try assumption.
  - apply Qle_bool_iff in Ht. exact Ht.
  - apply Qle_bool_iff. exact Ht.
Qed.

(** The tab loop always stops by its own test, after four tabs: the
    fifth multiple of the spacing is the perimeter itself, which is not
    below the perimeter. *)
Lemma tab_loop_total (length : Q) :
  0 < length ->
  exists l,
    tab_loop 5 length (tab_spacing length) (tab_spacing length) = Some l /\
    Forall2 Qeq l [length * (1 # 5); length * (2 # 5); length * (3 # 5); length * (4 # 5)].
Proof.
  intros Hpos. unfold tab_spacing. cbn [tab_loop].
  repeat match goal with
         | |- context [Qlt_le_dec ?a ?b] =>
             destruct (Qlt_le_dec a b); try (exfalso; lra)
         end.
  cbn [option_map]. eexists; split; [reflexivity |].
  repeat constructor; lra.
Qed.

Definition tabs_100 : list Q := [20; 40; 60; 80].

Lemma tab_positions_100 : Forall2 Qeq (tab_positions true 100) tabs_100.
Proof. apply Qlist_eqb_Forall2. vm_compute. reflexivity. Qed.

Lemma walk_dists_100 :
  exists dists,
    walk_dists (walk_fuel 100 0) 100 0 = Some dists /\
    Forall2 Qeq dists (half_marks 200).
Proof.
  destruct (walk_dists (walk_fuel 100 0) 100 0) as [dists |] eqn:E.
  - exists dists. split; [reflexivity |].
    apply Qlist_eqb_Forall2.
    assert (H : option_map (fun l => Qlist_eqb l (half_marks 200))
                  (walk_dists (walk_fuel 100 0) 100 0) = Some true)
      by (vm_compute; reflexivity).
    rewrite E in H. now inversion H.
  - exfalso.
    assert (H : walk_dists (walk_fuel 100 0) 100 0 <> None)
      by (vm_compute; discriminate).
    now apply H.
Qed.

(** C6 (as the code has it): on a perimeter of 100 mm with tabs enabled
    there are four tabs, at arc lengths 20, 40, 60 and 80 mm (the loop
    stops before the perimeter itself); the walk descends once at every
    half millimetre 0, 0.5, ..., 99.5, and the depth cut there is
    0.75 * pcb_thickness when the arc length is within 0.5 mm of one of the
    four tabs, and the full pcb_thickness everywhere else. *)
Theorem outline_tab_cut_100 (pcb_thickness : Q) :
  Forall2 Qeq (tab_positions true 100) [20; 40; 60; 80] /\
  (exists dists,
      outline_cuts true pcb_thickness 100
        = Some (map (fun d => {| at_dist := d;
                                 cut_z := - step_depth (tab_positions true 100)
                                                       pcb_thickness d |}) dists) /\
      Forall2 Qeq dists (half_marks 200)) /\
  (forall dist,
      step_depth (tab_positions true 100) pcb_thickness dist
      = if existsb (fun t => Qle_bool (Qabs (dist - t)) (1 # 2)) [20; 40; 60; 80]
        then pcb_thickness * (75 # 100)
        else pcb_thickness).
Proof.
  split; [exact tab_positions_100 |]. split.
  - destruct walk_dists_100 as [dists [E Hd]]. exists dists. split; [| exact Hd].
    unfold outline_cuts. rewrite walk_trace, E. reflexivity.
  - intros dist. unfold step_depth.
    rewrite (is_in_tab_proper _ _ dist tab_positions_100).
    reflexivity.
Qed.

(** C6, as stated, fails: there is no fifth tab at 100 mm, and the walk
    step at 99.5 mm, inside the window [99.5, 100.5] of that tab, is cut
    at the full thickness (here 1.6 mm), not at 0.75 of it. *)
Lemma outline_tab_cut_100_counterexample :
  List.length (tab_positions true 100) = 4%nat /\
  Qabs ((199 # 2) - 100) <= 1 # 2 /\
  (exists l1 c l2,
      outline_cuts true (16 # 10) 100 = Some (l1 ++ c :: l2) /\
      at_dist c == 199 # 2 /\ cut_z c == - (16 # 10)) /\
  step_depth (tab_positions true 100) (16 # 10) (199 # 2) == 16 # 10 /\
  ~ step_depth (tab_positions true 100) (16 # 10) (199 # 2) == (75 # 100) * (16 # 10).
Proof.
  split; [vm_compute; reflexivity |].
  split; [vm_compute; discriminate |].
  split.
  - assert (H : match outline_cuts true (16 # 10) 100 with
                 | Some l =>
                     match List.nth_error l 199 with
                     | Some c => Qeq_bool (at_dist c) (199 # 2)
                                 && Qeq_bool (cut_z c) (- (16 # 10))
                     | None => false
                     end
                 | None => false
                 end = true) by (vm_compute; reflexivity).
    destruct (outline_cuts true (16 # 10) 100) as [l |]; [| discriminate].
    destruct (List.nth_error l 199) as [c |] eqn:Hn; [| discriminate].
    apply andb_prop in H as [H1 H2].
    apply Qeq_bool_iff in H1, H2.
    apply nth_error_split in Hn as [l1 [l2 [Hl _]]].
    exists l1, c, l2. now rewrite Hl.
  - split; vm_compute; [reflexivity | discriminate].
Qed.

End Outline.

(* ===================================================================== *)
(** ** geom_utils.py: nearest-neighbour ordering of open paths *)
(* ===================================================================== *)

Module GeomUtils.

Definition point : Type := Q * Q.

(** A LineString, by its coordinate sequence. *)
Definition polyline : Type := list point.

Definition _dist2 (a b : point) : Q :=
  let dx := fst a - fst b in
  let dy := snd a - snd b in
  dx * dx + dy * dy.

(** [coords[0]] and [coords[-1]] *)
Definition first_pt (l : polyline) : point := List.hd (0, 0) l.
Definition last_pt (l : polyline) : point := List.last l (0, 0).

(** The running best of the inner loop; [None] is [float("inf")]. *)
Record best := { best_i : nat; best_flip : bool; best_d2 : option Q }.

Definition below (d : Q) (b : option Q) : bool :=
  match b with
  | None => true
  | Some d0 => if Qlt_le_dec d d0 then true else false
  end.

(** One round of [for i, ls in enumerate(remaining)]. *)
Definition scan_one (allow_reverse : bool) (cur : point) (acc : best)
    (i : nat) (ls : polyline) : best :=
  let s := first_pt ls in
  let e := last_pt ls in
  let d2s := _dist2 cur s in
  let acc := if below d2s (best_d2 acc)
             then {| best_i := i; best_flip := false; best_d2 := Some d2s |}
             else acc in
  if allow_reverse then
    let d2e := _dist2 cur e in
    if below d2e (best_d2 acc)
    then {| best_i := i; best_flip := true; best_d2 := Some d2e |}
    else acc
  else acc.

Fixpoint scan (allow_reverse : bool) (cur : point) (acc : best) (i : nat)
    (remaining : list polyline) : best :=
  match remaining with
  | [] => acc
  | ls :: rest => scan allow_reverse cur (scan_one allow_reverse cur acc i ls) (S i) rest
  end.

(** [remaining.pop(i)]: what is left. *)
Fixpoint remove_nth {A : Type} (i : nat) (l : list A) : list A :=
  match l, i with
  | [], _ => []
  | _ :: r, O => r
  | x :: r, S k => x :: remove_nth k r
  end.

Definition oriented (flip : bool) (l : polyline) : polyline :=
  if flip then List.rev l else l.

(** [while remaining: ...]; each round pops one polyline, so as many
    rounds as there are polylines empty the list. *)
Fixpoint order_loop (fuel : nat) (allow_reverse : bool) (cur : point)
    (remaining : list polyline) : list polyline :=
  match fuel, remaining with
  | O, _ => []
  | _, [] => []
  | S k, _ =>
      let b := scan allow_reverse cur
                 {| best_i := 0; best_flip := false; best_d2 := None |} 0 remaining in
      let pick := oriented (best_flip b) (List.nth (best_i b) remaining []) in
      pick :: order_loop k allow_reverse (last_pt pick) (remove_nth (best_i b) remaining)
  end.

(** [len(ls.coords) >= 2] (an empty LineString has no coordinates). *)
Definition usable (ls : polyline) : bool := (2 <=? List.length ls)%nat.

Definition order_lines_nearest (lines : list polyline) (start_xy : point)
    (allow_reverse : bool) : list polyline :=
  let remaining := List.filter usable lines in
  order_loop (List.length remaining) allow_reverse start_xy remaining.

(** [d] is the Euclidean distance between [a] and [b]. *)
Definition is_dist (a b : point) (d : Q) : Prop := 0 <= d /\ d * d == _dist2 a b.

(** Total cursor travel of a visiting order: the sum of the distances from
    the cursor to the entry point of the next polyline, the cursor then
    moving to that polyline's end. *)
Inductive travel : point -> list polyline -> Q -> Prop :=
| travel_nil cur t : t == 0 -> travel cur [] t
| travel_cons cur l ls d t t' :
    is_dist cur (first_pt l) d ->
    travel (last_pt l) ls t' ->
    t == d + t' ->
    travel cur (l :: ls) t.

(** The greedy discipline: the polyline placed next is entered at an
    endpoint that is nearest to the cursor among the endpoints of all the
    polylines not yet placed. *)
Inductive greedy_from : point -> list polyline -> list polyline -> Prop :=
| greedy_done cur : greedy_from cur [] []
| greedy_pick cur remaining i l flip out :
    List.nth_error remaining i = Some l ->
    (forall l', In l' remaining ->
       _dist2 cur (first_pt (oriented flip l)) <= _dist2 cur (first_pt l') /\
       _dist2 cur (first_pt (oriented flip l)) <= _dist2 cur (last_pt l')) ->
    greedy_from (last_pt (oriented flip l)) (remove_nth i remaining) out ->
    greedy_from cur remaining (oriented flip l :: out).

Definition line_a : polyline := [(2, 0); (3, 0)].
Definition line_b : polyline := [(1, 0); (- 50, 0)].

Example order_lines_nearest_ab :
  order_lines_nearest [line_a; line_b] (0, 0) true = [line_b; line_a].
Proof. vm_compute. reflexivity. Qed.

Lemma first_pt_rev (l : polyline) : first_pt (List.rev l) = last_pt l.
Proof.
  unfold first_pt, last_pt.
  destruct l as [| x r] using rev_ind; [reflexivity |].
  rewrite rev_unit, last_last. reflexivity.
Qed.

(** What the inner loop has established after looking at [seen]. *)
Definition scan_ok (cur : point) (seen : list polyline) (b : best) : Prop :=
  match best_d2 b with
  | None => seen = []
  | Some d =>
      (exists l, List.nth_error seen (best_i b) = Some l /\
                 d = _dist2 cur (first_pt (oriented (best_flip b) l))) /\
      (forall l', In l' seen ->
                  d <= _dist2 cur (first_pt l') /\ d <= _dist2 cur (last_pt l'))
  end.

Lemma nth_error_snoc_new {A : Type} (l : list A) (x : A) :
  List.nth_error (l ++ [x]) (List.length l) = Some x.
Proof. induction l as [| y l IH]; [reflexivity | exact IH]. Qed.

Lemma nth_error_snoc_old {A : Type} (l : list A) (x y : A) (i : nat) :
  List.nth_error l i = Some y -> List.nth_error (l ++ [x]) i = Some y.
Proof.
  revert i. induction l as [| z l IH]; intros [| i] H; try discriminate; cbn in *.
  - exact H.
  - now apply IH.
Qed.

Lemma scan_one_ok (cur : point) (seen : list polyline) (acc : best) (ls : polyline) :
  scan_ok cur seen acc ->
  scan_ok cur (seen ++ [ls]) (scan_one true cur acc (List.length seen) ls).
Proof.
  unfold scan_ok, scan_one. intros H.
  destruct (best_d2 acc) as [d0 |] eqn:E0; cbn [below].
  - destruct H as [[l [Hl Hd]] Hmin].
    destruct (Qlt_le_dec (_dist2 cur (first_pt ls)) d0) as [Hs | Hs];
      cbn [best_d2 below].
    + destruct (Qlt_le_dec (_dist2 cur (last_pt ls)) (_dist2 cur (first_pt ls)))
        as [He | He]; cbn [best_d2 best_i best_flip].
      * split.
        -- exists ls. split; [apply nth_error_snoc_new |].
           cbn [oriented]. now rewrite first_pt_rev.
        -- intros l' Hin. apply in_app_or in Hin as [Hin | [<- | []]].
           ++ destruct (Hmin l' Hin). split; lra.
           ++ split; lra.
      * split.
        -- exists ls. split; [apply nth_error_snoc_new | reflexivity].
        -- intros l' Hin. apply in_app_or in Hin as [Hin | [<- | []]].
           ++ destruct (Hmin l' Hin). split; lra.
           ++ split; lra.
    + rewrite E0. cbn [below].
      destruct (Qlt_le_dec (_dist2 cur (last_pt ls)) d0) as [He | He];
        cbn [best_d2 best_i best_flip].
      * split.
        -- exists ls. split; [apply nth_error_snoc_new |].
           cbn [oriented]. now rewrite first_pt_rev.
        -- intros l' Hin. apply in_app_or in Hin as [Hin | [<- | []]].
           ++ destruct (Hmin l' Hin). split; lra.
           ++ split; lra.
      * rewrite E0. split.
        -- exists l. split; [now apply nth_error_snoc_old | exact Hd].
        -- intros l' Hin. apply in_app_or in Hin as [Hin | [<- | []]].
           ++ now apply Hmin.
           ++ split; lra.
  - subst seen. cbn [best_d2 below List.length app].
    destruct (Qlt_le_dec (_dist2 cur (last_pt ls)) (_dist2 cur (first_pt ls)))
      as [He | He]; cbn [best_d2 best_i best_flip].
    + split.
      * exists ls. split; [reflexivity |]. cbn [oriented]. now rewrite first_pt_rev.
      * intros l' [<- | []]. split; lra.
    + split.
      * exists ls. split; reflexivity.
      * intros l' [<- | []]. split; lra.
Qed.

Lemma scan_ok_all (cur : point) (rest seen : list polyline) (acc : best) :
  scan_ok cur seen acc ->
  scan_ok cur (seen ++ rest) (scan true cur acc (List.length seen) rest).
Proof.
  revert seen acc. induction rest as [| ls rest IH]; intros seen acc H; cbn [scan].
  - now rewrite app_nil_r.
  - replace (seen ++ ls :: rest) with ((seen ++ [ls]) ++ rest)
      by (now rewrite <- app_assoc).
    replace (S (List.length seen)) with (List.length (seen ++ [ls]))
      by (rewrite length_app; cbn; lia).
    apply IH. now apply scan_one_ok.
Qed.

Lemma remove_nth_length {A : Type} (l : list A) (i : nat) (x : A) :
  List.nth_error l i = Some x ->
  List.length l = S (List.length (remove_nth i l)).
Proof.
  revert i. induction l as [| y l IH]; intros [| i] H; try discriminate; cbn in *.
  - reflexivity.
  - f_equal. now apply IH.
Qed.

Lemma order_loop_greedy (n : nat) (cur : point) (remaining : list polyline) :
  List.length remaining = n ->
  greedy_from cur remaining (order_loop n true cur remaining).
Proof.
  revert cur remaining. induction n as [| k IH]; intros cur remaining Hn.
  - destruct remaining; [constructor | discriminate].
  - destruct remaining as [| x r] eqn:Er; [discriminate |]. rewrite <- Er in *.
    assert (Hne : remaining <> []) by (rewrite Er; discriminate).
    replace (order_loop (S k) true cur remaining) with
      (let b := scan true cur {| best_i := 0; best_flip := false; best_d2 := None |}
                  0 remaining in
       let pick := oriented (best_flip b) (List.nth (best_i b) remaining []) in
       pick :: order_loop k true (last_pt pick) (remove_nth (best_i b) remaining))
      by (rewrite Er; reflexivity).
    cbv zeta.
    pose proof (scan_ok_all cur remaining []
                  {| best_i := 0; best_flip := false; best_d2 := None |} eq_refl) as Hok.
    cbn [app List.length] in Hok.
    set (b := scan true cur _ 0 remaining) in *.
    unfold scan_ok in Hok.
    destruct (best_d2 b) as [d |]; [| contradiction].
    destruct Hok as [[l [Hl Hd]] Hmin].
    erewrite !nth_error_nth by exact Hl.
    apply greedy_pick with (i := best_i b).
    + exact Hl.
    + intros l' Hin. rewrite <- Hd. now apply Hmin.
    + apply IH. pose proof (remove_nth_length _ _ _ Hl) as Hlen. lia.
Qed.

(** C7 (as the code has it): the ordering is greedy.  At every step the
    polyline placed next is entered at an endpoint whose distance from the
    cursor is least among the start and end points of all polylines not
    yet placed (reversing it when that endpoint is its end), and the cursor
    moves to its other end.  Nothing is promised about the total travel. *)
Theorem order_lines_nearest_greedy (lines : list polyline) (start_xy : point) :
  greedy_from start_xy (List.filter usable lines)
              (order_lines_nearest lines start_xy true).
Proof. unfold order_lines_nearest. now apply order_loop_greedy. Qed.

(** C7, as stated, fails: from (0,0), for the two segments
    (2,0)-(3,0) and (1,0)-(-50,0), the ordering goes to (1,0) first and
    then back from (-50,0) to (2,0), travelling 1 + 52 = 53, while the
    input order travels 2 + 2 = 4. *)
Lemma order_lines_nearest_travel_counterexample :
  ~ (forall t_ordered t_input,
        travel (0, 0) (order_lines_nearest [line_a; line_b] (0, 0) true) t_ordered ->
        travel (0, 0) [line_a; line_b] t_input ->
        t_ordered <= t_input).
Proof.
  intros H. rewrite order_lines_nearest_ab in H.
  assert (Hgreedy : travel (0, 0) [line_b; line_a] 53).
  { apply travel_cons with (d := 1) (t' := 52).
    - split; vm_compute; [discriminate | reflexivity].
    - apply travel_cons with (d := 52) (t' := 0).
      + split; vm_compute; [discriminate | reflexivity].
      + now constructor.
      + reflexivity.
    - reflexivity. }
  assert (Hinput : travel (0, 0) [line_a; line_b] 4).
  { apply travel_cons with (d := 2) (t' := 2).
    - split; vm_compute; [discriminate | reflexivity].
    - apply travel_cons with (d := 2) (t' := 0).
      + split; vm_compute; [discriminate | reflexivity].
      + now constructor.
      + reflexivity.
    - reflexivity. }
  specialize (H 53 4 Hgreedy Hinput). revert H. vm_compute. intros H. now apply H.
Qed.

End GeomUtils.

(* ===================================================================== *)
(** ** excellon_parser.py: hole de-duplication *)
(* ===================================================================== *)

Module Excellon.

(** A hole hit [(x, y, d_mm)]. *)
Definition hole : Type := Q * Q * Q.

Definition hole_x (h : hole) : Q := fst (fst h).
Definition hole_y (h : hole) : Q := snd (fst h).
Definition hole_d (h : hole) : Q := snd h.

(** Squared distance between the centres of two holes. *)
Definition centre_dist2 (h h2 : hole) : Q :=
  let ddx := hole_x h - hole_x h2 in
  let ddy := hole_y h - hole_y h2 in
  ddx * ddx + ddy * ddy.

(** *** The branch [tol_xy <= 0]: exact positions, to six decimals *)

(** [round(float(x), 6)], as the integer number of millionths. *)
Definition round6 (x : Q) : Z := Num.round_half_even (x * 1000000).

Definition key_eqb (a b : Z * Z) : bool :=
  (fst a =? fst b)%Z && (snd a =? snd b)%Z.

(** [best[key] = h] on a dictionary that keeps insertion order. *)
Fixpoint best_set (best : list ((Z * Z) * hole)) (key : Z * Z) (h : hole)
    : list ((Z * Z) * hole) :=
  match best with
  | [] => [(key, h)]
  | (k, v) :: r => if key_eqb k key then (k, h) :: r else (k, v) :: best_set r key h
  end.

Fixpoint best_get (best : list ((Z * Z) * hole)) (key : Z * Z) : option hole :=
  match best with
  | [] => None
  | (k, v) :: r => if key_eqb k key then Some v else best_get r key
  end.

Definition exact_step (best : list ((Z * Z) * hole)) (h : hole)
    : list ((Z * Z) * hole) :=
  let key := (round6 (hole_x h), round6 (hole_y h)) in
  match best_get best key with
  | None => best_set best key h
  | Some h0 =>
      if Qlt_le_dec (hole_d h0) (hole_d h) then best_set best key h else best
  end.

(** *** The branch [tol_xy > 0]: spatial hash *)

(** The loop state: [grid] maps a cell to indices into [out]. *)
Record dedupe_state := {
  grid : gmap (Z * Z) (list nat);
  out : list hole
}.

Definition cell (inv x y : Q) : Z * Z :=
  (Num.round_half_even (x * inv), Num.round_half_even (y * inv)).

(** [for dx in (-1, 0, 1): for dy in (-1, 0, 1)] *)
Definition neighbours (c : Z * Z) : list (Z * Z) :=
  flat_map (fun dx => map (fun dy => (fst c + dx, snd c + dy)%Z) [-1; 0; 1]%Z)
           [-1; 0; 1]%Z.

(** [for idx in lst: ... if (ddx*ddx + ddy*ddy) <= r2: found = idx; break] *)
Fixpoint first_near (r2 : Q) (outl : list hole) (h : hole) (lst : list nat)
    : option nat :=
  match lst with
  | [] => None
  | idx :: rest =>
      match outl !! idx with
      | Some h2 =>
          if Qle_bool (centre_dist2 h h2) r2 then Some idx
          else first_near r2 outl h rest
      | None => first_near r2 outl h rest
      end
  end.

(** The search through the 3x3 block of cells, first hit wins. *)
Fixpoint find_in_cells (r2 : Q) (st : dedupe_state) (h : hole)
    (cells : list (Z * Z)) : option nat :=
  match cells with
  | [] => None
  | c :: rest =>
      match first_near r2 (out st) h (default [] (grid st !! c)) with
      | Some idx => Some idx
      | None => find_in_cells r2 st h rest
      end
  end.

Definition find_near (tol_xy : Q) (st : dedupe_state) (h : hole) : option nat :=
  let inv := 1 / tol_xy in
  let r2 := tol_xy * tol_xy in
  find_in_cells r2 st h (neighbours (cell inv (hole_x h) (hole_y h))).

(** The body of [for x, y, d in holes]. *)
Definition dedupe_step (tol_xy : Q) (st : dedupe_state) (h : hole) : dedupe_state :=
  let inv := 1 / tol_xy in
  let c := cell inv (hole_x h) (hole_y h) in
  match find_near tol_xy st h with
  | None =>
      let idx := List.length (out st) in
      {| grid := <[c := default [] (grid st !! c) ++ [idx]]> (grid st);
         out := out st ++ [h] |}
  | Some found =>
      match out st !! found with
      | Some h2 =>
          if Qlt_le_dec (hole_d h2) (hole_d h)
          then {| grid := grid st; out := <[found := h]> (out st) |}
          else st
      | None => st
      end
  end.

Definition dedupe_init : dedupe_state := {| grid := ∅; out := [] |}.

Definition dedupe_holes_by_xy (holes : list hole) (tol_xy : Q) : list hole :=
  match holes with
  | [] => []
  | _ =>
      if Qle_bool tol_xy 0
      then map snd (fold_left exact_step holes [])
      else out (fold_left (dedupe_step tol_xy) holes dedupe_init)
  end.

Example dedupe_scenario :
  dedupe_holes_by_xy [(0, 0, 6 # 10); (2 # 100, 0, 1); (4 # 100, 0, 8 # 10)] (5 # 100)
  = [(2 # 100, 0, 1)].
Proof. vm_compute. reflexivity. Qed.

Example dedupe_exact :
  dedupe_holes_by_xy [(1, 1, 6 # 10); (2, 2, 1); (1, 1, 8 # 10)] 0
  = [(1, 1, 8 # 10); (2, 2, 1)].
Proof. vm_compute. reflexivity. Qed.

Lemma first_near_sound (r2 : Q) (outl : list hole) (h : hole) (lst : list nat)
    (idx : nat) :
  first_near r2 outl h lst = Some idx ->
  exists h2, outl !! idx = Some h2 /\ centre_dist2 h h2 <= r2.
Proof.
  induction lst as [| i rest IH]; cbn [first_near]; [discriminate |].
  destruct (outl !! i) as [h2 |] eqn:E; [| exact IH].
  destruct (Qle_bool (centre_dist2 h h2) r2) eqn:T; [| exact IH].
  intros [= <-]. exists h2. split; [exact E | now apply Qle_bool_iff].
Qed.

Lemma find_in_cells_sound (r2 : Q) (st : dedupe_state) (h : hole)
    (cells : list (Z * Z)) (idx : nat) :
  find_in_cells r2 st h cells = Some idx ->
  exists h2, out st !! idx = Some h2 /\ centre_dist2 h h2 <= r2.
Proof.
  induction cells as [| c rest IH]; cbn [find_in_cells]; [discriminate |].
  destruct (first_near r2 (out st) h (default [] (grid st !! c))) as [i |] eqn:E.
  - intros [= <-]. now apply first_near_sound in E.
  - exact IH.
Qed.

Lemma dedupe_step_length (tol_xy : Q) (st : dedupe_state) (h : hole) :
  (List.length (out (dedupe_step tol_xy st h)) <= S (List.length (out st)))%nat.
Proof.
  unfold dedupe_step. destruct (find_near tol_xy st h) as [found |]; cbn [out].
  - destruct (out st !! found) as [h2 |]; [| lia].
    destruct (Qlt_le_dec (hole_d h2) (hole_d h)); cbn [out]; [| lia].
    rewrite length_insert. lia.
  - rewrite length_app. cbn. lia.
Qed.

Lemma best_set_length (best : list ((Z * Z) * hole)) (key : Z * Z) (h : hole) :
  (List.length (best_set best key h) <= S (List.length best))%nat.
Proof.
  induction best as [| [k v] r IH]; cbn [best_set]; [cbn; lia |].
  destruct (key_eqb k key); cbn [List.length]; lia.
Qed.

Lemma exact_step_length (best : list ((Z * Z) * hole)) (h : hole) :
  (List.length (exact_step best h) <= S (List.length best))%nat.
Proof.
  unfold exact_step.
  destruct (best_get best _) as [h0 |].
  - destruct (Qlt_le_dec (hole_d h0) (hole_d h)); [apply best_set_length | lia].
  - apply best_set_length.
Qed.

Lemma fold_length_le {S A : Type} (f : S -> A -> S) (size : S -> nat) :
  (forall s a, size (f s a) <= Datatypes.S (size s))%nat ->
  forall l s, (size (fold_left f l s) <= size s + List.length l)%nat.
Proof.
  intros Hf l. induction l as [| a l IH]; intros s; cbn [fold_left List.length].
  - lia.
  - specialize (IH (f s a)). specialize (Hf s a). lia.
Qed.

(** The part of the spacing invariant that holds: de-duplication never
    adds holes. *)
Lemma dedupe_length_le (holes : list hole) (tol_xy : Q) :
  (List.length (dedupe_holes_by_xy holes tol_xy) <= List.length holes)%nat.
Proof.
  unfold dedupe_holes_by_xy. destruct holes as [| h0 hs] eqn:E; [cbn; lia |].
  rewrite <- E. clear E.
  destruct (Qle_bool tol_xy 0).
  - rewrite length_map.
    pose proof (fold_length_le exact_step (@List.length _) exact_step_length holes [])
      as H. cbn in H. exact H.
  - pose proof (fold_length_le (dedupe_step tol_xy) (fun st => List.length (out st))
                  (dedupe_step_length tol_xy) holes dedupe_init) as H.
    cbn in H. exact H.
Qed.

(** C8: when a hole [h] meets a kept record [h2] within the tolerance,
    the record that survives at that place is one of the two, whole: the
    new hole, centre and diameter, when it is strictly larger, and the kept
    record otherwise; no record is added.  And on the input
    [(0,0,0.6), (0.02,0,1.0), (0.04,0,0.8)] with tolerance 0.05 the output
    is the single hole at (0.02, 0) of diameter 1.0. *)
Theorem dedupe_keeps_largest (tol_xy : Q) (st : dedupe_state) (h h2 : hole)
    (found : nat) :
  find_near tol_xy st h = Some found ->
  out st !! found = Some h2 ->
  (centre_dist2 h h2 <= tol_xy * tol_xy /\
   exists s,
     out (dedupe_step tol_xy st h) = <[found := s]> (out st) /\
     ((hole_d h2 < hole_d h /\ s = h) \/ (hole_d h <= hole_d h2 /\ s = h2)) /\
     hole_d h <= hole_d s /\ hole_d h2 <= hole_d s) /\
  dedupe_holes_by_xy [(0, 0, 6 # 10); (2 # 100, 0, 1); (4 # 100, 0, 8 # 10)] (5 # 100)
  = [(2 # 100, 0, 1)].
Proof.
  intros Hf Ho. split; [| exact dedupe_scenario]. split.
  - unfold find_near in Hf. apply find_in_cells_sound in Hf as [h2' [Ho' Hd]].
    rewrite Ho in Ho'. now inversion Ho'; subst.
  - unfold dedupe_step. rewrite Hf, Ho.
    destruct (Qlt_le_dec (hole_d h2) (hole_d h)) as [Hlt | Hle]; cbn [out].
    + exists h. split; [reflexivity |]. split; [left; now split |].
      split; [apply Qle_refl | now apply Qlt_le_weak].
    + exists h2. split; [now rewrite list_insert_id |]. split; [right; now split |].
      split; [exact Hle | apply Qle_refl].
Qed.

(** The state after the first hole of the scenario. *)
Definition scenario_state : dedupe_state :=
  dedupe_step (5 # 100) dedupe_init (0, 0, 6 # 10).

Lemma dedupe_keeps_largest_witness :
  (centre_dist2 (2 # 100, 0, 1) (0, 0, 6 # 10) <= (5 # 100) * (5 # 100) /\
   exists s,
     out (dedupe_step (5 # 100) scenario_state (2 # 100, 0, 1))
       = <[0%nat := s]> (out scenario_state) /\
     ((hole_d (0, 0, 6 # 10) < hole_d (2 # 100, 0, 1) /\ s = (2 # 100, 0, 1)) \/
      (hole_d (2 # 100, 0, 1) <= hole_d (0, 0, 6 # 10) /\ s = (0, 0, 6 # 10))) /\
     hole_d (2 # 100, 0, 1) <= hole_d s /\ hole_d (0, 0, 6 # 10) <= hole_d s) /\
  dedupe_holes_by_xy [(0, 0, 6 # 10); (2 # 100, 0, 1); (4 # 100, 0, 8 # 10)] (5 # 100)
  = [(2 # 100, 0, 1)].
Proof.
  apply (dedupe_keeps_largest (5 # 100) scenario_state (2 # 100, 0, 1)
           (0, 0, 6 # 10) 0%nat).
  - vm_compute. reflexivity.
  - vm_compute. reflexivity.
Defined.

(** The state after the first two holes of the failing input. *)
Definition moved_state : dedupe_state :=
  fold_left (dedupe_step 1) [(1 # 4, 0, 1); (5 # 4, 0, 2)] dedupe_init.

(** C2 fails on the code.  With tolerance 1, the hole at (0.25, 0) is
    kept in cell 0; the larger hole at (1.25, 0) lies within the tolerance
    of it and replaces its centre, but the record stays filed under cell 0
    although its centre now belongs to cell 1; the hole at (2, 0), in
    cell 2, looks only at cells 1 to 3, does not find it and is kept as
    well.  The output holds two holes 0.75 apart. *)
Theorem dedupe_spacing_violated :
  dedupe_holes_by_xy [(1 # 4, 0, 1); (5 # 4, 0, 2); (2, 0, 1)] 1
    = [(5 # 4, 0, 2); (2, 0, 1)] /\
  centre_dist2 (5 # 4, 0, 2) (2, 0, 1) == (3 # 4) * (3 # 4) /\
  centre_dist2 (5 # 4, 0, 2) (2, 0, 1) <= 1 * 1 /\
  out moved_state = [(5 # 4, 0, 2)] /\
  grid moved_state !! (0, 0)%Z = Some [0%nat] /\
  cell (1 / 1) (5 # 4) 0 = (1, 0)%Z /\
  find_near 1 moved_state (2, 0, 1) = None.
Proof.
  split; [vm_compute; reflexivity |].
  split; [vm_compute; reflexivity |].
  split; [vm_compute; discriminate |].
  repeat split; vm_compute; reflexivity.
Qed.

End Excellon.

(* ===================================================================== *)
(** ** The fixed-point coordinate decoder
       (excellon_parser.py [_parse_fixed], gerber_parser.py
       [_parse_rs274x_coord]) *)
(* ===================================================================== *)

Module FixedPoint.

(** A coordinate token, character by character.  The callers cut tokens
    out of a line with the pattern [-?[\d\.]+]. *)
Definition token : Type := list ascii.

(** Zero suppression: [L] omits leading zeros (Excellon "leading"), [T]
    trailing ones. *)
Inductive zero_mode := L | T.

(** Integer and decimal digit counts, as read by [\d] patterns. *)
Record format := { int_digits : nat; dec_digits : nat }.

Definition tok (s : string) : token := list_ascii_of_string s.

Definition is_digit (c : ascii) : bool :=
  let n := nat_of_ascii c in (48 <=? n)%nat && (n <=? 57)%nat.

Definition digit_val (c : ascii) : Z := Z.of_nat (nat_of_ascii c - 48).

Definition all_digits (s : token) : bool := forallb is_digit s.

(** The number a digit string denotes; 0 for the empty string. *)
Definition digits_value (s : token) : Z :=
  fold_left (fun acc c => (acc * 10 + digit_val c)%Z) s 0%Z.

(** [0.fp] *)
Definition frac_value (fp : token) : Q :=
  inject_Z (digits_value fp) / inject_Z (10 ^ Z.of_nat (List.length fp)).

(** [int(s)] on a digit string; [None] is ValueError. *)
Definition parse_int (s : token) : option Z :=
  match s with
  | [] => None
  | _ => if all_digits s then Some (digits_value s) else None
  end.

(** [float(f"{n}.{fp}")] for a natural [n]: the number with integer part
    [n] and decimals [fp]; [None] is ValueError. *)
Definition float_of_parts (n : Z) (fp : token) : option Q :=
  if all_digits fp then Some (inject_Z n + frac_value fp) else None.

Definition is_dot (c : ascii) : bool := Ascii.eqb c "."%char.

Fixpoint split_dot (s : token) : token * option token :=
  match s with
  | [] => ([], None)
  | c :: r =>
      if is_dot c then ([], Some r)
      else let '(a, b) := split_dot r in (c :: a, b)
  end.

(** [float(s)] on the decimal-point notation (sign, digits, at most one
    point, at least one digit); [None] is ValueError.  Exponents and the
    other spellings Python accepts cannot occur in a token. *)
Definition parse_float (s : token) : option Q :=
  let '(neg, body) :=
    match s with
    | "-"%char :: r => (true, r)
    | "+"%char :: r => (false, r)
    | _ => (false, s)
    end in
  let '(ip, rest) := split_dot body in
  let fp := default [] rest in
  if all_digits ip && all_digits fp
     && negb (Nat.eqb (List.length ip + List.length fp) 0)
  then
    let v := inject_Z (digits_value ip) + frac_value fp in
    Some (if neg then - v else v)
  else None.

Definition is_space (c : ascii) : bool :=
  let n := nat_of_ascii c in
  Nat.eqb n 32 || ((9 <=? n)%nat && (n <=? 13)%nat) || ((28 <=? n)%nat && (n <=? 31)%nat).

Fixpoint lstrip (s : token) : token :=
  match s with
  | [] => []
  | c :: r => if is_space c then lstrip r else s
  end.

(** [s.strip()] *)
Definition strip (s : token) : token := List.rev (lstrip (List.rev (lstrip s))).

(** [s.rjust(n, "0")], [s.ljust(n, "0")] and [s[-n:]] (for [n > 0]). *)
Definition rjust0 (n : nat) (s : token) : token :=
  List.repeat "0"%char (n - List.length s) ++ s.
Definition ljust0 (n : nat) (s : token) : token :=
  s ++ List.repeat "0"%char (n - List.length s).
Definition rightmost (n : nat) (s : token) : token :=
  List.skipn (List.length s - n) s.

Definition has_dot (s : token) : bool := existsb is_dot s.

(** [if len(s) > total: s = s[-total:]] and then
    [if len(s) < total: s = s.rjust(total, "0")] or [ljust]. *)
Definition kept_code (total : nat) (zm : zero_mode) (s : token) : token :=
  let s := if (total <? List.length s)%nat then rightmost total s else s in
  if (List.length s <? total)%nat
  then match zm with L => rjust0 total s | T => ljust0 total s end
  else s.

Definition starts_minus (t : token) : bool :=
  match t with
  | "-"%char :: _ => true
  | _ => false
  end.

(** The decoder from [total = int_d + dec_d] on. *)
Definition decode_body (int_d dec_d : nat) (zm : zero_mode) (neg : bool)
    (s : token) : option Q :=
  let total := (int_d + dec_d)%nat in
  let total := if (total <=? 0)%nat then Nat.max 1 (List.length s) else total in
  let s := kept_code total zm s in
  let v :=
    if (dec_d <=? 0)%nat then option_map inject_Z (parse_int s)
    else
      let ip := if (0 <? int_d)%nat then List.firstn int_d s else ["0"%char] in
      let fp := if (0 <? int_d)%nat then List.skipn int_d s else s in
      let ip := match ip with [] => ["0"%char] | _ => ip end in
      match parse_int ip with
      | Some n => float_of_parts n fp
      | None => None
      end in
  option_map (fun v => if neg then - v else v) v.

(** The part shared by the two decoders, from [neg = ...] on. *)
Definition decode_digits (int_d dec_d : nat) (zm : zero_mode) (t : token)
    : option Q :=
  let neg := starts_minus t in
  let s := if neg then List.tl t else t in
  decode_body int_d dec_d zm neg s.

(** gerber_parser.py *)
Definition _parse_rs274x_coord (t : option token) (int_d dec_d : nat)
    (zero_mode : zero_mode) : option Q :=
  match t with
  | None => Some 0
  | Some t =>
      let t := strip t in
      match t with
      | [] => Some 0
      | _ => if has_dot t then parse_float t
             else decode_digits int_d dec_d zero_mode t
      end
  end.

(** excellon_parser.py: the part of [ExcellonFile] the decoder reads. *)
Record ExcellonFile := {
  ex_format : format;
  zero_suppression : zero_mode
}.

Definition _parse_fixed (self : ExcellonFile) (t : option token) : option Q :=
  match t with
  | None => Some 0
  | Some t =>
      let t := strip t in
      match t with
      | [] => Some 0
      | _ => if has_dot t then parse_float t
             else decode_digits (int_digits (ex_format self))
                    (dec_digits (ex_format self)) (zero_suppression self) t
      end
  end.

(** *** The decoder as the specification words it *)

(** Pad to [total] digits, on the left for [L] and on the right for [T];
    when the token is longer keep the rightmost [total] digits. *)
Definition kept_spec (total : nat) (zm : zero_mode) (s : token) : token :=
  if (total <? List.length s)%nat then rightmost total s
  else match zm with L => rjust0 total s | T => ljust0 total s end.

(** Strip the sign; pad or cut to [int_digits + dec_digits] digits; split
    at [int_digits]; the result is sign * integer_part.fractional_part. *)
Definition decode_spec (int_d dec_d : nat) (zm : zero_mode) (neg : bool)
    (digits : token) : Q :=
  let kept := kept_spec (int_d + dec_d) zm digits in
  let ip := List.firstn int_d kept in
  let fp := List.skipn int_d kept in
  let v := inject_Z (digits_value ip) + frac_value fp in
  if neg then - v else v.

Definition signed (neg : bool) (digits : token) : token :=
  if neg then "-"%char :: digits else digits.

Example decode_examples :
  _parse_rs274x_coord (Some (tok "1500")) 3 3 L = Some (1 + (500 # 1) / (1000 # 1)) /\
  _parse_rs274x_coord (Some (tok "15")) 3 3 T = Some (150 + 0 / (1000 # 1)) /\
  _parse_rs274x_coord (Some (tok "-1234567")) 2 3 L = Some (- (34 + (567 # 1) / (1000 # 1))) /\
  _parse_rs274x_coord (Some (tok "-1.25")) 2 3 L = Some (- (1 + (25 # 1) / (100 # 1))) /\
  _parse_rs274x_coord (Some (tok "5")) 0 0 L = Some 5 /\
  _parse_rs274x_coord (Some (tok "1.2.3")) 2 3 L = None.
Proof. repeat split; vm_compute; reflexivity. Qed.

Definition digit_token (s : token) : Prop := all_digits s = true.

Lemma digit_token_app (a b : token) :
  digit_token a -> digit_token b -> digit_token (a ++ b).
Proof. unfold digit_token, all_digits. intros Ha Hb. now rewrite forallb_app, Ha, Hb. Qed.

Lemma digit_token_zeros (n : nat) : digit_token (List.repeat "0"%char n).
Proof. induction n as [| n IH]; [reflexivity | exact IH]. Qed.

Lemma digit_token_firstn (n : nat) (s : token) :
  digit_token s -> digit_token (List.firstn n s).
Proof.
  unfold digit_token, all_digits. intros H.
  rewrite <- (firstn_skipn n s), forallb_app in H.
  now apply andb_prop in H as [H _].
Qed.

Lemma digit_token_skipn (n : nat) (s : token) :
  digit_token s -> digit_token (List.skipn n s).
Proof.
  unfold digit_token, all_digits. intros H.
  rewrite <- (firstn_skipn n s), forallb_app in H.
  now apply andb_prop in H as [_ H].
Qed.

Lemma digits_value_zeros (n : nat) : digits_value (List.repeat "0"%char n) = 0%Z.
Proof.
  unfold digits_value. induction n as [| n IH]; [reflexivity | exact IH].
Qed.

Lemma digit_not_space (c : ascii) : is_digit c = true -> is_space c = false.
Proof.
  unfold is_digit, is_space. intros H. apply andb_prop in H as [H1 H2].
  apply Nat.leb_le in H1, H2.
  destruct (Nat.eqb_spec (nat_of_ascii c) 32); [lia |].
  destruct (Nat.leb_spec 9 (nat_of_ascii c)), (Nat.leb_spec (nat_of_ascii c) 13),
    (Nat.leb_spec 28 (nat_of_ascii c)), (Nat.leb_spec (nat_of_ascii c) 31);
    cbn; try reflexivity; lia.
Qed.

Lemma digit_not_dot (c : ascii) : is_digit c = true -> is_dot c = false.
Proof.
  unfold is_dot. intros H. destruct (Ascii.eqb_spec c "."%char) as [-> |];
    [discriminate H | reflexivity].
Qed.

Lemma digit_not_minus (c : ascii) (r : token) :
  is_digit c = true ->
  match c :: r with "-"%char :: _ => true | _ => false end = false.
Proof.
  intros H. destruct (Ascii.eqb_spec c "-"%char) as [-> | Hne]; [discriminate H |].
  destruct c as [[] [] [] [] [] [] [] []]; try reflexivity; now elim Hne.
Qed.

Lemma lstrip_id (s : token) :
  match s with [] => True | c :: _ => is_space c = false end -> lstrip s = s.
Proof. destruct s as [| c r]; cbn; [reflexivity | now intros ->]. Qed.

Lemma strip_id (s : token) :
  (forall c, In c s -> is_space c = false) -> strip s = s.
Proof.
  intros H. unfold strip.
  rewrite (lstrip_id s) by (destruct s; [exact I | apply H; now left]).
  rewrite lstrip_id; [apply rev_involutive |].
  destruct (List.rev s) as [| c r] eqn:E; [exact I |].
  apply H. apply in_rev. rewrite E. now left.
Qed.

Lemma signed_no_space (neg : bool) (digits : token) :
  digit_token digits -> forall c, In c (signed neg digits) -> is_space c = false.
Proof.
  unfold digit_token, all_digits. rewrite forallb_forall. intros H c Hc.
  destruct neg; cbn in Hc.
  - destruct Hc as [<- | Hc]; [reflexivity | apply digit_not_space; now apply H].
  - apply digit_not_space. now apply H.
Qed.

Lemma signed_no_dot (neg : bool) (digits : token) :
  digit_token digits -> has_dot (signed neg digits) = false.
Proof.
  unfold digit_token, all_digits, has_dot. rewrite forallb_forall. intros H.
  apply not_true_is_false. intros E. apply existsb_exists in E as [c [Hc Hd]].
  destruct neg; cbn in Hc.
  - destruct Hc as [<- | Hc]; [discriminate Hd |].
    rewrite digit_not_dot in Hd by (now apply H). discriminate.
  - rewrite digit_not_dot in Hd by (now apply H). discriminate.
Qed.

Lemma rightmost_length (n : nat) (s : token) :
  (n <= List.length s)%nat -> List.length (rightmost n s) = n.
Proof. intros H. unfold rightmost. rewrite length_skipn. lia. Qed.

Lemma kept_code_spec (total : nat) (zm : zero_mode) (s : token) :
  kept_code total zm s = kept_spec total zm s.
Proof.
  unfold kept_code, kept_spec.
  destruct (Nat.ltb_spec total (List.length s)) as [Hlong | Hshort].
  - rewrite rightmost_length by lia. now rewrite Nat.ltb_irrefl.
  - destruct (Nat.ltb_spec (List.length s) total) as [Hlt | Hge]; [reflexivity |].
    assert (E : (total - List.length s = 0)%nat) by lia.
    destruct zm; unfold rjust0, ljust0; rewrite E; cbn [List.repeat app];
      [reflexivity | now rewrite app_nil_r].
Qed.

Lemma kept_spec_length (total : nat) (zm : zero_mode) (s : token) :
  List.length (kept_spec total zm s) = total.
Proof.
  unfold kept_spec.
  destruct (Nat.ltb_spec total (List.length s)) as [Hlong | Hshort].
  - apply rightmost_length. lia.
  - destruct zm; unfold rjust0, ljust0; rewrite length_app, repeat_length; lia.
Qed.

Lemma kept_spec_digits (total : nat) (zm : zero_mode) (s : token) :
  digit_token s -> digit_token (kept_spec total zm s).
Proof.
  intros H. unfold kept_spec.
  destruct (total <? List.length s)%nat.
  - now apply digit_token_skipn.
  - destruct zm; unfold rjust0, ljust0; apply digit_token_app;
      auto using digit_token_zeros.
Qed.

Lemma parse_int_digits (s : token) :
  digit_token s -> s <> [] -> parse_int s = Some (digits_value s).
Proof.
  unfold parse_int, digit_token. intros H Hne.
  destruct s; [now elim Hne | now rewrite H].
Qed.

Lemma signed_split (neg : bool) (digits : token) :
  digit_token digits ->
  starts_minus (signed neg digits) = neg /\
  (if neg then List.tl (signed neg digits) else signed neg digits) = digits.
Proof.
  intros H. destruct neg; cbn; [now split |]. split; [| reflexivity].
  destruct digits as [| c r]; [reflexivity |].
  apply (digit_not_minus c r). unfold digit_token, all_digits in H.
  cbn [forallb] in H.
  now apply andb_prop in H as [H _].
Qed.

Lemma firstn_zeros (n m : nat) :
  List.firstn n (List.repeat "0"%char m) = List.repeat "0"%char (Nat.min n m).
Proof.
  revert m. induction n as [| n IH]; intros [| m]; cbn; try reflexivity.
  now rewrite IH.
Qed.

Lemma skipn_zeros (n m : nat) :
  List.skipn n (List.repeat "0"%char m) = List.repeat "0"%char (m - n).
Proof.
  revert m. induction n as [| n IH]; intros [| m]; cbn; try reflexivity.
  now rewrite IH.
Qed.

(** Under a format with digits, the empty digit string decodes to zero. *)
Lemma decode_spec_empty (int_d dec_d : nat) (zm : zero_mode) :
  decode_spec int_d dec_d zm false [] == 0.
Proof.
  unfold decode_spec, kept_spec. cbn [List.length Nat.ltb Nat.leb].
  assert (E : match zm with
              | L => rjust0 (int_d + dec_d) []
              | T => ljust0 (int_d + dec_d) []
              end = List.repeat "0"%char (int_d + dec_d)).
  { destruct zm; unfold rjust0, ljust0; cbn [List.length];
      rewrite Nat.sub_0_r; [apply app_nil_r | reflexivity]. }
  cbv zeta. rewrite E, firstn_zeros, skipn_zeros.
  unfold frac_value. rewrite !digits_value_zeros.
  change (inject_Z 0) with 0. unfold Qdiv. rewrite Qmult_0_l. reflexivity.
Qed.

Definition with_sign (neg : bool) (v : Q) : Q := if neg then - v else v.

Lemma with_sign_proper (neg : bool) (a b : Q) :
  a == b -> with_sign neg a == with_sign neg b.
Proof. intros H. destruct neg; cbn; now rewrite H. Qed.

Lemma decode_body_refines (int_d dec_d : nat) (zm : zero_mode) (neg : bool)
    (digits : token) :
  digit_token digits ->
  exists v,
    decode_body int_d dec_d zm neg digits = Some v /\
    v == (if (0 <? int_d + dec_d)%nat
          then decode_spec int_d dec_d zm neg digits
          else with_sign neg (inject_Z (digits_value digits))).
Proof.
  intros Hd. unfold decode_body.
  destruct (Nat.ltb_spec 0 (int_d + dec_d)) as [Hpos | Hzero].
  - (* a format with at least one digit *)
    replace ((int_d + dec_d <=? 0)%nat) with false
      by (symmetry; apply Nat.leb_gt; lia).
    cbv zeta. rewrite kept_code_spec. unfold decode_spec. cbv zeta.
    pose proof (kept_spec_length (int_d + dec_d) zm digits) as Hlen.
    pose proof (kept_spec_digits (int_d + dec_d) zm digits Hd) as Hk.
    set (k := kept_spec (int_d + dec_d) zm digits) in *.
    destruct (Nat.leb_spec dec_d 0) as [Hdec | Hdec].
    + (* no decimals: the digits are an integer *)
      assert (int_d = List.length k) as Hi by lia.
      rewrite parse_int_digits; [| exact Hk | intros ->; cbn in Hlen; lia].
      cbn [option_map]. eexists; split; [reflexivity |].
      fold (with_sign neg (inject_Z (digits_value k))).
      fold (with_sign neg (inject_Z (digits_value (List.firstn int_d k))
                           + frac_value (List.skipn int_d k))).
      apply with_sign_proper.
      rewrite Hi, firstn_all, skipn_all. unfold frac_value.
      change (digits_value []) with 0%Z. change (inject_Z 0) with 0.
      unfold Qdiv. rewrite Qmult_0_l, Qplus_0_r. reflexivity.
    + destruct (Nat.ltb_spec 0 int_d) as [Hint | Hint].
      * assert (Hfl : List.length (List.firstn int_d k) = int_d)
          by (rewrite length_firstn; lia).
        destruct (List.firstn int_d k) as [| c r] eqn:Ef; [cbn in Hfl; lia |].
        rewrite <- Ef.
        rewrite parse_int_digits;
          [| now apply digit_token_firstn | rewrite Ef; discriminate].
        unfold float_of_parts.
        pose proof (digit_token_skipn int_d k Hk) as Hs. unfold digit_token in Hs.
        rewrite Hs. cbn [option_map]. eexists; split; reflexivity.
      * assert (int_d = 0%nat) as -> by lia. cbn [List.firstn List.skipn].
        unfold float_of_parts. unfold digit_token in Hk. rewrite Hk.
        cbn [parse_int all_digits forallb is_digit option_map].
        eexists; split; reflexivity.
  - (* the format 0.0: the digits are read whole *)
    assert (int_d = 0%nat) as -> by lia. assert (dec_d = 0%nat) as -> by lia.
    cbn [Nat.add Nat.leb]. cbv zeta.
    destruct digits as [| c r].
    + destruct zm; cbn; destruct neg; eexists; split; reflexivity.
    + assert (Hk : kept_code (Nat.max 1 (List.length (c :: r))) zm (c :: r) = c :: r).
      { unfold kept_code. cbn [List.length Nat.max].
        replace (Nat.max 0 (List.length r)) with (List.length r) by lia.
        rewrite Nat.ltb_irrefl. cbn [List.length]. now rewrite Nat.ltb_irrefl. }
      rewrite Hk. rewrite parse_int_digits by (auto; discriminate).
      cbn [option_map]. eexists; split; reflexivity.
Qed.

(** C4 (as the code has it).  For a token of digits, with or without a
    leading minus, both decoders return a number; under a format with
    [int_digits + dec_digits >= 1] it is the number of the
    specification: sign stripped, digits padded with zeros on the left
    ([L]) or on the right ([T]) to [int_digits + dec_digits], cut to the
    rightmost digits when the token is longer, split at [int_digits], read
    as sign * integer_part.fractional_part.  Under the format 0.0 the
    digits are not cut to nothing: they are read whole, as an integer.  A
    token holding a point is handed to the float parser as it is. *)
Theorem decoder_refines_spec (neg : bool) (digits dtok : token)
    (int_d dec_d : nat) (zm : zero_mode) :
  all_digits digits = true ->
  has_dot (strip dtok) = true ->
  (exists v,
      _parse_rs274x_coord (Some (signed neg digits)) int_d dec_d zm = Some v /\
      _parse_fixed {| ex_format := {| int_digits := int_d; dec_digits := dec_d |};
                      zero_suppression := zm |} (Some (signed neg digits)) = Some v /\
      v == (if (0 <? int_d + dec_d)%nat
            then decode_spec int_d dec_d zm neg digits
            else with_sign neg (inject_Z (digits_value digits)))) /\
  _parse_rs274x_coord (Some dtok) int_d dec_d zm = parse_float (strip dtok) /\
  _parse_fixed {| ex_format := {| int_digits := int_d; dec_digits := dec_d |};
                  zero_suppression := zm |} (Some dtok) = parse_float (strip dtok).
Proof.
  intros Hd Hdot. split.
  - unfold _parse_rs274x_coord, _parse_fixed. cbn [ex_format int_digits dec_digits
      zero_suppression].
    rewrite strip_id by (now apply signed_no_space).
    rewrite signed_no_dot by exact Hd.
    destruct (signed neg digits) as [| c r] eqn:Es.
    + (* the empty token *)
      assert (neg = false /\ digits = []) as [-> ->]
        by (destruct neg; [discriminate Es | now split]).
      exists 0. split; [reflexivity |]. split; [reflexivity |].
      destruct (0 <? int_d + dec_d)%nat; [| reflexivity].
      symmetry. apply decode_spec_empty.
    + rewrite <- Es. unfold decode_digits.
      destruct (signed_split neg digits Hd) as [-> ->].
      destruct (decode_body_refines int_d dec_d zm neg digits Hd) as [v [Hv Hspec]].
      exists v. now rewrite Hv.
  - unfold _parse_rs274x_coord, _parse_fixed. rewrite Hdot.
    destruct (strip dtok); [discriminate Hdot | now split].
Qed.

Lemma decoder_refines_spec_witness :
  (exists v,
      _parse_rs274x_coord (Some (signed true (tok "1234567"))) 2 3 L = Some v /\
      _parse_fixed {| ex_format := {| int_digits := 2; dec_digits := 3 |};
                      zero_suppression := L |}
                   (Some (signed true (tok "1234567"))) = Some v /\
      v == (if (0 <? 2 + 3)%nat
            then decode_spec 2 3 L true (tok "1234567")
            else with_sign true (inject_Z (digits_value (tok "1234567"))))) /\
  _parse_rs274x_coord (Some (tok "1.25")) 2 3 L = parse_float (strip (tok "1.25")) /\
  _parse_fixed {| ex_format := {| int_digits := 2; dec_digits := 3 |};
                  zero_suppression := L |} (Some (tok "1.25"))
    = parse_float (strip (tok "1.25")).
Proof.
  apply (decoder_refines_spec true (tok "1234567") (tok "1.25") 2 3 L); reflexivity.
Defined.

(** C4, as stated for every format, fails at the format 0.0: the token
    "5" is longer than zero digits, the rule keeps its rightmost zero
    digits and reads 0, while both decoders return 5. *)
Lemma decoder_format_zero_counterexample :
  _parse_rs274x_coord (Some (tok "5")) 0 0 L = Some 5 /\
  _parse_fixed {| ex_format := {| int_digits := 0; dec_digits := 0 |};
                  zero_suppression := L |} (Some (tok "5")) = Some 5 /\
  decode_spec 0 0 L false (tok "5") == 0 /\
  ~ 5 == decode_spec 0 0 L false (tok "5").
Proof.
  repeat split; try (vm_compute; reflexivity). vm_compute. discriminate.
Qed.

End FixedPoint.

(* ===================================================================== *)
(** ** drilling.py and ui/main_window.py: drill assignment and planner *)
(* ===================================================================== *)

Module Drilling.

(** A bit dictionary, as far as the planner looks into it. *)
Record bit := { name : string; diameter : Q }.

(** The slack of the comparison [d <= limit + 1e-9]. *)
Definition eps : Q := 1 # 1000000000.

(** [d <= (hd + tol) + 1e-9] *)
Definition fits (tol hd d : Q) : bool := Qle_bool d (hd + tol + eps).

(** *** Sorting: Python's stable [sorted] / [list.sort] *)

Section Sort.
Context {A : Type} (le : A -> A -> bool).

(** [x] goes behind every element that is not after it. *)
Fixpoint insert_sorted (x : A) (l : list A) : list A :=
  match l with
  | [] => [x]
  | y :: r => if le y x then y :: insert_sorted x r else x :: y :: r
  end.

Definition sort_by (l : list A) : list A :=
  fold_left (fun acc x => insert_sorted x acc) l [].
End Sort.

Definition by_diameter (a b : bit) : bool := Qle_bool (diameter a) (diameter b).

(** *** drilling.py: [_assign_holes_to_drills] *)

Inductive assign_error :=
| NoDrillBits                      (* "No drill bits provided." *)
| NoDrillFor (hd tol : Q).         (* "Impossible: no drill <= hd+tol mm" *)

(** [for i, d in enumerate(ds): if d <= limit + 1e-9: pick = drills[i]
    else: break]; the pick is named by its index. *)
Fixpoint pick_loop (tol hd : Q) (i : nat) (ds : list Q) (pick : option nat)
    : option nat :=
  match ds with
  | [] => pick
  | d :: rest => if fits tol hd d then pick_loop tol hd (S i) rest (Some i) else pick
  end.

(** [for x, y, hd in holes]: [assigned] is indexed by the drill's place
    in [drills] (the bits are distinct objects), [used] holds the places
    picked. *)
Fixpoint assign_loop (ds : list Q) (tol : Q) (holes : list (Q * Q * Q))
    (assigned : list (list (Q * Q))) (used : gset nat)
    : assign_error + (list (list (Q * Q)) * gset nat) :=
  match holes with
  | [] => inr (assigned, used)
  | (x, y, hd) :: rest =>
      match pick_loop tol hd 0 ds None with
      | None => inl (NoDrillFor hd tol)
      | Some i =>
          assign_loop ds tol rest (alter (fun l => l ++ [(x, y)]) i assigned)
                      ({[i]} ∪ used)
      end
  end.

(** The function from [ds = ...] on, for a non-empty list of drills. *)
Definition assign_on (drills : list bit) (holes : list (Q * Q * Q)) (tol : Q)
    : assign_error + list (bit * list (Q * Q)) :=
  let ds := map diameter drills in
  match assign_loop ds tol holes (map (fun _ => []) drills) ∅ with
  | inl e => inl e
  | inr (assigned, used) =>
      let idx := List.filter (fun i => bool_decide (i ∈ used))
                             (seq 0 (List.length drills)) in
      let idx := sort_by (fun i j => Qle_bool (List.nth j ds 0) (List.nth i ds 0)) idx in
      inr (omap (fun i => b ← drills !! i; Some (b, default [] (assigned !! i))) idx)
  end.

Definition _assign_holes_to_drills (holes : list (Q * Q * Q)) (drill_bits : list bit)
    (tol : Q) : assign_error + list (bit * list (Q * Q)) :=
  let drills := List.filter (fun b => negb (Qle_bool (diameter b) 0)) drill_bits in
  let drills := sort_by by_diameter drills in
  match drills with
  | [] => inl NoDrillBits
  | _ => assign_on drills holes tol
  end.

(** *** ui/main_window.py: [_plan_drills_for_holes] *)

(** [best_drill_index_for(hd, allowed_idx)]; [None] for the result -1. *)
Fixpoint best_loop (tol hd : Q) (allowed_idx : option (gset nat)) (i : nat)
    (ds : list Q) (best : option nat) : option nat :=
  match ds with
  | [] => best
  | d :: rest =>
      if match allowed_idx with
         | Some a => negb (bool_decide (i ∈ a))
         | None => false
         end
      then best_loop tol hd allowed_idx (S i) rest best
      else if fits tol hd d then best_loop tol hd allowed_idx (S i) rest (Some i)
      else best
  end.

Definition best_drill_index_for (ds : list Q) (tol hd : Q)
    (allowed_idx : option (gset nat)) : option nat :=
  best_loop tol hd allowed_idx 0 ds None.

(** [sorted(set(i for i in assign_idx if i >= 0))] *)
Definition sorted_set (assign_idx : list (option nat)) : list nat :=
  sort_by Nat.leb (elements (list_to_set (omap id assign_idx) : gset nat)).

(** [holes_by[di]]: the holes now assigned to [di]. *)
Definition holes_by (hole_ds : list Q) (assign_idx : list (option nat)) (di : nat)
    : list Q :=
  map fst (List.filter (fun p => bool_decide (snd p = Some di))
                       (combine hole_ds assign_idx)).

Definition is_droppable (ds : list Q) (tol : Q) (hole_ds : list Q)
    (assign_idx : list (option nat)) (used : list nat) (di : nat) : bool :=
  let other := list_to_set used ∖ {[di]} in
  forallb (fun hd => bool_decide (is_Some (best_drill_index_for ds tol hd (Some other))))
          (holes_by hole_ds assign_idx di).

(** [holes_cnt[i]] *)
Definition holes_cnt (assign_idx : list (option nat)) (i : nat) : nat :=
  List.length (List.filter (fun a => bool_decide (a = Some i)) assign_idx).

(** The order of [droppable.sort(key=lambda i: (holes_cnt[i], ds[i]))]. *)
Definition drop_order (ds : list Q) (assign_idx : list (option nat)) (i j : nat) : bool :=
  let ci := holes_cnt assign_idx i in
  let cj := holes_cnt assign_idx j in
  (ci <? cj)%nat || (Nat.eqb ci cj && Qle_bool (List.nth i ds 0) (List.nth j ds 0)).

(** [used.remove(drop)] *)
Fixpoint remove_first (x : nat) (l : list nat) : list nat :=
  match l with
  | [] => []
  | y :: r => if Nat.eqb y x then r else y :: remove_first x r
  end.

Definition reassign (ds : list Q) (tol : Q) (used : list nat) (drop : nat)
    (hole_ds : list Q) (assign_idx : list (option nat)) : list (option nat) :=
  let used_set := list_to_set used in
  imap (fun k a =>
          if decide (a = Some drop)
          then best_drill_index_for ds tol (List.nth k hole_ds 0) (Some used_set)
          else a) assign_idx.

(** [while len(used) > max_bits]: the outcome is the drills still in use,
    either over the cap with nothing droppable ([inl]) or within it
    ([inr], with the assignment); [None] when the rounds run out. *)
Fixpoint reduce_loop (fuel : nat) (ds : list Q) (tol : Q) (hole_ds : list Q)
    (max_bits : Z) (used : list nat) (assign_idx : list (option nat))
    : option (list nat + list nat * list (option nat)) :=
  if (max_bits <? Z.of_nat (List.length used))%Z then
    match fuel with
    | O => None
    | S k =>
        let droppable :=
          List.filter (is_droppable ds tol hole_ds assign_idx used) used in
        match sort_by (drop_order ds assign_idx) droppable with
        | [] => Some (inl used)
        | drop :: _ =>
            let used := remove_first drop used in
            reduce_loop k ds tol hole_ds max_bits used
                        (reassign ds tol used drop hole_ds assign_idx)
        end
    end
  else Some (inr (used, assign_idx)).

Inductive plan_status := ok | error.

Inductive plan_message :=
| NoSmallHoles                     (* "No small holes to drill." *)
| NoBitsAvailable                  (* "No drill bits available." *)
| MissingHoles (bad : list Q)      (* "Impossible: smallest drill is larger ..." *)
| OverCap (max_bits : Z)           (* "Impossible to stay within max drills=..." *)
| Planned (bits : list bit).       (* "Planned drills (n): ..." *)

Record plan := {
  status : plan_status;
  planned : list bit;
  counts : list (Q * nat);
  message : plan_message
}.

(** [counts[ds[i]] = counts.get(ds[i], 0) + 1] on a dictionary keyed by
    the diameter. *)
Fixpoint count_bump (zero : bool) (d : Q) (counts : list (Q * nat)) : list (Q * nat) :=
  match counts with
  | [] => [(d, if zero then O else 1%nat)]
  | (k, n) :: r =>
      if Qeq_bool k d then (k, if zero then O else S n) :: r
      else (k, n) :: count_bump zero d r
  end.

Definition _plan_drills_for_holes (hole_ds : list Q) (candidate_bits : list bit)
    (tol : Q) (max_bits : Z) : option plan :=
  match hole_ds, candidate_bits with
  | [], _ => Some {| status := ok; planned := []; counts := []; message := NoSmallHoles |}
  | _, [] => Some {| status := error; planned := []; counts := [];
                     message := NoBitsAvailable |}
  | _, _ =>
      let drills := sort_by by_diameter candidate_bits in
      let ds := map diameter drills in
      let assign_idx := map (fun hd => best_drill_index_for ds tol hd None) hole_ds in
      if existsb (fun a => negb (bool_decide (is_Some a))) assign_idx then
        let bad := omap (fun p => match snd p with
                                  | None => Some (fst p)
                                  | Some _ => None
                                  end) (combine hole_ds assign_idx) in
        Some {| status := error; planned := []; counts := [];
                message := MissingHoles bad |}
      else
        let used := sorted_set assign_idx in
        match reduce_loop (S (List.length used)) ds tol hole_ds max_bits used assign_idx with
        | None => None
        | Some (inl used) =>
            Some {| status := error; planned := omap (fun i => drills !! i) used;
                    counts := []; message := OverCap max_bits |}
        | Some (inr (used, assign_idx)) =>
            let planned := omap (fun i => drills !! i) used in
            let planned := sort_by (fun a b => by_diameter b a) planned in
            let counts := fold_left (fun c i => count_bump true (List.nth i ds 0) c) used [] in
            let counts := fold_left (fun c a => match a with
                                                | Some i => count_bump false (List.nth i ds 0) c
                                                | None => c
                                                end) assign_idx counts in
            Some {| status := ok; planned := planned; counts := counts;
                    message := Planned planned |}
        end
  end.

Definition b05 : bit := {| name := "d05"; diameter := 5 # 10 |}.
Definition b06 : bit := {| name := "d06"; diameter := 6 # 10 |}.
Definition b08 : bit := {| name := "d08"; diameter := 8 # 10 |}.
Definition b09 : bit := {| name := "d09"; diameter := 9 # 10 |}.
Definition b10 : bit := {| name := "d10"; diameter := 1 |}.

Example plan_reduction :
  option_map (fun p => (status p, planned p))
    (_plan_drills_for_holes [6 # 10; 6 # 10; 8 # 10; 9 # 10; 1]
       [b05; b06; b08; b09; b10] (5 # 100) 2)
  = Some (ok, [b10; b06]).
Proof. vm_compute. reflexivity. Qed.

Example plan_impossible :
  option_map status (_plan_drills_for_holes [3 # 10] [b05; b06] (5 # 100) 4)
  = Some error.
Proof. vm_compute. reflexivity. Qed.

Example assign_example :
  _assign_holes_to_drills [(0, 0, 6 # 10); (1, 1, 1); (2, 2, 65 # 100)] [b10; b05; b06]
    (5 # 100)
  = inr [(b10, [(1, 1)]); (b06, [(0, 0); (2, 2)])].
Proof. vm_compute. reflexivity. Qed.

(** *** Facts about the sort *)

Section SortFacts.
Context {A : Type} (le : A -> A -> bool).

Lemma insert_sorted_In (x y : A) (l : list A) :
  In y (insert_sorted le x l) <-> y = x \/ In y l.
Proof.
  induction l as [| z r IH]; cbn [insert_sorted].
  - cbn. intuition.
  - destruct (le z x); cbn [In]; [rewrite IH |]; intuition.
Qed.

Lemma sort_by_In_acc (y : A) (l acc : list A) :
  In y (fold_left (fun acc x => insert_sorted le x acc) l acc) <-> In y l \/ In y acc.
Proof.
  revert acc. induction l as [| x l IH]; intros acc; cbn [fold_left In].
  - intuition.
  - rewrite IH, insert_sorted_In. intuition.
Qed.

Lemma sort_by_In (y : A) (l : list A) : In y (sort_by le l) <-> In y l.
Proof. unfold sort_by. rewrite sort_by_In_acc. cbn. intuition. Qed.

Lemma insert_sorted_length (x : A) (l : list A) :
  List.length (insert_sorted le x l) = S (List.length l).
Proof.
  induction l as [| z r IH]; cbn [insert_sorted]; [reflexivity |].
  destruct (le z x); cbn [List.length]; [now rewrite IH | reflexivity].
Qed.

Lemma sort_by_length_acc (l acc : list A) :
  List.length (fold_left (fun acc x => insert_sorted le x acc) l acc)
  = (List.length l + List.length acc)%nat.
Proof.
  revert acc. induction l as [| x l IH]; intros acc; cbn [fold_left List.length].
  - reflexivity.
  - rewrite IH, insert_sorted_length. lia.
Qed.

Lemma sort_by_length (l : list A) : List.length (sort_by le l) = List.length l.
Proof. unfold sort_by. rewrite sort_by_length_acc. cbn. lia. Qed.

Lemma insert_sorted_perm (x : A) (l : list A) :
  Permutation (insert_sorted le x l) (x :: l).
Proof.
  induction l as [| z r IH]; cbn [insert_sorted]; [reflexivity |].
  destruct (le z x); [| reflexivity].
  rewrite IH. apply perm_swap.
Qed.

Lemma sort_by_perm (l : list A) : Permutation (sort_by le l) l.
Proof.
  unfold sort_by.
  assert (H : forall acc,
             Permutation (fold_left (fun acc x => insert_sorted le x acc) l acc)
                         (l ++ acc)).
  { induction l as [| x l IH]; intros acc; cbn [fold_left app]; [reflexivity |].
    rewrite IH, insert_sorted_perm. symmetry. apply Permutation_middle. }
  rewrite H. now rewrite app_nil_r.
Qed.

Hypothesis le_total : forall a b, le a b = false -> le b a = true.
Hypothesis le_trans : forall a b c, le a b = true -> le b c = true -> le a c = true.

Let R (a b : A) : Prop := le a b = true.

Lemma insert_sorted_sorted (x : A) (l : list A) :
  StronglySorted R l -> StronglySorted R (insert_sorted le x l).
Proof.
  induction 1 as [| z r Hs IH Hall]; cbn [insert_sorted].
  - repeat constructor.
  - destruct (le z x) eqn:E.
    + constructor; [exact IH |].
      apply Forall_forall. intros y Hy. apply insert_sorted_In in Hy as [-> | Hy].
      * exact E.
      * rewrite Forall_forall in Hall. now apply Hall.
    + apply le_total in E. constructor; [now constructor |].
      constructor; [exact E |].
      rewrite Forall_forall in Hall |- *. intros y Hy.
      apply (le_trans x z y E). now apply Hall.
Qed.

Lemma sort_by_sorted (l : list A) : StronglySorted R (sort_by le l).
Proof.
  unfold sort_by.
  assert (H : forall acc, StronglySorted R acc ->
              StronglySorted R (fold_left (fun acc x => insert_sorted le x acc) l acc)).
  { induction l as [| x l IH]; intros acc Hacc; cbn [fold_left]; [exact Hacc |].
    apply IH. now apply insert_sorted_sorted. }
  apply H. constructor.
Qed.
End SortFacts.

(** Diameters in ascending order. *)
Definition ascending (ds : list Q) : Prop := StronglySorted Qle ds.

Lemma sorted_diameters (bits : list bit) :
  ascending (map diameter (sort_by by_diameter bits)).
Proof.
  unfold ascending.
  assert (H : StronglySorted (fun a b => by_diameter a b = true)
                             (sort_by by_diameter bits)).
  { apply sort_by_sorted; unfold by_diameter.
    - intros a b E. apply Qle_bool_iff.
      destruct (Qlt_le_dec (diameter a) (diameter b)) as [Hlt | Hle]; [| exact Hle].
      apply Qlt_le_weak, Qle_bool_iff in Hlt. congruence.
    - intros a b c H1 H2. apply Qle_bool_iff in H1, H2. apply Qle_bool_iff.
      now apply Qle_trans with (diameter b). }
  induction H as [| b r Hs IH Hall]; cbn [map]; constructor; [exact IH |].
  rewrite Forall_forall in Hall |- *. intros d Hd.
  apply in_map_iff in Hd as [b' [<- Hb']]. apply Qle_bool_iff. now apply Hall.
Qed.

Lemma ascending_lookup (ds : list Q) (i j : nat) (a b : Q) :
  ascending ds -> (i <= j)%nat -> ds !! i = Some a -> ds !! j = Some b -> a <= b.
Proof.
  intros H. revert i j. induction H as [| d r Hs IH Hall]; intros i j Hij Hi Hj.
  - discriminate.
  - destruct i as [| i], j as [| j]; cbn in Hi, Hj.
    + inversion Hi; inversion Hj; subst. apply Qle_refl.
    + inversion Hi; subst. rewrite Forall_forall in Hall. apply Hall.
      apply list_elem_of_In. apply list_elem_of_lookup. eauto.
    + lia.
    + apply (IH i j); [lia | assumption | assumption].
Qed.

Lemma fits_mono (tol hd a b : Q) : a <= b -> fits tol hd b = true -> fits tol hd a = true.
Proof.
  unfold fits. intros Hab Hb. apply Qle_bool_iff in Hb. apply Qle_bool_iff.
  now apply Qle_trans with b.
Qed.

(** *** Facts about the search for the best drill *)

Definition allowed (allowed_idx : option (gset nat)) (i : nat) : Prop :=
  match allowed_idx with
  | Some a => i ∈ a
  | None => True
  end.

Lemma allowed_test (al : option (gset nat)) (i : nat) :
  match al with
  | Some a => negb (bool_decide (i ∈ a))
  | None => false
  end = false <-> allowed al i.
Proof.
  destruct al as [a |]; cbn; [| intuition].
  rewrite negb_false_iff, bool_decide_eq_true. reflexivity.
Qed.

(** A result is the incoming best or an allowed, fitting place. *)
Lemma best_loop_sound (tol hd : Q) (al : option (gset nat)) (ds : list Q)
    (i : nat) (best : option nat) (j : nat) :
  best_loop tol hd al i ds best = Some j ->
  best = Some j \/
  exists k d, j = (i + k)%nat /\ ds !! k = Some d /\ fits tol hd d = true /\ allowed al j.
Proof.
  revert i best. induction ds as [| d rest IH]; intros i best; cbn [best_loop].
  - auto.
  - destruct (match al with Some a => negb (bool_decide (i ∈ a)) | None => false end)
      eqn:Eal.
    + intros H. apply IH in H as [H | [k [d' [-> [Hk [Hf Ha]]]]]]; [auto |].
      right. exists (S k), d'.
      replace (i + S k)%nat with (S i + k)%nat by lia. repeat split; auto.
    + apply allowed_test in Eal. destruct (fits tol hd d) eqn:Ef; [| auto].
      intros H. apply IH in H as [H | [k [d' [-> [Hk [Hf Ha]]]]]].
      * inversion H; subst. right. exists 0%nat, d.
        rewrite Nat.add_0_r. repeat split; auto.
      * right. exists (S k), d'.
        replace (i + S k)%nat with (S i + k)%nat by lia. repeat split; auto.
Qed.

Lemma best_loop_keeps (tol hd : Q) (al : option (gset nat)) (ds : list Q)
    (i : nat) (b : nat) :
  is_Some (best_loop tol hd al i ds (Some b)).
Proof.
  revert i b. induction ds as [| d rest IH]; intros i b; cbn [best_loop]; [eauto |].
  destruct (match al with Some a => negb (bool_decide (i ∈ a)) | None => false end);
    [apply IH |].
  destruct (fits tol hd d); [apply IH | eauto].
Qed.

(** On ascending diameters an allowed, fitting place is never missed. *)
Lemma best_loop_complete (tol hd : Q) (al : option (gset nat)) (ds : list Q)
    (i : nat) (best : option nat) (k : nat) (d : Q) :
  ascending ds ->
  ds !! k = Some d -> fits tol hd d = true -> allowed al (i + k) ->
  is_Some (best_loop tol hd al i ds best).
Proof.
  intros Hs. revert i best k.
  induction Hs as [| d0 rest Hs IH Hall]; intros i best k Hk Hf Ha; [discriminate |].
  cbn [best_loop].
  destruct (match al with Some a => negb (bool_decide (i ∈ a)) | None => false end)
    eqn:Eal.
  - destruct k as [| k].
    + rewrite Nat.add_0_r in Ha. apply allowed_test in Ha. congruence.
    + apply (IH (S i) best k); auto.
      now replace (S i + k)%nat with (i + S k)%nat by lia.
  - destruct (fits tol hd d0) eqn:Ef; [apply best_loop_keeps |].
    exfalso. destruct k as [| k]; cbn in Hk.
    + inversion Hk; subst. congruence.
    + rewrite Forall_forall in Hall.
      assert (Hle : d0 <= d).
      { apply Hall. apply list_elem_of_In. apply list_elem_of_lookup. eauto. }
      rewrite (fits_mono tol hd d0 d Hle Hf) in Ef. discriminate.
Qed.

(** On ascending diameters the result is the last allowed, fitting place. *)
Lemma best_loop_last (tol hd : Q) (al : option (gset nat)) (ds : list Q)
    (i : nat) (best : option nat) (j k : nat) (d : Q) :
  ascending ds ->
  best_loop tol hd al i ds best = Some j ->
  ds !! k = Some d -> fits tol hd d = true -> allowed al (i + k) ->
  (i + k <= j)%nat.
Proof.
  intros Hs. revert i best k.
  induction Hs as [| d0 rest Hs IH Hall]; intros i best k Hr Hk Hf Ha; [discriminate |].
  cbn [best_loop] in Hr.
  destruct (match al with Some a => negb (bool_decide (i ∈ a)) | None => false end)
    eqn:Eal.
  - destruct k as [| k].
    + rewrite Nat.add_0_r in Ha. apply allowed_test in Ha. congruence.
    + replace (i + S k)%nat with (S i + k)%nat by lia.
      apply (IH (S i) best k); auto.
      now replace (S i + k)%nat with (i + S k)%nat by lia.
  - destruct (fits tol hd d0) eqn:Ef.
    + destruct k as [| k].
      * rewrite Nat.add_0_r.
        apply best_loop_sound in Hr as [Hr | [k' [d' [-> _]]]]; [| lia].
        inversion Hr; lia.
      * replace (i + S k)%nat with (S i + k)%nat by lia.
        apply (IH (S i) (Some i) k); auto.
        now replace (S i + k)%nat with (i + S k)%nat by lia.
    + exfalso. destruct k as [| k]; cbn in Hk.
      * inversion Hk; subst. congruence.
      * rewrite Forall_forall in Hall.
        assert (Hle : d0 <= d).
        { apply Hall. apply list_elem_of_In. apply list_elem_of_lookup. eauto. }
        rewrite (fits_mono tol hd d0 d Hle Hf) in Ef. discriminate.
Qed.

(** The pick of drilling.py is the planner's unrestricted search. *)
Lemma pick_loop_best_loop (tol hd : Q) (ds : list Q) (i : nat) (p : option nat) :
  pick_loop tol hd i ds p = best_loop tol hd None i ds p.
Proof.
  revert i p. induction ds as [| d rest IH]; intros i p; cbn; [reflexivity |].
  destruct (fits tol hd d); [apply IH | reflexivity].
Qed.

(** *** Facts about the size-set reduction *)

Lemma holes_by_lookup (hole_ds : list Q) (assign_idx : list (option nat))
    (di : nat) (hd : Q) :
  In hd (holes_by hole_ds assign_idx di) <->
  exists k, hole_ds !! k = Some hd /\ assign_idx !! k = Some (Some di).
Proof.
  unfold holes_by. revert assign_idx.
  induction hole_ds as [| h hs IH]; intros [| a asg]; cbn [combine List.filter map].
  - split; [intros [] | intros [k [H _]]; discriminate].
  - split; [intros [] | intros [k [H _]]; discriminate].
  - split; [intros [] | intros [k [_ H]]; discriminate].
  - cbn [fst snd]. destruct (bool_decide_reflect (a = Some di)) as [-> | Hne].
    + cbn [map fst In]. rewrite IH. split.
      * intros [<- | [k Hk]]; [exists 0%nat; now split | exists (S k); exact Hk].
      * intros [[| k] [H1 H2]]; cbn in H1, H2.
        -- left. congruence.
        -- right. exists k. now split.
    + rewrite IH. split.
      * intros [k Hk]. exists (S k). exact Hk.
      * intros [[| k] [H1 H2]]; cbn in H1, H2; [congruence | exists k; now split].
Qed.

Lemma remove_first_In (x y : nat) (l : list nat) :
  NoDup l -> In y (remove_first x l) <-> In y l /\ y <> x.
Proof.
  induction 1 as [| z r Hz Hnd IH]; cbn [remove_first In]; [tauto |].
  destruct (Nat.eqb_spec z x) as [-> | Hne].
  - split; [intros Hy; split; [now right | intros ->; contradiction] |].
    intros [[<- | Hy] Hxy]; [now elim Hxy | exact Hy].
  - cbn [In]. rewrite IH. split.
    + intros [<- | [Hy Hxy]]; [split; [now left | exact Hne] | split; [now right | exact Hxy]].
    + intros [[<- | Hy] Hxy]; [now left | right; now split].
Qed.

Lemma remove_first_NoDup (x : nat) (l : list nat) : NoDup l -> NoDup (remove_first x l).
Proof.
  induction 1 as [| z r Hz Hnd IH]; cbn [remove_first]; [constructor |].
  destruct (Nat.eqb_spec z x); [exact Hnd |].
  constructor; [| exact IH]. rewrite remove_first_In by exact Hnd. tauto.
Qed.

Lemma remove_first_length (x : nat) (l : list nat) :
  In x l -> List.length l = S (List.length (remove_first x l)).
Proof.
  induction l as [| z r IH]; cbn [remove_first In]; [intros [] |].
  destruct (Nat.eqb_spec z x) as [-> | Hne]; [reflexivity |].
  intros [-> | Hx]; [now elim Hne |]. cbn [List.length]. now rewrite <- IH.
Qed.

(** What holds of the drills in use and of the assignment before and
    after every round: each hole is assigned to a drill in use that fits it. *)
Record plan_inv (ds : list Q) (tol : Q) (hole_ds : list Q) (used : list nat)
    (assign_idx : list (option nat)) : Prop := {
  inv_nodup : NoDup used;
  inv_range : forall i, In i used -> is_Some (ds !! i);
  inv_length : List.length assign_idx = List.length hole_ds;
  inv_assigned : forall k a, assign_idx !! k = Some a ->
      exists i d hd, a = Some i /\ In i used /\ hole_ds !! k = Some hd /\
                     ds !! i = Some d /\ fits tol hd d = true
}.

(** A drill in use that is not the smallest one can always be dropped. *)
Lemma larger_is_droppable (ds : list Q) (tol : Q) (hole_ds : list Q)
    (used : list nat) (assign_idx : list (option nat)) (di dj : nat) :
  ascending ds -> plan_inv ds tol hole_ds used assign_idx ->
  In di used -> In dj used -> (dj < di)%nat ->
  is_droppable ds tol hole_ds assign_idx used di = true.
Proof.
  intros Hs Hinv Hdi Hdj Hlt. unfold is_droppable. apply forallb_forall.
  intros hd Hhd. apply bool_decide_eq_true.
  apply holes_by_lookup in Hhd as [k [Hk Ha]].
  destruct (inv_assigned _ _ _ _ _ Hinv k _ Ha) as [i [d [hd' [Ei [_ [Hk' [Hd Hf]]]]]]].
  inversion Ei; subst i. rewrite Hk in Hk'. inversion Hk'; subst hd'.
  destruct (inv_range _ _ _ _ _ Hinv dj Hdj) as [d' Hd'].
  unfold best_drill_index_for.
  apply (best_loop_complete tol hd _ ds 0 None dj d' Hs Hd').
  - apply (fits_mono tol hd d' d); [| exact Hf].
    apply (ascending_lookup ds dj di); auto. lia.
  - cbn. apply elem_of_difference. split.
    + apply elem_of_list_to_set, list_elem_of_In. exact Hdj.
    + intros Hin. apply elem_of_singleton in Hin. lia.
Qed.

Lemma two_in_use (used : list nat) :
  NoDup used -> (2 <= List.length used)%nat ->
  exists di dj, In di used /\ In dj used /\ (dj < di)%nat.
Proof.
  intros Hnd Hlen. destruct used as [| a [| b r]]; cbn in Hlen; try lia.
  assert (a <> b)
    by (inversion Hnd as [| ? ? Ha _]; subst; intros ->; apply Ha; now left).
  destruct (Nat.lt_ge_cases a b).
  - exists b, a. cbn. auto.
  - exists a, b. cbn. repeat split; auto. lia.
Qed.

(** Over the cap there is always something to drop. *)
Lemma drop_exists (ds : list Q) (tol : Q) (hole_ds : list Q)
    (used : list nat) (assign_idx : list (option nat)) :
  ascending ds -> plan_inv ds tol hole_ds used assign_idx ->
  (2 <= List.length used)%nat ->
  exists drop rest,
    sort_by (drop_order ds assign_idx)
            (List.filter (is_droppable ds tol hole_ds assign_idx used) used)
      = drop :: rest /\
    In drop used /\ is_droppable ds tol hole_ds assign_idx used drop = true.
Proof.
  intros Hs Hinv Hlen.
  destruct (two_in_use used (inv_nodup _ _ _ _ _ Hinv) Hlen) as [di [dj [Hdi [Hdj Hlt]]]].
  pose proof (larger_is_droppable ds tol hole_ds used assign_idx di dj
                Hs Hinv Hdi Hdj Hlt) as Hdrop.
  set (droppable := List.filter (is_droppable ds tol hole_ds assign_idx used) used).
  assert (Hin : In di droppable) by (apply filter_In; now split).
  destruct (sort_by (drop_order ds assign_idx) droppable) as [| drop rest] eqn:E.
  - apply (sort_by_In (drop_order ds assign_idx)) in Hin. rewrite E in Hin.
    destruct Hin.
  - exists drop, rest. split; [reflexivity |].
    assert (Hd : In drop droppable).
    { apply (sort_by_In (drop_order ds assign_idx)). rewrite E. now left. }
    apply filter_In in Hd. exact Hd.
Qed.

(** Dropping a droppable drill and reassigning its holes keeps every hole
    on a fitting drill in use. *)
Lemma drop_keeps_inv (ds : list Q) (tol : Q) (hole_ds : list Q)
    (used : list nat) (assign_idx : list (option nat)) (drop : nat) :
  ascending ds -> plan_inv ds tol hole_ds used assign_idx ->
  In drop used -> is_droppable ds tol hole_ds assign_idx used drop = true ->
  plan_inv ds tol hole_ds (remove_first drop used)
           (reassign ds tol (remove_first drop used) drop hole_ds assign_idx).
Proof.
  intros Hs Hinv Hin Hdrop.
  pose proof (inv_nodup _ _ _ _ _ Hinv) as Hnd.
  split.
  - now apply remove_first_NoDup.
  - intros i Hi. apply remove_first_In in Hi as [Hi _]; [| exact Hnd].
    now apply (inv_range _ _ _ _ _ Hinv).
  - unfold reassign. rewrite length_imap. apply (inv_length _ _ _ _ _ Hinv).
  - intros k a Hk. unfold reassign in Hk. rewrite list_lookup_imap in Hk.
    destruct (assign_idx !! k) as [a0 |] eqn:Ea; [| discriminate].
    cbn in Hk. injection Hk as <-.
    destruct (inv_assigned _ _ _ _ _ Hinv k a0 Ea)
      as [i [d [hd [-> [Hi [Hhd [Hd Hf]]]]]]].
    destruct (decide (Some i = Some drop)) as [Ei | Hne].
    + inversion Ei; subst i.
      assert (Hn : List.nth k hole_ds 0 = hd)
        by (rewrite nth_lookup, Hhd; reflexivity).
      rewrite Hn. clear Hn.
      (* the drill found among the others is still in use *)
      unfold is_droppable in Hdrop. rewrite forallb_forall in Hdrop.
      assert (Hby : In hd (holes_by hole_ds assign_idx drop))
        by (apply holes_by_lookup; eauto).
      apply Hdrop, bool_decide_eq_true in Hby. destruct Hby as [j0 Hj0].
      unfold best_drill_index_for in Hj0.
      apply best_loop_sound in Hj0 as [Hj0 | [k0 [d0 [Ej [Hk0 [Hf0 Hal]]]]]];
        [discriminate |].
      cbn in Ej. subst k0. cbn in Hal. apply elem_of_difference in Hal as [Hu Hnot].
      apply elem_of_list_to_set, list_elem_of_In in Hu.
      assert (Hj0' : In j0 (remove_first drop used)).
      { apply remove_first_In; [exact Hnd |]. split; [exact Hu |].
        intros ->. apply Hnot. now apply elem_of_singleton. }
      assert (Hsome : is_Some (best_drill_index_for ds tol hd
                                 (Some (list_to_set (remove_first drop used))))).
      { unfold best_drill_index_for.
        apply (best_loop_complete tol hd _ ds 0 None j0 d0 Hs Hk0 Hf0).
        cbn. now apply elem_of_list_to_set, list_elem_of_In. }
      destruct Hsome as [j Hj]. rewrite Hj.
      unfold best_drill_index_for in Hj.
      apply best_loop_sound in Hj as [Hj | [k1 [d1 [Ej [Hk1 [Hf1 Hal1]]]]]];
        [discriminate |].
      cbn in Ej. subst k1. cbn in Hal1.
      apply elem_of_list_to_set, list_elem_of_In in Hal1.
      exists j, d1, hd. repeat split; auto.
    + exists i, d, hd. repeat split; auto.
      apply remove_first_In; [exact Hnd |]. split; [exact Hi | congruence].
Qed.

(** With a cap of at least one drill the reduction always ends within
    the cap, and never for lack of rounds. *)
Lemma reduce_loop_within_cap (fuel : nat) (ds : list Q) (tol : Q) (hole_ds : list Q)
    (max_bits : Z) (used : list nat) (assign_idx : list (option nat)) :
  ascending ds -> (1 <= max_bits)%Z ->
  plan_inv ds tol hole_ds used assign_idx ->
  (List.length used < fuel)%nat ->
  exists used' assign_idx',
    reduce_loop fuel ds tol hole_ds max_bits used assign_idx
      = Some (inr (used', assign_idx')) /\
    (Z.of_nat (List.length used') <= max_bits)%Z /\
    plan_inv ds tol hole_ds used' assign_idx'.
Proof.
  intros Hs Hcap. revert used assign_idx.
  induction fuel as [| fuel IH]; intros used assign_idx Hinv Hfuel; [lia |].
  cbn [reduce_loop].
  destruct (Z.ltb_spec max_bits (Z.of_nat (List.length used))) as [Hover | Hin].
  - destruct (drop_exists ds tol hole_ds used assign_idx Hs Hinv ltac:(lia))
      as [drop [rest [E [Hdu Hdd]]]].
    rewrite E.
    apply IH.
    + now apply drop_keeps_inv.
    + pose proof (remove_first_length drop used Hdu). lia.
  - exists used, assign_idx.
    split; [reflexivity | split; [exact Hin | exact Hinv]].
Qed.

Lemma omap_length_le {A B : Type} (f : A -> option B) (l : list A) :
  (List.length (omap f l) <= List.length l)%nat.
Proof.
  induction l as [| x l IH]; [cbn; lia |].
  change (omap f (x :: l))
    with (match f x with Some y => y :: omap f l | None => omap f l end).
  destruct (f x); cbn [List.length]; lia.
Qed.

Lemma sorted_set_In (assign_idx : list (option nat)) (i : nat) :
  In i (sorted_set assign_idx) <-> In (Some i) assign_idx.
Proof.
  unfold sorted_set. rewrite sort_by_In, <- list_elem_of_In, elem_of_elements,
    elem_of_list_to_set, list_elem_of_omap.
  split.
  - intros [a [Ha E]]. unfold id in E. subst a. now apply list_elem_of_In.
  - intros H. exists (Some i). split; [now apply list_elem_of_In | reflexivity].
Qed.

Lemma sorted_set_NoDup (assign_idx : list (option nat)) : NoDup (sorted_set assign_idx).
Proof.
  unfold sorted_set. eapply Permutation_NoDup.
  - symmetry. apply sort_by_perm.
  - apply NoDup_ListNoDup, NoDup_elements.
Qed.

(** After the first assignment, when every hole found a drill. *)
Lemma first_assignment_inv (ds : list Q) (tol : Q) (hole_ds : list Q) :
  let assign_idx := map (fun hd => best_drill_index_for ds tol hd None) hole_ds in
  existsb (fun a => negb (bool_decide (is_Some a))) assign_idx = false ->
  plan_inv ds tol hole_ds (sorted_set assign_idx) assign_idx.
Proof.
  intros assign_idx Hall.
  assert (Hlook : forall k a, assign_idx !! k = Some a ->
            exists i d hd, a = Some i /\ hole_ds !! k = Some hd /\
                           ds !! i = Some d /\ fits tol hd d = true).
  { intros k a Hk. unfold assign_idx in Hk.
    change (map ?f ?l) with (f <$> l) in Hk. rewrite list_lookup_fmap in Hk.
    destruct (hole_ds !! k) as [hd |] eqn:Ehd; [| discriminate].
    cbn in Hk. injection Hk as Ha.
    destruct a as [i |].
    - unfold best_drill_index_for in Ha.
      apply best_loop_sound in Ha as [Ha | [k0 [d [Ej [Hk0 [Hf _]]]]]]; [discriminate |].
      cbn in Ej. subst k0. exists i, d, hd. auto.
    - exfalso. assert (Hin : In None assign_idx).
      { unfold assign_idx. apply in_map_iff. exists hd. split; [exact Ha |].
        apply list_elem_of_In, list_elem_of_lookup. eauto. }
      assert (Hex : existsb (fun a => negb (bool_decide (is_Some a))) assign_idx = true).
      { apply existsb_exists. exists None. split; [exact Hin |].
        apply negb_true_iff, bool_decide_eq_false. intros [x Hx]. discriminate. }
      congruence. }
  split.
  - apply sorted_set_NoDup.
  - intros i Hi. apply sorted_set_In in Hi.
    apply list_elem_of_In, list_elem_of_lookup in Hi as [k Hk].
    destruct (Hlook k _ Hk) as [i' [d [hd [E [_ [Hd _]]]]]].
    injection E as <-. eauto.
  - unfold assign_idx. apply length_map.
  - intros k a Hk. destruct (Hlook k a Hk) as [i [d [hd [-> [Hhd [Hd Hf]]]]]].
    exists i, d, hd. repeat split; auto.
    apply sorted_set_In. apply list_elem_of_In, list_elem_of_lookup. eauto.
Qed.

(** A hole with no drill under the slack has none without it. *)
Lemma no_drill_no_subset (bits : list bit) (tol hd : Q) :
  best_drill_index_for (map diameter (sort_by by_diameter bits)) tol hd None = None ->
  forall b, In b bits -> ~ diameter b <= hd + tol.
Proof.
  intros Hnone b Hb Hle.
  assert (Hin : In (diameter b) (map diameter (sort_by by_diameter bits))).
  { apply in_map. now apply sort_by_In. }
  apply list_elem_of_In, list_elem_of_lookup in Hin as [k Hk].
  assert (Hf : fits tol hd (diameter b) = true).
  { unfold fits. apply Qle_bool_iff. unfold eps.
    apply Qle_trans with (hd + tol); [exact Hle |].
    rewrite <- (Qplus_0_r (hd + tol)) at 1. apply Qplus_le_r. discriminate. }
  destruct (best_loop_complete tol hd None _ 0 None k (diameter b)
              (sorted_diameters bits) Hk Hf I) as [j Hj].
  unfold best_drill_index_for in Hnone. congruence.
Qed.

(** C5: with a cap of at least one drill the planner always returns;
    when it returns an error, no set of at most [max_bits] candidate
    drills gives every hole a drill of diameter at most hole + tol; when
    it returns a plan, the plan holds at most [max_bits] drills. *)
Theorem plan_impossibility_complete (hole_ds : list Q) (candidate_bits : list bit)
    (tol : Q) (max_bits : Z) :
  (1 <= max_bits)%Z ->
  exists p,
    _plan_drills_for_holes hole_ds candidate_bits tol max_bits = Some p /\
    match status p with
    | error =>
        forall subset : list bit,
          incl subset candidate_bits ->
          (Z.of_nat (List.length subset) <= max_bits)%Z ->
          ~ (forall hd, In hd hole_ds ->
                        exists b, In b subset /\ diameter b <= hd + tol)
    | ok => (Z.of_nat (List.length (planned p)) <= max_bits)%Z
    end.
Proof.
  intros Hcap. unfold _plan_drills_for_holes.
  destruct hole_ds as [| h0 hs] eqn:Eh.
  { eexists. split; [reflexivity |]. cbn. lia. }
  destruct candidate_bits as [| b0 bs] eqn:Eb.
  { eexists. split; [reflexivity |]. cbn [status].
    intros subset Hsub _ Hcover.
    destruct (Hcover h0 (or_introl eq_refl)) as [b [Hb _]]. now apply Hsub in Hb. }
  rewrite <- Eh, <- Eb. clear Eh Eb h0 hs b0 bs.
  set (drills := sort_by by_diameter candidate_bits).
  set (ds := map diameter drills).
  set (assign_idx := map (fun hd => best_drill_index_for ds tol hd None) hole_ds).
  destruct (existsb (fun a => negb (bool_decide (is_Some a))) assign_idx) eqn:Ex.
  - (* some hole has no drill *)
    eexists. split; [reflexivity |]. cbn [status].
    intros subset Hsub _ Hcover.
    apply existsb_exists in Ex as [a [Ha Hnone]].
    apply negb_true_iff, bool_decide_eq_false in Hnone.
    destruct a as [i |]; [elim Hnone; eauto |].
    apply in_map_iff in Ha as [hd [Ehd Hhd]].
    destruct (Hcover hd Hhd) as [b [Hb Hle]].
    exact (no_drill_no_subset candidate_bits tol hd Ehd b (Hsub b Hb) Hle).
  - (* every hole has a drill: reduce to the cap *)
    pose proof (first_assignment_inv ds tol hole_ds Ex) as Hinv.
    fold assign_idx in Hinv.
    destruct (reduce_loop_within_cap (S (List.length (sorted_set assign_idx)))
                ds tol hole_ds max_bits (sorted_set assign_idx) assign_idx
                (sorted_diameters candidate_bits) Hcap Hinv ltac:(lia))
      as [used' [assign' [Hr [Hlen _]]]].
    rewrite Hr. eexists. split; [reflexivity |]. cbn [status planned].
    rewrite sort_by_length.
    pose proof (omap_length_le (fun i => drills !! i) used'). lia.
Qed.

(** *** The assignment rule *)

Lemma fits_iff (tol hd d : Q) : fits tol hd d = true <-> d <= hd + tol + eps.
Proof. unfold fits. apply Qle_bool_iff. Qed.

(** The unrestricted search returns the place of a largest drill of
    diameter at most hole + tol + 1e-9, and nothing only when there is no
    such drill. *)
Lemma best_unrestricted_spec (bits : list bit) (tol hd : Q) :
  match best_drill_index_for (map diameter (sort_by by_diameter bits)) tol hd None with
  | Some i =>
      exists b,
        sort_by by_diameter bits !! i = Some b /\ In b bits /\
        diameter b <= hd + tol + eps /\
        forall b', In b' bits -> diameter b' <= hd + tol + eps ->
                   diameter b' <= diameter b
  | None => forall b, In b bits -> ~ diameter b <= hd + tol + eps
  end.
Proof.
  pose proof (sorted_diameters bits) as Hs.
  set (drills := sort_by by_diameter bits) in *.
  assert (Hds : forall b', In b' bits ->
            exists k, map diameter drills !! k = Some (diameter b')).
  { intros b' Hb'. apply list_elem_of_lookup, list_elem_of_In, in_map.
    now apply sort_by_In. }
  destruct (best_drill_index_for (map diameter drills) tol hd None) as [i |] eqn:E;
    unfold best_drill_index_for in E.
  - pose proof E as E'.
    apply best_loop_sound in E' as [E' | [k [d [Ei [Hk [Hf _]]]]]]; [discriminate |].
    cbn in Ei. subst k.
    change (map diameter drills) with (diameter <$> drills) in Hk.
    rewrite list_lookup_fmap in Hk.
    destruct (drills !! i) as [b |] eqn:Eb; [| discriminate].
    cbn in Hk. injection Hk as <-.
    exists b. split; [reflexivity |]. split.
    { apply (sort_by_In by_diameter). apply list_elem_of_In, list_elem_of_lookup. eauto. }
    split; [now apply fits_iff |].
    intros b' Hb' Hle. destruct (Hds b' Hb') as [k Hk].
    apply fits_iff in Hle.
    pose proof (best_loop_last tol hd None _ 0 None i k _ Hs E Hk Hle I) as Hki.
    apply (ascending_lookup _ k i _ _ Hs Hki Hk).
    change (map diameter drills) with (diameter <$> drills).
    now rewrite list_lookup_fmap, Eb.
  - intros b Hb Hle. destruct (Hds b Hb) as [k Hk]. apply fits_iff in Hle.
    destruct (best_loop_complete tol hd None _ 0 None k _ Hs Hk Hle I) as [j Hj].
    congruence.
Qed.

Lemma assign_loop_error (ds : list Q) (tol : Q) (holes : list (Q * Q * Q))
    (assigned : list (list (Q * Q))) (used : gset nat) (e : assign_error) :
  assign_loop ds tol holes assigned used = inl e ->
  exists x y hd, In (x, y, hd) holes /\ pick_loop tol hd 0 ds None = None.
Proof.
  revert assigned used. induction holes as [| [[x y] hd] rest IH];
    intros assigned used; cbn [assign_loop]; [discriminate |].
  destruct (pick_loop tol hd 0 ds None) as [i |] eqn:E.
  - intros H. apply IH in H as [x' [y' [hd' [Hin Hp]]]].
    exists x', y', hd'. split; [now right | exact Hp].
  - intros _. exists x, y, hd. split; [now left | exact E].
Qed.

(** Later rounds only add: places stay picked, points stay listed. *)
Lemma assign_loop_grows (ds : list Q) (tol : Q) (holes : list (Q * Q * Q))
    (assigned assigned' : list (list (Q * Q))) (used used' : gset nat) :
  assign_loop ds tol holes assigned used = inr (assigned', used') ->
  (forall i, i ∈ used -> i ∈ used') /\
  (forall i pts p, assigned !! i = Some pts -> In p pts ->
                   exists pts', assigned' !! i = Some pts' /\ In p pts').
Proof.
  revert assigned used. induction holes as [| [[x y] hd] rest IH];
    intros assigned used; cbn [assign_loop].
  - intros H. inversion H; subst. split; [auto | eauto].
  - destruct (pick_loop tol hd 0 ds None) as [j |]; [| discriminate].
    intros H. destruct (IH _ _ H) as [Hu Ha]. split.
    + intros i Hi. apply Hu. apply elem_of_union. now right.
    + intros i pts p Hi Hp.
      destruct (decide (j = i)) as [-> | Hne].
      * apply (Ha i (pts ++ [(x, y)]) p).
        -- rewrite list_lookup_alter. destruct (decide (i = i)); [| congruence].
           now rewrite Hi.
        -- apply in_or_app. now left.
      * apply (Ha i pts p); [| exact Hp]. now rewrite list_lookup_alter_ne.
Qed.

Lemma assign_loop_done (ds : list Q) (tol : Q) (holes : list (Q * Q * Q))
    (assigned assigned' : list (list (Q * Q))) (used used' : gset nat) :
  List.length assigned = List.length ds ->
  assign_loop ds tol holes assigned used = inr (assigned', used') ->
  forall x y hd, In (x, y, hd) holes ->
    exists i pts, pick_loop tol hd 0 ds None = Some i /\ i ∈ used' /\
                  assigned' !! i = Some pts /\ In (x, y) pts.
Proof.
  revert assigned used. induction holes as [| [[x0 y0] hd0] rest IH];
    intros assigned used Hlen; cbn [assign_loop]; [intros _ x y hd [] |].
  destruct (pick_loop tol hd0 0 ds None) as [j |] eqn:E; [| discriminate].
  intros H x y hd [Heq | Hin].
  - injection Heq as -> -> ->.
    destruct (assign_loop_grows _ _ _ _ _ _ _ H) as [Hu Ha].
    assert (Hj : (j < List.length assigned)%nat).
    { rewrite Hlen. rewrite pick_loop_best_loop in E.
      apply best_loop_sound in E as [E | [k [d [-> [Hk _]]]]]; [discriminate |].
      cbn. now apply lookup_lt_Some in Hk. }
    apply lookup_lt_is_Some in Hj as [pts Hpts].
    destruct (Ha j (pts ++ [(x, y)]) (x, y)) as [pts' [Hp' Hin']].
    + rewrite list_lookup_alter. destruct (decide (j = j)); [| congruence].
      now rewrite Hpts.
    + apply in_or_app. right. now left.
    + exists j, pts'. repeat split; auto. apply Hu.
      apply elem_of_union. left. now apply elem_of_singleton.
  - eapply IH; [| exact H | exact Hin]. now rewrite length_alter.
Qed.

Lemma filter_positive (bits : list bit) :
  (forall b, In b bits -> 0 < diameter b) ->
  List.filter (fun b => negb (Qle_bool (diameter b) 0)) bits = bits.
Proof.
  induction bits as [| b r IH]; intros H; cbn [List.filter]; [reflexivity |].
  assert (E : Qle_bool (diameter b) 0 = false).
  { apply not_true_is_false. intros Hle. apply Qle_bool_iff in Hle.
    specialize (H b (or_introl eq_refl)). apply Qlt_not_le in H. contradiction. }
  rewrite E. cbn [negb]. f_equal. apply IH. intros b' Hb'. apply H. now right.
Qed.

Lemma assign_on_rule (holes : list (Q * Q * Q)) (bits : list bit) (tol : Q) :
  match assign_on (sort_by by_diameter bits) holes tol with
  | inl _ =>
      exists x y hd,
        In (x, y, hd) holes /\
        forall b, In b bits -> ~ diameter b <= hd + tol + eps
  | inr plan =>
      forall x y hd, In (x, y, hd) holes ->
        exists b pts,
          In (b, pts) plan /\ In (x, y) pts /\ In b bits /\
          diameter b <= hd + tol + eps /\
          forall b', In b' bits -> diameter b' <= hd + tol + eps ->
                     diameter b' <= diameter b
  end.
Proof.
  unfold assign_on. set (drills := sort_by by_diameter bits).
  destruct (assign_loop (map diameter drills) tol holes (map (fun _ => []) drills) ∅)
    as [e | [assigned used]] eqn:E.
  - apply assign_loop_error in E as [x [y [hd [Hin Hp]]]].
    exists x, y, hd. split; [exact Hin |].
    rewrite pick_loop_best_loop in Hp.
    pose proof (best_unrestricted_spec bits tol hd) as Hspec.
    unfold best_drill_index_for in Hspec. fold drills in Hspec.
    now rewrite Hp in Hspec.
  - intros x y hd Hin.
    assert (Hlen : List.length (map (fun _ : bit => @nil (Q * Q)) drills)
                   = List.length (map diameter drills))
      by (rewrite !length_map; reflexivity).
    destruct (assign_loop_done _ _ _ _ _ _ _ Hlen E x y hd Hin)
      as [i [pts [Hp [Hu [Ha Hxy]]]]].
    rewrite pick_loop_best_loop in Hp.
    pose proof (best_unrestricted_spec bits tol hd) as Hspec.
    unfold best_drill_index_for in Hspec. fold drills in Hspec. rewrite Hp in Hspec.
    destruct Hspec as [b [Hb [Hbits [Hfit Hmax]]]].
    exists b, pts. repeat split; auto.
    apply list_elem_of_In, list_elem_of_omap. exists i. split.
    + apply list_elem_of_In, sort_by_In, filter_In. split.
      * apply in_seq. apply lookup_lt_Some in Hb. lia.
      * now apply bool_decide_eq_true.
    + rewrite Hb. cbn. now rewrite Ha.
Qed.

(** The comparison as written, [d <= limit + 1e-9], read over exact
    rationals: the drilling operation gives a hole the largest candidate
    drill whose diameter is at most hole + tol + 1e-9, and reports an error
    when there is no candidate at all or some hole has none within that
    bound; the planner's unrestricted search does the same for one hole.
    The bound is not the documented one (hole + tol), and a float sum can
    differ from it in the last place. *)
Lemma assignment_rule_with_slack (holes : list (Q * Q * Q)) (drill_bits : list bit)
    (tol hole_d : Q) :
  (forall b, In b drill_bits -> 0 < diameter b) ->
  match _assign_holes_to_drills holes drill_bits tol with
  | inl _ =>
      drill_bits = [] \/
      exists x y hd,
        In (x, y, hd) holes /\
        forall b, In b drill_bits -> ~ diameter b <= hd + tol + eps
  | inr plan =>
      drill_bits <> [] /\
      forall x y hd, In (x, y, hd) holes ->
        exists b pts,
          In (b, pts) plan /\ In (x, y) pts /\ In b drill_bits /\
          diameter b <= hd + tol + eps /\
          forall b', In b' drill_bits -> diameter b' <= hd + tol + eps ->
                     diameter b' <= diameter b
  end /\
  match best_drill_index_for (map diameter (sort_by by_diameter drill_bits))
                             tol hole_d None with
  | Some i =>
      exists b,
        sort_by by_diameter drill_bits !! i = Some b /\ In b drill_bits /\
        diameter b <= hole_d + tol + eps /\
        forall b', In b' drill_bits -> diameter b' <= hole_d + tol + eps ->
                   diameter b' <= diameter b
  | None => forall b, In b drill_bits -> ~ diameter b <= hole_d + tol + eps
  end.
Proof.
  intros Hpos. split; [| apply best_unrestricted_spec].
  unfold _assign_holes_to_drills. rewrite (filter_positive drill_bits Hpos).
  pose proof (assign_on_rule holes drill_bits tol) as Hrule.
  pose proof (sort_by_length by_diameter drill_bits) as Hlen.
  destruct (sort_by by_diameter drill_bits) as [| b0 r] eqn:E.
  - left. destruct drill_bits; [reflexivity | discriminate Hlen].
  - destruct (assign_on (b0 :: r) holes tol) as [e | plan].
    + right. exact Hrule.
    + split; [| exact Hrule]. intros ->. discriminate Hlen.
Qed.

Definition b1_0000000005 : bit :=
  {| name := "d1"; diameter := 10000000005 # 10000000000 |}.

Lemma assignment_rule_with_slack_witness :
  match _assign_holes_to_drills [(0, 0, 1)] [b1_0000000005; b08] 0 with
  | inl _ =>
      [b1_0000000005; b08] = [] \/
      exists x y hd,
        In (x, y, hd) [(0, 0, 1)] /\
        forall b, In b [b1_0000000005; b08] -> ~ diameter b <= hd + 0 + eps
  | inr plan =>
      [b1_0000000005; b08] <> [] /\
      forall x y hd, In (x, y, hd) [(0, 0, 1)] ->
        exists b pts,
          In (b, pts) plan /\ In (x, y) pts /\ In b [b1_0000000005; b08] /\
          diameter b <= hd + 0 + eps /\
          forall b', In b' [b1_0000000005; b08] -> diameter b' <= hd + 0 + eps ->
                     diameter b' <= diameter b
  end /\
  match best_drill_index_for
          (map diameter (sort_by by_diameter [b1_0000000005; b08])) 0 1 None with
  | Some i =>
      exists b,
        sort_by by_diameter [b1_0000000005; b08] !! i = Some b /\
        In b [b1_0000000005; b08] /\
        diameter b <= 1 + 0 + eps /\
        forall b', In b' [b1_0000000005; b08] -> diameter b' <= 1 + 0 + eps ->
                   diameter b' <= diameter b
  | None => forall b, In b [b1_0000000005; b08] -> ~ diameter b <= 1 + 0 + eps
  end.
Proof.
  apply (assignment_rule_with_slack [(0, 0, 1)] [b1_0000000005; b08] 0 1).
  intros b [<- | [<- | []]]; reflexivity.
Defined.

(** C1: the documented rule, each hole goes to the largest drill of
    diameter at most hole + tol, is broken by the code.  For one hole of
    1 mm, tolerance 0 and candidate drills of 1.0000000005 mm and 0.8 mm,
    the drilling operation assigns the hole to the 1.0000000005 mm drill
    and the planner plans that drill alone, with status ok; its diameter
    is above hole + tol, and the largest candidate within hole + tol is
    the 0.8 mm drill.  With the 1.0000000005 mm drill as the only
    candidate, the hole has no drill within hole + tol, and still neither
    function reports an error. *)
Theorem drill_assignment_exceeds_limit :
  let drill_bits := [b1_0000000005; b08] in
  _assign_holes_to_drills [(0, 0, 1)] drill_bits 0
    = inr [(b1_0000000005, [(0, 0)])] /\
  option_map status (_plan_drills_for_holes [1] drill_bits 0 2) = Some ok /\
  option_map planned (_plan_drills_for_holes [1] drill_bits 0 2)
    = Some [b1_0000000005] /\
  ~ diameter b1_0000000005 <= 1 + 0 /\
  In b08 drill_bits /\ diameter b08 <= 1 + 0 /\
  (forall b, In b drill_bits -> diameter b <= 1 + 0 -> diameter b <= diameter b08) /\
  _assign_holes_to_drills [(0, 0, 1)] [b1_0000000005] 0
    = inr [(b1_0000000005, [(0, 0)])] /\
  option_map status (_plan_drills_for_holes [1] [b1_0000000005] 0 2) = Some ok.
Proof.
  cbv zeta.
  split; [vm_compute; reflexivity |].
  split; [vm_compute; reflexivity |].
  split; [vm_compute; reflexivity |].
  split; [vm_compute; intros H; now apply H |].
  split; [right; now left |].
  split; [vm_compute; discriminate |].
  split; [| split; vm_compute; reflexivity].
  intros b [<- | [<- | []]] H.
  - exfalso. revert H. vm_compute. intros H. now apply H.
  - apply Qle_refl.
Qed.

Lemma plan_impossibility_complete_witness :
  exists p,
    _plan_drills_for_holes [6 # 10; 6 # 10; 8 # 10; 9 # 10; 1]
      [b05; b06; b08; b09; b10] (5 # 100) 2 = Some p /\
    match status p with
    | error =>
        forall subset : list bit,
          incl subset [b05; b06; b08; b09; b10] ->
          (Z.of_nat (List.length subset) <= 2)%Z ->
          ~ (forall hd, In hd [6 # 10; 6 # 10; 8 # 10; 9 # 10; 1] ->
                        exists b, In b subset /\ diameter b <= hd + (5 # 100))
    | ok => (Z.of_nat (List.length (planned p)) <= 2)%Z
    end.
Proof.
  apply (plan_impossibility_complete [6 # 10; 6 # 10; 8 # 10; 9 # 10; 1]
           [b05; b06; b08; b09; b10] (5 # 100) 2).
  lia.
Defined.

End Drilling.

(* ===================================================================== *)
(** ** gerber_parser.py: operation codes and polarity composition *)
(* ===================================================================== *)

Module Gerber.

Import FixedPoint.

Definition pt : Type := Q * Q.

(** Geometry is kept as the planar-geometry calls that built it
    ([Point(..).buffer], [Polygon], [LineString(..).buffer], [rotate],
    [unary_union], [difference]). *)
#[warnings="-register-all"]
Inductive geom :=
| PointBuffer (c : pt) (r : Q)
| Polygon (pts : list pt)
| LineBuffer (pts : list pt) (r : Q)
| Rotate (g : geom) (angle : Q) (origin : pt)
| UnaryUnion (gs : list geom)
| Difference (a b : geom).

(** An aperture definition: [(shape, a, b)] or [("MACRO", name, params)]. *)
Inductive ap_def :=
| ApStd (shape : ascii) (a b : Q)
| ApMacro (name : string) (params : list Q).

(** A macro definition; the parser knows one type. *)
Inductive macro_def := center_rect_21.

Inductive opcode := D01 | D02 | D03 | NoOp.

(** A line, by the first test of the loop that it passes.  The tokens
    are the groups of the matching pattern. *)
Inductive gline :=
| Blank                                   (* empty after strip *)
| Comment                                 (* G04 ... or ; ... *)
| Units (inch : bool)                     (* MOIN / MOMM *)
| FS (zm : zero_mode) (incremental : bool) (x_int x_dec y_int y_dec : nat)
| LPD
| LPC
| G36
| G37
| AddStd (ap_id : Z) (shape : ascii) (a : token) (b : option token)
| AddMacro (ap_id : Z) (name : string) (p1 : token) (p2 p3 : option token)
| Select (d : Z)                          (* D<n>* alone *)
| Coord (x y : token) (o : opcode)        (* X... Y... and how the line ends *)
| Other.                                  (* no X or no Y *)

Inductive warning :=
| WRegionPolygon (line_no : nat)
| WInvalidAdd (line_no : nat)
| WInvalidMacroAdd (line_no : nat)
| WUndefinedMacro (line_no : nat) (name : string) (ap_id : Z)
| WInvalidCoord (line_no : nat)
| WFlashUndefined (line_no : nat) (cur : Z)
| WDrawUndefined (line_no : nat) (cur : Z)
| WNoUnits
| WNoFS
| WNoApertures
| WLargeExtents
| WSmallExtents.

(** [GerberParseError(msg)] *)
Inductive GerberParseError := ParseError (w : warning).

(** The variables of [parse_gerber_full]. *)
Record gstate := {
  aps : gmap Z ap_def;
  flashes : list (Z * Q * Q);
  tracks : list (Z * pt * pt);
  dark_geoms : list geom;
  clear_geoms : list geom;
  cur : option Z;
  prev : option pt;
  units_inch : bool;
  unit_scale : Q;
  saw_units : bool;
  fs_zero_mode : zero_mode;
  fs_incremental : bool;
  fs_x : nat * nat;
  fs_y : nat * nat;
  saw_fs : bool;
  polarity_dark : bool;
  in_region : bool;
  region_contours : list (list pt);
  region_current : option (list pt);
  line_no : nat;
  warnings : list warning
}.

Definition init_state : gstate :=
  {| aps := ∅; flashes := []; tracks := []; dark_geoms := []; clear_geoms := [];
     cur := None; prev := None; units_inch := false; unit_scale := 1;
     saw_units := false; fs_zero_mode := L; fs_incremental := false;
     fs_x := (3, 6)%nat; fs_y := (3, 6)%nat; saw_fs := false;
     polarity_dark := true; in_region := false; region_contours := [];
     region_current := None; line_no := 0; warnings := [] |}.

(** Field updates. *)
Definition set_prev (st : gstate) (p : option pt) : gstate :=
  {| aps := aps st; flashes := flashes st; tracks := tracks st;
     dark_geoms := dark_geoms st; clear_geoms := clear_geoms st; cur := cur st;
     prev := p; units_inch := units_inch st; unit_scale := unit_scale st;
     saw_units := saw_units st; fs_zero_mode := fs_zero_mode st;
     fs_incremental := fs_incremental st; fs_x := fs_x st; fs_y := fs_y st;
     saw_fs := saw_fs st; polarity_dark := polarity_dark st;
     in_region := in_region st; region_contours := region_contours st;
     region_current := region_current st; line_no := line_no st;
     warnings := warnings st |}.

Definition set_buckets (st : gstate) (dark clear : list geom) : gstate :=
  {| aps := aps st; flashes := flashes st; tracks := tracks st;
     dark_geoms := dark; clear_geoms := clear; cur := cur st;
     prev := prev st; units_inch := units_inch st; unit_scale := unit_scale st;
     saw_units := saw_units st; fs_zero_mode := fs_zero_mode st;
     fs_incremental := fs_incremental st; fs_x := fs_x st; fs_y := fs_y st;
     saw_fs := saw_fs st; polarity_dark := polarity_dark st;
     in_region := in_region st; region_contours := region_contours st;
     region_current := region_current st; line_no := line_no st;
     warnings := warnings st |}.

Definition set_region (st : gstate) (inr_ : bool) (contours : list (list pt))
    (current : option (list pt)) : gstate :=
  {| aps := aps st; flashes := flashes st; tracks := tracks st;
     dark_geoms := dark_geoms st; clear_geoms := clear_geoms st; cur := cur st;
     prev := prev st; units_inch := units_inch st; unit_scale := unit_scale st;
     saw_units := saw_units st; fs_zero_mode := fs_zero_mode st;
     fs_incremental := fs_incremental st; fs_x := fs_x st; fs_y := fs_y st;
     saw_fs := saw_fs st; polarity_dark := polarity_dark st;
     in_region := inr_; region_contours := contours;
     region_current := current; line_no := line_no st;
     warnings := warnings st |}.

Definition set_lists (st : gstate) (fl : list (Z * Q * Q)) (tr : list (Z * pt * pt))
    : gstate :=
  {| aps := aps st; flashes := fl; tracks := tr;
     dark_geoms := dark_geoms st; clear_geoms := clear_geoms st; cur := cur st;
     prev := prev st; units_inch := units_inch st; unit_scale := unit_scale st;
     saw_units := saw_units st; fs_zero_mode := fs_zero_mode st;
     fs_incremental := fs_incremental st; fs_x := fs_x st; fs_y := fs_y st;
     saw_fs := saw_fs st; polarity_dark := polarity_dark st;
     in_region := in_region st; region_contours := region_contours st;
     region_current := region_current st; line_no := line_no st;
     warnings := warnings st |}.

Definition set_header (st : gstate) (a : gmap Z ap_def) (c : option Z)
    (inch : bool) (scale : Q) (su : bool) (zm : zero_mode) (inc : bool)
    (fx fy : nat * nat) (sf : bool) (dark : bool) : gstate :=
  {| aps := a; flashes := flashes st; tracks := tracks st;
     dark_geoms := dark_geoms st; clear_geoms := clear_geoms st; cur := c;
     prev := prev st; units_inch := inch; unit_scale := scale;
     saw_units := su; fs_zero_mode := zm;
     fs_incremental := inc; fs_x := fx; fs_y := fy;
     saw_fs := sf; polarity_dark := dark;
     in_region := in_region st; region_contours := region_contours st;
     region_current := region_current st; line_no := line_no st;
     warnings := warnings st |}.

Definition set_aps (st : gstate) (a : gmap Z ap_def) : gstate :=
  set_header st a (cur st) (units_inch st) (unit_scale st) (saw_units st)
    (fs_zero_mode st) (fs_incremental st) (fs_x st) (fs_y st) (saw_fs st)
    (polarity_dark st).

Definition set_cur (st : gstate) (c : option Z) : gstate :=
  set_header st (aps st) c (units_inch st) (unit_scale st) (saw_units st)
    (fs_zero_mode st) (fs_incremental st) (fs_x st) (fs_y st) (saw_fs st)
    (polarity_dark st).

Definition set_units (st : gstate) (inch : bool) : gstate :=
  set_header st (aps st) (cur st) inch (if inch then 254 # 10 else 1) true
    (fs_zero_mode st) (fs_incremental st) (fs_x st) (fs_y st) (saw_fs st)
    (polarity_dark st).

Definition set_fs (st : gstate) (zm : zero_mode) (inc : bool) (fx fy : nat * nat)
    : gstate :=
  set_header st (aps st) (cur st) (units_inch st) (unit_scale st) (saw_units st)
    zm inc fx fy true (polarity_dark st).

Definition set_polarity (st : gstate) (dark : bool) : gstate :=
  set_header st (aps st) (cur st) (units_inch st) (unit_scale st) (saw_units st)
    (fs_zero_mode st) (fs_incremental st) (fs_x st) (fs_y st) (saw_fs st) dark.

Definition next_line (st : gstate) : gstate :=
  {| aps := aps st; flashes := flashes st; tracks := tracks st;
     dark_geoms := dark_geoms st; clear_geoms := clear_geoms st; cur := cur st;
     prev := prev st; units_inch := units_inch st; unit_scale := unit_scale st;
     saw_units := saw_units st; fs_zero_mode := fs_zero_mode st;
     fs_incremental := fs_incremental st; fs_x := fs_x st; fs_y := fs_y st;
     saw_fs := saw_fs st; polarity_dark := polarity_dark st;
     in_region := in_region st; region_contours := region_contours st;
     region_current := region_current st; line_no := S (line_no st);
     warnings := warnings st |}.

Definition log (st : gstate) (w : warning) : gstate :=
  {| aps := aps st; flashes := flashes st; tracks := tracks st;
     dark_geoms := dark_geoms st; clear_geoms := clear_geoms st; cur := cur st;
     prev := prev st; units_inch := units_inch st; unit_scale := unit_scale st;
     saw_units := saw_units st; fs_zero_mode := fs_zero_mode st;
     fs_incremental := fs_incremental st; fs_x := fs_x st; fs_y := fs_y st;
     saw_fs := saw_fs st; polarity_dark := polarity_dark st;
     in_region := in_region st; region_contours := region_contours st;
     region_current := region_current st; line_no := line_no st;
     warnings := warnings st ++ [w] |}.

(** [_warn(lg, msg, strict=strict)]: log, and raise when strict. *)
Definition _warn (st : gstate) (w : warning) (strict : bool)
    : GerberParseError + gstate :=
  if strict then inl (ParseError w) else inr (log st w).

(** [(dark_geoms if polarity == "D" else clear_geoms).append(g)] *)
Definition push (st : gstate) (g : geom) : gstate :=
  if polarity_dark st
  then set_buckets st (dark_geoms st ++ [g]) (clear_geoms st)
  else set_buckets st (dark_geoms st) (clear_geoms st ++ [g]).

Definition pt_eqb (a b : pt) : bool :=
  Qeq_bool (fst a) (fst b) && Qeq_bool (snd a) (snd b).

(** [float(p) * unit_scale] for each group; [None] when one fails. *)
Definition scaled (scale : Q) (t : token) : option Q :=
  option_map (fun v => v * scale) (parse_float t).

Section Kernel.

(** What the geometry library decides about a geometry: the predicates
    [is_empty] and [is_valid], [area], [bounds], whether [difference]
    raises, and, for the shapes it builds from points, the points they
    cover. *)
Variable is_empty : geom -> bool.
Variable is_valid : geom -> bool.
Variable area : geom -> Q.
Variable bounds : geom -> Q * Q * Q * Q.
Variable difference_raises : geom -> geom -> bool.
Variable shape_covers : geom -> pt -> Prop.

(** The points of a geometry: a union covers what one of its members
    covers, a difference what the first covers and the second does not. *)
Fixpoint covers (g : geom) (p : pt) : Prop :=
  match g with
  | UnaryUnion gs =>
      (fix any (l : list geom) : Prop :=
         match l with
         | [] => False
         | x :: r => covers x p \/ any r
         end) gs
  | Difference a b => covers a p /\ ~ covers b p
  | _ => shape_covers g p
  end.

Definition pad_from_ap (ap : option ap_def) (x y : Q)
    (macros : gmap string macro_def) : option geom :=
  match ap with
  | None => None
  | Some (ApStd shape a b) =>
      if Ascii.eqb shape "C"%char then Some (PointBuffer (x, y) (a / 2))
      else if Ascii.eqb shape "R"%char then
        Some (Polygon [(x - a / 2, y - b / 2); (x + a / 2, y - b / 2);
                       (x + a / 2, y + b / 2); (x - a / 2, y + b / 2)])
      else if Ascii.eqb shape "O"%char then
        let r := Qmin a b / 2 in
        if Qlt_le_dec b a
        then Some (LineBuffer [(x - (a / 2 - r), y); (x + (a / 2 - r), y)] r)
        else Some (LineBuffer [(x, y - (b / 2 - r)); (x, y + (b / 2 - r))] r)
      else None
  | Some (ApMacro name params) =>
      match macros !! name with
      | Some center_rect_21 =>
          let w := List.nth 0 params 0 in
          let h := List.nth 1 params w in
          let rot := List.nth 2 params 0 in
          let poly := Polygon [(x - w / 2, y - h / 2); (x + w / 2, y - h / 2);
                               (x + w / 2, y + h / 2); (x - w / 2, y + h / 2)] in
          if Qlt_le_dec (1 # 1000000000) (Qabs rot)
          then Some (Rotate poly rot (x, y))
          else Some poly
      | None => None
      end
  end.

(** [if region_current and len(region_current) >= 3:
    region_contours.append(region_current)] *)
Definition close_contour (contours : list (list pt)) (current : option (list pt))
    : list (list pt) :=
  match current with
  | Some c => if (3 <=? List.length c)%nat then contours ++ [c] else contours
  | None => contours
  end.

(** The polygons of a region: contours of three points or more, closed
    when open, kept when not empty, valid and of positive area.  A ring
    of four points or more always builds, so the warning of the [except]
    branch is never given. *)
Definition region_polys (contours : list (list pt)) : list geom :=
  omap (fun pts =>
          if (List.length pts <? 3)%nat then None
          else
            let pts := if pt_eqb (List.hd (0, 0) pts) (List.last pts (0, 0))
                       then pts else pts ++ [List.hd (0, 0) pts] in
            let poly := Polygon pts in
            if negb (is_empty poly) && is_valid poly
               && (if Qlt_le_dec 0 (area poly) then true else false)
            then Some poly else None) contours.

(** The coordinates of a line, scaled, and taken from the previous
    point in incremental mode; [None] when a token does not parse. *)
Definition coords (st : gstate) (xt yt : token) : option pt :=
  match _parse_rs274x_coord (Some xt) (fst (fs_x st)) (snd (fs_x st)) (fs_zero_mode st),
        _parse_rs274x_coord (Some yt) (fst (fs_y st)) (snd (fs_y st)) (fs_zero_mode st)
  with
  | Some x, Some y =>
      let x := x * unit_scale st in
      let y := y * unit_scale st in
      match fs_incremental st, prev st with
      | true, Some p => Some (fst p + x, snd p + y)
      | _, _ => Some (x, y)
      end
  | _, _ => None
  end.

(** The [D03] branch outside a region, with a current aperture. *)
Definition flash (st : gstate) (strict : bool) (c : Z) (x y : Q)
    (macros : gmap string macro_def) : GerberParseError + gstate :=
  match (match aps st !! c with
         | None => _warn st (WFlashUndefined (line_no st) c) strict
         | Some _ => inr st
         end) with
  | inl e => inl e
  | inr st =>
      let st := set_lists st (flashes st ++ [(c, x, y)]) (tracks st) in
      let ap := aps st !! c in
      let g := match ap with
               | Some _ => pad_from_ap ap x y macros
               | None => None
               end in
      let st := match g with
                | Some g => if negb (is_empty g) then push st g else st
                | None => st
                end in
      inr (set_prev st (Some (x, y)))
  end.

(** The [D01] branch outside a region, with a previous point and a
    current aperture. *)
Definition draw (st : gstate) (strict : bool) (c : Z) (p : pt) (x y : Q)
    : GerberParseError + gstate :=
  match (match aps st !! c with
         | None => _warn st (WDrawUndefined (line_no st) c) strict
         | Some _ => inr st
         end) with
  | inl e => inl e
  | inr st =>
      let st := set_lists st (flashes st) (tracks st ++ [(c, p, (x, y))]) in
      let st :=
        match aps st !! c with
        | Some (ApStd shape a b) =>
            let width := if Ascii.eqb shape "C"%char then a else Qmin a b in
            if Qlt_le_dec 0 width then
              let gg := LineBuffer [p; (x, y)] (width / 2) in
              if negb (is_empty gg) then push st gg else st
            else st
        | _ => st
        end in
      inr (set_prev st (Some (x, y)))
  end.

(** One round of [for raw in lines]. *)
Definition step (strict : bool) (macros : gmap string macro_def) (st : gstate)
    (l : gline) : GerberParseError + gstate :=
  let st := next_line st in
  match l with
  | Blank | Comment | Other => inr st
  | Units inch => inr (set_units st inch)
  | FS zm inc xi xd yi yd => inr (set_fs st zm inc (xi, xd) (yi, yd))
  | LPD => inr (set_polarity st true)
  | LPC => inr (set_polarity st false)
  | G36 => inr (set_prev (set_region st true [] None) None)
  | G37 =>
      let contours := close_contour (region_contours st) (region_current st) in
      let polys := region_polys contours in
      let st := match polys with
                | [] => st
                | _ => push st (UnaryUnion polys)
                end in
      inr (set_prev (set_region st false [] None) None)
  | AddStd ap_id shape a b =>
      match scaled (unit_scale st) a, scaled (unit_scale st) (default a b) with
      | Some a, Some b => inr (set_aps st (<[ap_id := ApStd shape a b]> (aps st)))
      | _, _ => _warn st (WInvalidAdd (line_no st)) strict
      end
  | AddMacro ap_id name p1 p2 p3 =>
      match scaled (unit_scale st) p1,
            match p2 with Some t => option_map Some (scaled (unit_scale st) t)
                        | None => Some None end,
            match p3 with Some t => option_map Some (parse_float t)
                        | None => Some None end
      with
      | Some p1, Some p2, Some p3 =>
          let params := p1 :: omap id [p2; p3] in
          let st := set_aps st (<[ap_id := ApMacro name params]> (aps st)) in
          match macros !! name with
          | None => _warn st (WUndefinedMacro (line_no st) name ap_id) strict
          | Some _ => inr st
          end
      | _, _, _ => _warn st (WInvalidMacroAdd (line_no st)) strict
      end
  | Select d => inr (set_cur st (Some d))
  | Coord xt yt o =>
      match coords st xt yt with
      | None => _warn st (WInvalidCoord (line_no st)) strict
      | Some (x, y) =>
          let outside :=
            match o, cur st, prev st with
            | D03, Some c, _ => flash st strict c x y macros
            | D01, Some c, Some p => draw st strict c p x y
            | D02, _, _ => inr (set_prev st (Some (x, y)))
            | _, _, _ => inr st
            end in
          if in_region st then
            match o with
            | D02 =>
                let contours := close_contour (region_contours st) (region_current st) in
                inr (set_prev (set_region st true contours (Some [(x, y)]))
                              (Some (x, y)))
            | D01 =>
                let current := default [] (region_current st) ++ [(x, y)] in
                inr (set_prev (set_region st true (region_contours st) (Some current))
                              (Some (x, y)))
            | D03 => inr (set_prev st (Some (x, y)))
            | NoOp => outside
            end
          else outside
      end
  end.

(** The loop over the lines; an error ends it. *)
Fixpoint run (strict : bool) (macros : gmap string macro_def) (st : gstate)
    (lines : list gline) : GerberParseError + gstate :=
  match lines with
  | [] => inr st
  | l :: rest =>
      match step strict macros st l with
      | inl e => inl e
      | inr st => run strict macros st rest
      end
  end.

(** The closing warnings, never strict: units, format, apertures, and
    the extents of all that was drawn. *)
Definition closing_warnings (st : gstate) : gstate :=
  let st := if saw_units st then st else log st WNoUnits in
  let st := if saw_fs st then st else log st WNoFS in
  let st := if decide (aps st = ∅) then log st WNoApertures else st in
  let allg := (match dark_geoms st with [] => [] | d => [UnaryUnion d] end)
              ++ (match clear_geoms st with [] => [] | c => [UnaryUnion c] end) in
  match allg with
  | [] => st
  | _ =>
      let '(minx, miny, maxx, maxy) := bounds (UnaryUnion allg) in
      let w := maxx - minx in
      let h := maxy - miny in
      let st := if Qlt_le_dec 2000 w then log st WLargeExtents
                else if Qlt_le_dec 2000 h then log st WLargeExtents else st in
      if Qlt_le_dec w (1 # 100) then log st WSmallExtents
      else if Qlt_le_dec h (1 # 100) then log st WSmallExtents else st
  end.

(** [parse_gerber_full], from the lines of the file and the macros
    found in them. *)
Definition parse_gerber_full (strict : bool) (macros : gmap string macro_def)
    (lines : list gline) : GerberParseError + gstate :=
  match run strict macros init_state lines with
  | inl e => inl e
  | inr st => inr (closing_warnings st)
  end.

Definition _compose_dark_clear (dark_geoms clear_geoms : list geom) : geom :=
  let dark_u := UnaryUnion dark_geoms in
  match clear_geoms with
  | [] => dark_u
  | _ =>
      let clear_u := UnaryUnion clear_geoms in
      if difference_raises dark_u clear_u then dark_u
      else Difference dark_u clear_u
  end.

(** [load_copper] *)
Definition load_copper (strict : bool) (macros : gmap string macro_def)
    (lines : list gline) : GerberParseError + geom :=
  match parse_gerber_full strict macros lines with
  | inl e => inl e
  | inr gf => inr (_compose_dark_clear (dark_geoms gf) (clear_geoms gf))
  end.

(** *** The buckets only grow *)

Definition grows (st st' : gstate) : Prop :=
  exists dark_new clear_new,
    dark_geoms st' = dark_geoms st ++ dark_new /\
    clear_geoms st' = clear_geoms st ++ clear_new.

Lemma grows_same (st st' : gstate) :
  dark_geoms st' = dark_geoms st -> clear_geoms st' = clear_geoms st -> grows st st'.
Proof. intros Hd Hc. exists [], []. now rewrite !app_nil_r. Qed.

Lemma grows_trans (a b c : gstate) : grows a b -> grows b c -> grows a c.
Proof.
  intros [d1 [c1 [Hd1 Hc1]]] [d2 [c2 [Hd2 Hc2]]].
  exists (d1 ++ d2), (c1 ++ c2). rewrite Hd2, Hc2, Hd1, Hc1.
  now rewrite !app_assoc.
Qed.

Lemma push_grows (st : gstate) (g : geom) : grows st (push st g).
Proof.
  unfold push. destruct (polarity_dark st); cbn.
  - exists [g], []. now rewrite app_nil_r.
  - exists [], [g]. now rewrite app_nil_r.
Qed.

Lemma warn_grows (st st' : gstate) (w : warning) (strict : bool) :
  _warn st w strict = inr st' -> grows st st'.
Proof.
  unfold _warn. destruct strict; [discriminate |].
  intros [= <-]. now apply grows_same.
Qed.

Lemma flash_grows (st st' : gstate) (strict : bool) (c : Z) (x y : Q)
    (macros : gmap string macro_def) :
  flash st strict c x y macros = inr st' -> grows st st'.
Proof.
  unfold flash.
  assert (Hbody : forall st1 (og : option geom),
            grows st1
              (set_prev
                 match og with
                 | Some g =>
                     if negb (is_empty g)
                     then push (set_lists st1 (flashes st1 ++ [(c, x, y)]) (tracks st1)) g
                     else set_lists st1 (flashes st1 ++ [(c, x, y)]) (tracks st1)
                 | None => set_lists st1 (flashes st1 ++ [(c, x, y)]) (tracks st1)
                 end (Some (x, y)))).
  { intros st1 [g |]; [| now apply grows_same].
    destruct (negb (is_empty g)); [| now apply grows_same].
    eapply grows_trans; [| now apply grows_same].
    eapply grows_trans; [| apply push_grows]. now apply grows_same. }
  destruct (aps st !! c) as [ap |] eqn:Eap.
  - intros [= <-]. apply Hbody.
  - destruct (_warn st (WFlashUndefined (line_no st) c) strict) as [e | st1] eqn:Ew;
      [discriminate |].
    intros [= <-]. apply warn_grows in Ew.
    eapply grows_trans; [exact Ew | apply Hbody].
Qed.

Lemma draw_grows (st st' : gstate) (strict : bool) (c : Z) (p : pt) (x y : Q) :
  draw st strict c p x y = inr st' -> grows st st'.
Proof.
  unfold draw.
  assert (Hbody : forall st1, grows st st1 ->
            grows st
              (set_prev
                 (let st2 := set_lists st1 (flashes st1) (tracks st1 ++ [(c, p, (x, y))]) in
                  match aps st2 !! c with
                  | Some (ApStd shape a b) =>
                      let width := if Ascii.eqb shape "C"%char then a else Qmin a b in
                      if Qlt_le_dec 0 width then
                        let gg := LineBuffer [p; (x, y)] (width / 2) in
                        if negb (is_empty gg) then push st2 gg else st2
                      else st2
                  | _ => st2
                  end) (Some (x, y)))).
  { intros st1 H1. eapply grows_trans; [exact H1 |]. cbv zeta.
    destruct (aps _ !! c) as [[shape a b | name params] |];
      try (now apply grows_same).
    destruct (Qlt_le_dec 0 _); [| now apply grows_same].
    destruct (negb (is_empty _)); [| now apply grows_same].
    eapply grows_trans; [| now apply grows_same].
    eapply grows_trans; [| apply push_grows]. now apply grows_same. }
  destruct (aps st !! c) as [ap |] eqn:Eap.
  - intros [= <-]. apply Hbody. now apply grows_same.
  - destruct (_warn st (WDrawUndefined (line_no st) c) strict) as [e | st1] eqn:Ew;
      [discriminate |].
    intros [= <-]. apply Hbody. now apply warn_grows in Ew.
Qed.

Lemma step_grows (strict : bool) (macros : gmap string macro_def)
    (st st' : gstate) (l : gline) :
  step strict macros st l = inr st' -> grows st st'.
Proof.
  assert (Hn : grows st (next_line st)) by (now apply grows_same).
  unfold step. destruct l; cbv zeta.
  1-8, 11, 13: try (intros [= <-]; now apply grows_same).
  - (* G37 *)
    intros [= <-]. destruct (region_polys _) as [| g r]; [now apply grows_same |].
    eapply grows_trans; [| now apply grows_same].
    eapply grows_trans; [exact Hn | apply push_grows].
  - (* AddStd *)
    destruct (scaled _ a) as [a' |]; [destruct (scaled _ _) as [b' |] |].
    + intros [= <-]. now apply grows_same.
    + intros H. eapply grows_trans; [exact Hn | eapply warn_grows; exact H].
    + intros H. eapply grows_trans; [exact Hn | eapply warn_grows; exact H].
  - (* AddMacro *)
    repeat case_match; try (intros [= <-]; now apply grows_same);
      intros Hw; apply warn_grows in Hw;
      (eapply grows_trans; [| exact Hw]); now apply grows_same.
  - (* Coord *)
    destruct (coords (next_line st) x y) as [[cx cy] |];
      [| intros H; eapply grows_trans; [exact Hn | eapply warn_grows; exact H]].
    assert (Hout : forall st2,
              match o, cur (next_line st), prev (next_line st) with
              | D03, Some c, _ => flash (next_line st) strict c cx cy macros
              | D01, Some c, Some p => draw (next_line st) strict c p cx cy
              | D02, _, _ => inr (set_prev (next_line st) (Some (cx, cy)))
              | _, _, _ => inr (next_line st)
              end = inr st2 -> grows st st2).
    { intros st2 H. eapply grows_trans; [exact Hn |].
      destruct o, (cur (next_line st)) as [c |], (prev (next_line st)) as [p |];
        try (injection H as <-; now apply grows_same);
        try (now apply flash_grows in H); try (now apply draw_grows in H). }
    destruct (in_region (next_line st)); [| apply Hout].
    destruct o; intros [= <-]; now apply grows_same.
Qed.

Lemma run_grows (strict : bool) (macros : gmap string macro_def)
    (lines : list gline) (st st' : gstate) :
  run strict macros st lines = inr st' -> grows st st'.
Proof.
  revert st. induction lines as [| l rest IH]; intros st; cbn [run].
  - intros [= <-]. now apply grows_same.
  - destruct (step strict macros st l) as [e | st1] eqn:E; [discriminate |].
    intros H. eapply grows_trans; [eapply step_grows; exact E | now apply IH].
Qed.

Lemma run_app (strict : bool) (macros : gmap string macro_def)
    (pre post : list gline) (st : gstate) :
  run strict macros st (pre ++ post)
  = match run strict macros st pre with
    | inl e => inl e
    | inr st1 => run strict macros st1 post
    end.
Proof.
  revert st. induction pre as [| l pre IH]; intros st; cbn [run app]; [reflexivity |].
  destruct (step strict macros st l); [reflexivity | apply IH].
Qed.

Lemma closing_warnings_buckets (st : gstate) :
  dark_geoms (closing_warnings st) = dark_geoms st /\
  clear_geoms (closing_warnings st) = clear_geoms st.
Proof.
  unfold closing_warnings. cbv zeta.
  destruct (saw_units st), (saw_fs _), (decide (aps _ = ∅));
    (destruct (_ ++ _); [split; reflexivity |]);
    destruct (bounds _) as [[[minx miny] maxx] maxy];
    repeat match goal with
           | |- context [Qlt_le_dec ?a ?b] => destruct (Qlt_le_dec a b)
           end; split; reflexivity.
Qed.

(** *** The points of the composed image *)

Lemma covers_union (gs : list geom) (p : pt) :
  covers (UnaryUnion gs) p <-> exists g, In g gs /\ covers g p.
Proof.
  cbn [covers]. induction gs as [| g r IH].
  - split; [intros [] | intros [g [[] _]]].
  - rewrite IH. split.
    + intros [H | [g' [Hin H]]]; [exists g; split; [now left | exact H] |].
      exists g'. split; [now right | exact H].
    + intros [g' [[<- | Hin] H]]; [now left | right; eauto].
Qed.

Lemma compose_covers (dark clear : list geom) (p : pt) :
  difference_raises (UnaryUnion dark) (UnaryUnion clear) = false ->
  covers (_compose_dark_clear dark clear) p <->
  (exists g, In g dark /\ covers g p) /\ ~ (exists c, In c clear /\ covers c p).
Proof.
  intros Hok. unfold _compose_dark_clear.
  destruct clear as [| c0 cs] eqn:E.
  - rewrite covers_union. split; [| tauto].
    intros H. split; [exact H | intros [c [[] _]]].
  - rewrite <- E in *. rewrite Hok. cbn [covers].
    change (covers (UnaryUnion dark) p /\ ~ covers (UnaryUnion clear) p
            <-> (exists g, In g dark /\ covers g p)
                /\ ~ (exists c, In c clear /\ covers c p)).
    now rewrite !covers_union.
Qed.

(** C3 (as the code has it).  The shapes of a file are kept in two
    buckets that only grow, and the copper image is composed once, after
    the last line: the union of all dark shapes minus the union of all
    clear shapes.  So whatever part [pre] of the file has been read,
    the buckets of the whole file extend those of [pre], and a point is
    in the image exactly when some dark shape of the file covers it and
    no clear shape of the file does: a clear shape cuts the dark
    geometry added after it as it cuts the dark geometry added before. *)
Theorem polarity_composition (strict : bool) (macros : gmap string macro_def)
    (pre post : list gline) (st_pre : gstate) (image : geom) (p : pt) :
  run strict macros init_state pre = inr st_pre ->
  load_copper strict macros (pre ++ post) = inr image ->
  exists dark_new clear_new,
    let dark := dark_geoms st_pre ++ dark_new in
    let clear := clear_geoms st_pre ++ clear_new in
    image = _compose_dark_clear dark clear /\
    (difference_raises (UnaryUnion dark) (UnaryUnion clear) = false ->
     (covers image p <->
      (exists g, In g dark /\ covers g p) /\
      ~ (exists c, In c clear /\ covers c p))).
Proof.
  intros Hpre Hload. unfold load_copper, parse_gerber_full in Hload.
  rewrite run_app, Hpre in Hload.
  destruct (run strict macros st_pre post) as [e | gf] eqn:Epost; [discriminate |].
  injection Hload as <-.
  destruct (run_grows _ _ _ _ _ Epost) as [dn [cn [Hd Hc]]].
  destruct (closing_warnings_buckets gf) as [Hd' Hc'].
  exists dn, cn. cbv zeta. rewrite Hd', Hc', Hd, Hc.
  split; [reflexivity |]. apply compose_covers.
Qed.

(** C9: outside a region and in non-strict mode, a D03 flash whose
    current aperture has no definition gives a warning, is appended to
    the flashes, and adds nothing to the dark or the clear bucket. *)
Theorem flash_undefined_aperture (macros : gmap string macro_def) (st : gstate)
    (xt yt : token) (c : Z) (x y : Q) :
  in_region st = false ->
  cur st = Some c ->
  aps st !! c = None ->
  coords st xt yt = Some (x, y) ->
  exists st',
    step false macros st (Coord xt yt D03) = inr st' /\
    flashes st' = flashes st ++ [(c, x, y)] /\
    dark_geoms st' = dark_geoms st /\
    clear_geoms st' = clear_geoms st /\
    warnings st' = warnings st ++ [WFlashUndefined (S (line_no st)) c].
Proof.
  intros Hreg Hcur Haps Hxy. unfold step. cbv zeta.
  change (coords (next_line st) xt yt) with (coords st xt yt). rewrite Hxy.
  change (in_region (next_line st)) with (in_region st). rewrite Hreg.
  change (cur (next_line st)) with (cur st). rewrite Hcur.
  unfold flash. change (aps (next_line st) !! c) with (aps st !! c). rewrite Haps.
  cbn [_warn]. cbn [aps log set_lists].
  change (aps (next_line st) !! c) with (aps st !! c). rewrite Haps.
  eexists. split; [reflexivity |]. cbn. repeat split; reflexivity.
Qed.

End Kernel.

(** *** A kernel of boxes

    The examples run on the simplest geometry that has unions and
    differences: every shape built from points is taken by its bounding
    box.  That is exact for the rectangle apertures used below. *)

Definition box : Type := Q * Q * Q * Q.

Definition hull (a b : box) : box :=
  let '(ax0, ay0, ax1, ay1) := a in
  let '(bx0, by0, bx1, by1) := b in
  (Qmin ax0 bx0, Qmin ay0 by0, Qmax ax1 bx1, Qmax ay1 by1).

Definition bbox (pts : list pt) : option box :=
  match pts with
  | [] => None
  | (x, y) :: r =>
      Some (fold_left (fun b q => hull b (fst q, snd q, fst q, snd q)) r (x, y, x, y))
  end.

Fixpoint box_of (g : geom) : option box :=
  match g with
  | PointBuffer (x, y) r => Some (x - r, y - r, x + r, y + r)
  | Polygon pts => bbox pts
  | LineBuffer pts r =>
      option_map (fun '(x0, y0, x1, y1) => (x0 - r, y0 - r, x1 + r, y1 + r)) (bbox pts)
  | Rotate g _ _ => box_of g
  | UnaryUnion _ | Difference _ _ => None
  end.

Definition box_covers (g : geom) (p : pt) : Prop :=
  match box_of g with
  | Some (x0, y0, x1, y1) => (x0 <= fst p /\ fst p <= x1) /\ (y0 <= snd p /\ snd p <= y1)
  | None => False
  end.

Definition box_is_empty (g : geom) : bool :=
  match box_of g with
  | Some _ => false
  | None => true
  end.

Definition box_is_valid (g : geom) : bool := true.

Definition box_area (g : geom) : Q :=
  match box_of g with
  | Some (x0, y0, x1, y1) => (x1 - x0) * (y1 - y0)
  | None => 0
  end.

Fixpoint box_bounds (g : geom) : box :=
  match g with
  | UnaryUnion gs =>
      (fix all (l : list geom) : box :=
         match l with
         | [] => (0, 0, 0, 0)
         | [x] => box_bounds x
         | x :: r => hull (box_bounds x) (all r)
         end) gs
  | Difference a _ => box_bounds a
  | _ => default (0, 0, 0, 0) (box_of g)
  end.

Definition box_difference_raises (a b : geom) : bool := false.

Definition box_run := run box_is_empty box_is_valid box_area.
Definition box_load_copper :=
  load_copper box_is_empty box_is_valid box_area box_bounds box_difference_raises.

(** A clear flash first, then a dark flash of the same 2 x 2 rectangle
    at the same place. *)
Definition clear_first : list gline :=
  [ FS L false 2 4 2 4; Units false;
    AddStd 10 "R" (tok "2") (Some (tok "2")); Select 10; LPC;
    Coord (tok "0") (tok "0") D03 ].
Definition dark_after : list gline :=
  [ LPD; Coord (tok "0") (tok "0") D03 ].

Definition state_after (lines : list gline) : gstate :=
  match box_run false ∅ init_state lines with
  | inr st => st
  | inl _ => init_state
  end.

(** The rectangle both flashes stamp: corners (-1,-1) and (1,1). *)
Definition square_2 : geom :=
  Polygon [(-20000 # 20000, -20000 # 20000); (20000 # 20000, -20000 # 20000);
           (20000 # 20000, 20000 # 20000); (-20000 # 20000, 20000 # 20000)].

Definition image_clear_dark : geom :=
  match box_load_copper false ∅ (clear_first ++ dark_after) with
  | inr g => g
  | inl _ => UnaryUnion []
  end.

Example clear_first_buckets :
  dark_geoms (state_after clear_first) = [] /\
  clear_geoms (state_after clear_first) = [square_2].
Proof. split; vm_compute; reflexivity. Qed.

Lemma polarity_composition_witness :
  exists dark_new clear_new,
    let dark := dark_geoms (state_after clear_first) ++ dark_new in
    let clear := clear_geoms (state_after clear_first) ++ clear_new in
    image_clear_dark = _compose_dark_clear box_difference_raises dark clear /\
    (box_difference_raises (UnaryUnion dark) (UnaryUnion clear) = false ->
     (covers box_covers image_clear_dark (0, 0) <->
      (exists g, In g dark /\ covers box_covers g (0, 0)) /\
      ~ (exists c, In c clear /\ covers box_covers c (0, 0)))).
Proof.
  apply (polarity_composition box_is_empty box_is_valid box_area box_bounds
           box_difference_raises box_covers false ∅ clear_first dark_after
           (state_after clear_first) image_clear_dark (0, 0)).
  - vm_compute. reflexivity.
  - vm_compute. reflexivity.
Defined.

(** C3, as stated, fails.  The file flashes a clear 2 x 2 rectangle at
    the origin and then, under dark polarity, the same rectangle again.
    When the clear flash is read no dark geometry exists; the dark
    rectangle is added after it and covers the origin; yet the composed
    image does not cover the origin: the earlier clear shape has cut the
    later dark one. *)
Lemma polarity_order_counterexample :
  dark_geoms (state_after clear_first) = [] /\
  clear_geoms (state_after clear_first) = [square_2] /\
  dark_geoms (state_after (clear_first ++ dark_after)) = [square_2] /\
  clear_geoms (state_after (clear_first ++ dark_after)) = [square_2] /\
  box_load_copper false ∅ (clear_first ++ dark_after)
    = inr (Difference (UnaryUnion [square_2]) (UnaryUnion [square_2])) /\
  covers box_covers square_2 (0, 0) /\
  ~ covers box_covers (Difference (UnaryUnion [square_2]) (UnaryUnion [square_2])) (0, 0).
Proof.
  assert (Hin : covers box_covers square_2 (0, 0)).
  { cbn. unfold box_covers. cbn. repeat split; discriminate. }
  do 5 (split; [vm_compute; reflexivity |]).
  split; [exact Hin |].
  intros [_ Hnot]. apply Hnot. left. exact Hin.
Qed.

(** An aperture table with D10 only, and D11 selected. *)
Definition undefined_selected : gstate :=
  state_after [AddStd 10 "R" (tok "2") None; Select 11].

Lemma flash_undefined_aperture_witness :
  exists st',
    step box_is_empty box_is_valid box_area false ∅ undefined_selected
         (Coord (tok "1000000") (tok "2000000") D03) = inr st' /\
    flashes st' = flashes undefined_selected ++ [(11%Z, 1000000 # 1000000, 2000000 # 1000000)] /\
    dark_geoms st' = dark_geoms undefined_selected /\
    clear_geoms st' = clear_geoms undefined_selected /\
    warnings st' = warnings undefined_selected
                   ++ [WFlashUndefined (S (line_no undefined_selected)) 11].
Proof.
  apply (flash_undefined_aperture box_is_empty box_is_valid box_area ∅
           undefined_selected (tok "1000000") (tok "2000000") 11
           (1000000 # 1000000) (2000000 # 1000000)).
  - reflexivity.
  - reflexivity.
  - vm_compute. reflexivity.
  - vm_compute. reflexivity.
Defined.

End Gerber.

(* ===================================================================== *)
(** ** board_outline.py: step-down depths, slot offsets, hole rings *)
(* ===================================================================== *)

Module BoardOutline.

Definition DEFAULT_STEPDOWN : Q := 1 # 2.

(** The slack of the loop tests [x < limit - 1e-9]. *)
Definition eps : Q := 1 # 1000000000.

(** [while d < limit - 1e-9: d = min(d + step, limit); out.append(d)],
    the loop of [_stepdown_list] and of [_slot_offsets]. *)
Fixpoint clamped_steps (fuel : nat) (step limit d : Q) : option (list Q) :=
  if Qlt_le_dec d (limit - eps) then
    match fuel with
    | O => None
    | S k =>
        let d2 := Qmin (d + step) limit in
        option_map (cons d2) (clamped_steps k step limit d2)
    end
  else Some [].

(** Rounds that cover [limit] in steps of [step]. *)
Definition rounds (step limit : Q) : nat := Z.to_nat (Qceiling (limit / step)).

(** [float(stepdown) if stepdown and float(stepdown) > 0 else
    DEFAULT_STEPDOWN]; [None] is a missing or empty value. *)
Definition effective_stepdown (stepdown : option Q) : Q :=
  match stepdown with
  | Some s => if Qlt_le_dec 0 s then s else DEFAULT_STEPDOWN
  | None => DEFAULT_STEPDOWN
  end.

Definition _stepdown_list (full_depth : Q) (stepdown : option Q) : option (list Q) :=
  let stepdown := effective_stepdown stepdown in
  clamped_steps (rounds stepdown full_depth) stepdown full_depth 0.

Definition _slot_offsets (slot_w tool_d : Q) : option (list Q) :=
  if Qle_bool (slot_w * (999 # 1000)) tool_d then Some [0]
  else
    let off := (slot_w - tool_d) / 2 in
    let step := tool_d * (60 # 100) in
    if Qle_bool step 0 then Some [0]
    else
      match clamped_steps (rounds step off) step off 0 with
      | None => None
      | Some offsets => Some (0 :: flat_map (fun r => [r; - r]) offsets)
      end.

(** The radii of [_mill_hole], from [tool_d = ...] to the end of the
    [while]: [None] when the rounds run out, which a bit of diameter 0
    or less brings about. *)
Fixpoint ring_loop (fuel : nat) (tool_d step rr : Q) : option (list Q) :=
  if Qlt_le_dec (tool_d * (25 # 100)) rr then
    match fuel with
    | O => None
    | S k =>
        let rr2 := rr - step in
        if Qle_bool rr2 0 then Some [rr]
        else option_map (cons rr) (ring_loop k tool_d step rr2)
    end
  else Some [].

Definition mill_hole_rings (hole_d tool_d : Q) : option (list Q) :=
  if Qle_bool hole_d (tool_d * (102 # 100)) then Some []
  else
    let r := (hole_d - tool_d) / 2 in
    if Qle_bool r 0 then Some []
    else
      let step := tool_d * (60 # 100) in
      ring_loop (S (rounds step r)) tool_d step r.

(** Depths that climb from [d] towards [limit]: each one above the one
    before by at most [step], and none beyond [limit]. *)
Inductive climbs (step limit : Q) : Q -> list Q -> Prop :=
| climbs_nil d : climbs step limit d []
| climbs_cons d x l :
    d < x -> x <= limit -> x - d <= step ->
    climbs step limit x l -> climbs step limit d (x :: l).

Example stepdown_16 :
  option_map (map Qred) (_stepdown_list (16 # 10) (Some (1 # 2)))
  = Some [1 # 2; 1; 3 # 2; 8 # 5].
Proof. vm_compute. reflexivity. Qed.

Example slot_offsets_3_1 :
  option_map (map Qred) (_slot_offsets 3 1) = Some [0; 3 # 5; - (3 # 5); 1; - 1].
Proof. vm_compute. reflexivity. Qed.

Example rings_3_1 :
  option_map (map Qred) (mill_hole_rings 3 1) = Some [1; 2 # 5].
Proof. vm_compute. reflexivity. Qed.

Lemma last_cons {A : Type} (x d : A) (l : list A) :
  List.last (x :: l) d = List.last l x.
Proof.
  revert x d. induction l as [| y l IH]; intros x d; [reflexivity |].
  change (List.last (x :: y :: l) d) with (List.last (y :: l) d).
  now rewrite !IH.
Qed.

Lemma rounds_cover (step limit : Q) :
  0 < step -> limit <= inject_Z (Z.of_nat (rounds step limit)) * step.
Proof.
  intros Hs. unfold rounds.
  assert (Hc : limit / step <= inject_Z (Qceiling (limit / step)))
    by apply Qle_ceiling.
  assert (Hz : inject_Z (Qceiling (limit / step))
               <= inject_Z (Z.of_nat (Z.to_nat (Qceiling (limit / step))))).
  { rewrite <- Zle_Qle. destruct (Qceiling (limit / step)); cbn; lia. }
  assert (E : limit == limit / step * step) by (field; lra).
  rewrite E at 1. apply Qmult_le_compat_r; lra.
Qed.

(** The loop ends, within the rounds that cover what is left, on a list
    that climbs from [d] and stops within 1e-9 of the limit. *)
Lemma clamped_steps_spec (step limit : Q) :
  0 < step ->
  forall (n : nat) (d : Q),
    limit - d <= inject_Z (Z.of_nat n) * step ->
    exists l,
      clamped_steps n step limit d = Some l /\
      climbs step limit d l /\
      limit - eps <= List.last l d /\
      (l = [] <-> limit - eps <= d).
Proof.
  intros Hs. induction n as [| n IH]; intros d Hn; cbn [clamped_steps].
  - change (inject_Z (Z.of_nat 0)) with 0 in Hn.
    destruct (Qlt_le_dec d (limit - eps)) as [Hlt | Hge]; unfold eps in *; [lra |].
    exists []. repeat split; auto; try constructor.
  - destruct (Qlt_le_dec d (limit - eps)) as [Hlt | Hge].
    + set (d2 := Qmin (d + step) limit).
      assert (Hd2 : (d + step < limit /\ d2 == d + step) \/ (limit <= d + step /\ d2 == limit))
        by apply Q.min_spec.
      assert (Hn2 : limit - d2 <= inject_Z (Z.of_nat n) * step).
      { rewrite Nat2Z.inj_succ in Hn. unfold Z.succ in Hn. rewrite inject_Z_plus in Hn.
        change (inject_Z 1) with 1 in Hn.
        assert (0 <= inject_Z (Z.of_nat n) * step).
        { apply Qmult_le_0_compat; [| lra].
          change 0 with (inject_Z 0). rewrite <- Zle_Qle. lia. }
        destruct Hd2 as [[H1 H2] | [H1 H2]]; rewrite H2; lra. }
      destruct (IH d2 Hn2) as [l [El [Hc [Hlast Hnil]]]].
      rewrite El. cbn [option_map]. exists (d2 :: l). split; [reflexivity |].
      unfold eps in *.
      split; [| split].
      * constructor; [| | | exact Hc]; destruct Hd2 as [[H1 H2] | [H1 H2]]; rewrite H2; lra.
      * rewrite last_cons. exact Hlast.
      * split; [discriminate | intros; lra].
    + exists []. repeat split; auto; try constructor.
Qed.

Lemma climbs_bounds (step limit d : Q) (l : list Q) :
  climbs step limit d l -> Forall (fun x => d < x /\ x <= limit) l.
Proof.
  induction 1 as [d | d x l Hdx Hxl Hstep Hc IH]; constructor; [now split |].
  eapply Forall_impl; [| exact IH]. cbn. intros y [Hy1 Hy2]. split; [lra | exact Hy2].
Qed.

Lemma effective_stepdown_pos (stepdown : option Q) : 0 < effective_stepdown stepdown.
Proof.
  unfold effective_stepdown, DEFAULT_STEPDOWN.
  destruct stepdown as [s |]; [destruct (Qlt_le_dec 0 s) |]; lra.
Qed.

(** X1: the step-down depths.  For every depth and every step setting
    (missing, zero or negative settings fall back to 0.5), the list is
    returned; it climbs from 0, each depth above the one before by at most
    the step and none beyond the full depth; its last depth is within 1e-9
    of the full depth; and it is empty exactly when the full depth is at
    most 1e-9. *)
Theorem stepdown_list_reaches_depth (full_depth : Q) (stepdown : option Q) :
  exists l,
    _stepdown_list full_depth stepdown = Some l /\
    climbs (effective_stepdown stepdown) full_depth 0 l /\
    full_depth - eps <= List.last l 0 /\
    (l = [] <-> full_depth <= eps).
Proof.
  unfold _stepdown_list.
  pose proof (effective_stepdown_pos stepdown) as Hs.
  destruct (clamped_steps_spec (effective_stepdown stepdown) full_depth Hs
              (rounds (effective_stepdown stepdown) full_depth) 0)
    as [l [El [Hc [Hlast Hnil]]]].
  - pose proof (rounds_cover (effective_stepdown stepdown) full_depth Hs). lra.
  - exists l. repeat split; auto.
    + intros H. apply Hnil in H. lra.
    + intros H. apply Hnil. lra.
Qed.

(** X2: the side offsets of a slot.  The list is always returned and
    starts with the centre line 0; every offset has its opposite in the
    list; and every offset other than 0 keeps the tool inside the slot:
    its size is at most (slot_w - tool_d) / 2.  When the tool is narrower
    than 0.999 of the slot and that bound is above 1e-9, some offset lies
    within 1e-9 of the bound. *)
Theorem slot_offsets_symmetric_within (slot_w tool_d : Q) :
  exists l,
    _slot_offsets slot_w tool_d = Some (0 :: l) /\
    (forall o, In o (0 :: l) -> exists o', In o' (0 :: l) /\ o' == - o) /\
    (forall o, In o l -> Qabs o <= (slot_w - tool_d) / 2 /\ 0 < Qabs o) /\
    (Qle_bool (slot_w * (999 # 1000)) tool_d = true \/
     Qle_bool (tool_d * (60 # 100)) 0 = true \/
     (slot_w - tool_d) / 2 <= eps \/
     exists o, In o l /\ (slot_w - tool_d) / 2 - eps <= o).
Proof.
  unfold _slot_offsets.
  assert (Hzero : forall o, In o [0] -> exists o', In o' [0] /\ o' == - o).
  { intros o [<- | []]. exists 0. split; [now left | reflexivity]. }
  destruct (Qle_bool (slot_w * (999 # 1000)) tool_d) eqn:Ewide.
  { exists []. split; [reflexivity |]. split; [exact Hzero |].
    split; [intros o [] | now left]. }
  destruct (Qle_bool (tool_d * (60 # 100)) 0) eqn:Estep.
  { exists []. split; [reflexivity |]. split; [exact Hzero |].
    split; [intros o [] | right; now left]. }
  assert (Hs : 0 < tool_d * (60 # 100)).
  { destruct (Qlt_le_dec 0 (tool_d * (60 # 100))) as [H | H]; [exact H |].
    apply Qle_bool_iff in H. congruence. }
  assert (Hw : ~ slot_w * (999 # 1000) <= tool_d).
  { intros H. apply Qle_bool_iff in H. congruence. }
  set (off := (slot_w - tool_d) / 2).
  destruct (clamped_steps_spec (tool_d * (60 # 100)) off Hs
              (rounds (tool_d * (60 # 100)) off) 0)
    as [offsets [El [Hc [Hlast Hnil]]]].
  { pose proof (rounds_cover (tool_d * (60 # 100)) off Hs). lra. }
  rewrite El. exists (flat_map (fun r => [r; - r]) offsets).
  pose proof (climbs_bounds _ _ _ _ Hc) as Hb. rewrite Forall_forall in Hb.
  split; [reflexivity |]. split; [| split].
  - intros o [<- | Ho]; [exists 0; split; [now left | reflexivity] |].
    apply in_flat_map in Ho as [r [Hr [<- | [<- | []]]]].
    + exists (- r). split; [| reflexivity].
      right. apply in_flat_map. exists r. cbn. auto.
    + exists r. split; [| now rewrite Qopp_involutive].
      right. apply in_flat_map. exists r. cbn. auto.
  - intros o Ho. apply in_flat_map in Ho as [r [Hr Ho]].
    destruct (Hb r Hr) as [Hr0 Hr1].
    destruct Ho as [<- | [<- | []]].
    + rewrite Qabs_pos by lra. split; [exact Hr1 | exact Hr0].
    + rewrite Qabs_opp, Qabs_pos by lra. split; [exact Hr1 | exact Hr0].
  - right. right.
    destruct offsets as [| r0 rest] eqn:Eo.
    + left. assert (Hn : off - eps <= 0) by (apply Hnil; reflexivity). lra.
    + right. rewrite <- Eo in *. exists (List.last offsets 0). split; [| exact Hlast].
      apply in_flat_map. exists (List.last offsets 0). split; [| now left].
      rewrite Eo. apply (proj1 (list_elem_of_In _ _)).
      destruct (exists_last (l := r0 :: rest) ltac:(discriminate)) as [l' [x Hx]].
      rewrite Hx, last_last. apply list_elem_of_In. apply in_or_app. right. now left.
Qed.





End BoardOutline.

(* ===================================================================== *)
(** ** Nearest-neighbour ordering of drill hits and segments
       (drilling.py and board_outline.py [_order_points_nearest],
       board_outline.py [_order_segments_nearest]) *)
(* ===================================================================== *)

Module PathOrder.

Import GeomUtils.

(** One round of [for i, (x, y) in enumerate(rem)]: the best index and
    its squared distance ([None] is [float("inf")]). *)
Definition point_scan_one (cur : point) (acc : nat * option Q) (i : nat) (p : point)
    : nat * option Q :=
  let dx := fst p - fst cur in
  let dy := snd p - snd cur in
  let d2 := dx * dx + dy * dy in
  if below d2 (snd acc) then (i, Some d2) else acc.

Fixpoint point_scan (cur : point) (acc : nat * option Q) (i : nat) (rem : list point)
    : nat * option Q :=
  match rem with
  | [] => acc
  | p :: rest => point_scan cur (point_scan_one cur acc i p) (S i) rest
  end.

(** [while rem: ... rem.pop(best_i)]: one point leaves at every round. *)
Fixpoint point_loop (fuel : nat) (cur : point) (rem : list point) : list point :=
  match fuel, rem with
  | O, _ => []
  | _, [] => []
  | S k, _ =>
      let best_i := fst (point_scan cur (0%nat, None) 0 rem) in
      let p := List.nth best_i rem (0, 0) in
      p :: point_loop k p (remove_nth best_i rem)
  end.

Definition _order_points_nearest (points : list point) (start_xy : point) : list point :=
  point_loop (List.length points) start_xy points.

(** [_order_segments_nearest]: the segments are lists of points; the
    reversal is always allowed. *)
Definition segment_scan_one (cur : point) (acc : best) (i : nat) (pts : polyline) : best :=
  let s := first_pt pts in
  let e := last_pt pts in
  let ds := _dist2 cur s in
  let acc := if below ds (best_d2 acc)
             then {| best_i := i; best_flip := false; best_d2 := Some ds |}
             else acc in
  let de := _dist2 cur e in
  if below de (best_d2 acc)
  then {| best_i := i; best_flip := true; best_d2 := Some de |}
  else acc.

Fixpoint segment_scan (cur : point) (acc : best) (i : nat) (rem : list polyline) : best :=
  match rem with
  | [] => acc
  | pts :: rest => segment_scan cur (segment_scan_one cur acc i pts) (S i) rest
  end.

Fixpoint segment_loop (fuel : nat) (cur : point) (rem : list polyline) : list polyline :=
  match fuel, rem with
  | O, _ => []
  | _, [] => []
  | S k, _ =>
      let b := segment_scan cur {| best_i := 0; best_flip := false; best_d2 := None |}
                 0 rem in
      let pts := List.nth (best_i b) rem [] in
      let pts := if best_flip b then List.rev pts else pts in
      pts :: segment_loop k (last_pt pts) (remove_nth (best_i b) rem)
  end.

Definition _order_segments_nearest (segments : list polyline) (start_xy : point)
    : list polyline :=
  let rem := List.filter (fun s => (2 <=? List.length s)%nat) segments in
  segment_loop (List.length rem) start_xy rem.

(** Squared distance as [_order_points_nearest] computes it. *)
Definition point_d2 (cur p : point) : Q :=
  let dx := fst p - fst cur in
  let dy := snd p - snd cur in
  dx * dx + dy * dy.

(** Every point is at least as near to the one before it (the start for
    the first) as each point that comes later. *)
Inductive nearest_first : point -> list point -> Prop :=
| nearest_nil cur : nearest_first cur []
| nearest_cons cur p l :
    (forall q, In q l -> point_d2 cur p <= point_d2 cur q) ->
    nearest_first p l -> nearest_first cur (p :: l).

(** The same path, as it is or reversed. *)
Definition same_or_reversed (a b : polyline) : Prop := b = a \/ b = List.rev a.

Example order_points_example :
  _order_points_nearest [(5, 0); (1, 0); (2, 0)] (0, 0) = [(1, 0); (2, 0); (5, 0)].
Proof. vm_compute. reflexivity. Qed.

Lemma remove_nth_perm {A : Type} (l : list A) (i : nat) (x : A) :
  List.nth_error l i = Some x -> Permutation l (x :: remove_nth i l).
Proof.
  revert i. induction l as [| y l IH]; intros [| i] H; try discriminate; cbn in *.
  - injection H as ->. reflexivity.
  - rewrite (IH i H) at 1. apply perm_swap.
Qed.

(** What the scan has established after looking at [seen]. *)
Definition point_scan_ok (cur : point) (seen : list point) (acc : nat * option Q) : Prop :=
  match snd acc with
  | None => seen = []
  | Some d =>
      (exists p, List.nth_error seen (fst acc) = Some p /\ d = point_d2 cur p) /\
      (forall q, In q seen -> d <= point_d2 cur q)
  end.

Lemma point_scan_one_ok (cur : point) (seen : list point) (acc : nat * option Q)
    (p : point) :
  point_scan_ok cur seen acc ->
  point_scan_ok cur (seen ++ [p]) (point_scan_one cur acc (List.length seen) p).
Proof.
  unfold point_scan_ok, point_scan_one. fold (point_d2 cur p). intros H.
  destruct (snd acc) as [d0 |] eqn:E0; cbn [below].
  - destruct H as [[p0 [Hp0 Hd]] Hmin].
    destruct (Qlt_le_dec (point_d2 cur p) d0) as [Hlt | Hge]; cbn [fst snd].
    + split.
      * exists p. split; [apply nth_error_snoc_new | reflexivity].
      * intros q Hq. apply in_app_or in Hq as [Hq | [<- | []]].
        -- specialize (Hmin q Hq). lra.
        -- lra.
    + rewrite E0. split.
      * exists p0. split; [now apply nth_error_snoc_old | exact Hd].
      * intros q Hq. apply in_app_or in Hq as [Hq | [<- | []]]; [now apply Hmin | exact Hge].
  - subst seen. cbn [fst snd app List.length]. split.
    + exists p. split; reflexivity.
    + intros q [<- | []]. lra.
Qed.

Lemma point_scan_ok_all (cur : point) (rest seen : list point) (acc : nat * option Q) :
  point_scan_ok cur seen acc ->
  point_scan_ok cur (seen ++ rest) (point_scan cur acc (List.length seen) rest).
Proof.
  revert seen acc. induction rest as [| p rest IH]; intros seen acc H; cbn [point_scan].
  - now rewrite app_nil_r.
  - replace (seen ++ p :: rest) with ((seen ++ [p]) ++ rest)
      by (now rewrite <- app_assoc).
    replace (S (List.length seen)) with (List.length (seen ++ [p]))
      by (rewrite length_app; cbn; lia).
    apply IH. now apply point_scan_one_ok.
Qed.

Lemma point_loop_spec (n : nat) (cur : point) (rem : list point) :
  List.length rem = n ->
  Permutation rem (point_loop n cur rem) /\ nearest_first cur (point_loop n cur rem).
Proof.
  revert cur rem. induction n as [| k IH]; intros cur rem Hn.
  - destruct rem; [| discriminate]. split; [reflexivity | constructor].
  - destruct rem as [| x r] eqn:Er; [discriminate |]. rewrite <- Er in *.
    replace (point_loop (S k) cur rem) with
      (let best_i := fst (point_scan cur (0%nat, None) 0 rem) in
       let p := List.nth best_i rem (0, 0) in
       p :: point_loop k p (remove_nth best_i rem))
      by (rewrite Er; reflexivity).
    cbv zeta.
    pose proof (point_scan_ok_all cur rem [] (0%nat, None) eq_refl) as Hok.
    cbn [app List.length] in Hok.
    set (acc := point_scan cur (0%nat, None) 0 rem) in *.
    unfold point_scan_ok in Hok.
    destruct (snd acc) as [d |]; [| rewrite Hok in Er; discriminate].
    destruct Hok as [[p [Hp Hd]] Hmin].
    erewrite !nth_error_nth by exact Hp.
    pose proof (remove_nth_length _ _ _ Hp) as Hlen.
    destruct (IH p (remove_nth (fst acc) rem) ltac:(lia)) as [Hperm Hnear].
    pose proof (remove_nth_perm _ _ _ Hp) as Hrem.
    split.
    + rewrite Hrem at 1. now constructor.
    + constructor; [| exact Hnear].
      intros q Hq. rewrite <- Hd. apply Hmin.
      apply (Permutation_in q (Permutation_sym Hrem)). right.
      apply (Permutation_in q (Permutation_sym Hperm)). exact Hq.
Qed.

(** X4: ordering drill hits.  The result holds exactly the points given,
    each as often as given, none lost and none added; and every point is
    at least as near to the one placed before it (the start for the first)
    as each point placed after it. *)
Theorem order_points_nearest_perm (points : list point) (start_xy : point) :
  Permutation points (_order_points_nearest points start_xy) /\
  nearest_first start_xy (_order_points_nearest points start_xy).
Proof. unfold _order_points_nearest. now apply point_loop_spec. Qed.

Lemma greedy_keeps_paths (cur : point) (rem out : list polyline) :
  greedy_from cur rem out ->
  exists perm, Permutation rem perm /\ Forall2 same_or_reversed perm out.
Proof.
  induction 1 as [cur | cur rem i l flip out Hl Hmin Hrest [perm [Hp Hf]]].
  - exists []. split; [reflexivity | constructor].
  - exists (l :: perm). split.
    + rewrite (remove_nth_perm _ _ _ Hl). now constructor.
    + constructor; [| exact Hf]. unfold same_or_reversed, oriented.
      destruct flip; auto.
Qed.

(** X5: ordering open paths.  The result is the usable paths of the input
    (two coordinates or more) in some order, each one as it was or
    reversed: no path is lost, added or repeated. *)
Theorem order_lines_nearest_keeps_paths (lines : list polyline) (start_xy : point) :
  exists perm,
    Permutation (List.filter usable lines) perm /\
    Forall2 same_or_reversed perm (order_lines_nearest lines start_xy true).
Proof.
  apply (greedy_keeps_paths start_xy). unfold order_lines_nearest.
  now apply order_loop_greedy.
Qed.

Lemma segment_scan_scan (cur : point) (rem : list polyline) (acc : best) (i : nat) :
  segment_scan cur acc i rem = scan true cur acc i rem.
Proof.
  revert acc i. induction rem as [| pts rest IH]; intros acc i; cbn [segment_scan scan];
    [reflexivity |].
  now rewrite IH.
Qed.

Lemma segment_loop_order_loop (n : nat) (cur : point) (rem : list polyline) :
  segment_loop n cur rem = order_loop n true cur rem.
Proof.
  revert cur rem. induction n as [| k IH]; intros cur rem; [reflexivity |].
  destruct rem as [| x r]; [reflexivity |].
  cbn [segment_loop order_loop]. rewrite segment_scan_scan.
  unfold oriented. now rewrite IH.
Qed.

(** X6: the segment ordering of the outline operation is the path
    ordering of geom_utils.py with reversal allowed: on the same segments
    and start it returns the same list, greedy and complete as that one. *)
Theorem order_segments_nearest_agrees (segments : list polyline) (start_xy : point) :
  _order_segments_nearest segments start_xy = order_lines_nearest segments start_xy true /\
  greedy_from start_xy (List.filter usable segments)
              (_order_segments_nearest segments start_xy) /\
  exists perm,
    Permutation (List.filter usable segments) perm /\
    Forall2 same_or_reversed perm (_order_segments_nearest segments start_xy).
Proof.
  assert (E : _order_segments_nearest segments start_xy
              = order_lines_nearest segments start_xy true).
  { unfold _order_segments_nearest, order_lines_nearest.
    apply segment_loop_order_loop. }
  rewrite E. split; [reflexivity |].
  assert (G : greedy_from start_xy (List.filter usable segments)
                (order_lines_nearest segments start_xy true)).
  { unfold order_lines_nearest. now apply order_loop_greedy. }
  split; [exact G | now apply (greedy_keeps_paths start_xy)].
Qed.

End PathOrder.

(* ===================================================================== *)
(** ** gerber_parser.py: strictness, polarity and regions *)
(* ===================================================================== *)

Module GerberRun.

Import FixedPoint Gerber.

Section Kernel.

Variable is_empty : geom -> bool.
Variable is_valid : geom -> bool.
Variable area : geom -> Q.
Variable bounds : geom -> Q * Q * Q * Q.
Variable difference_raises : geom -> geom -> bool.

Local Abbreviation step := (step is_empty is_valid area).
Local Abbreviation run := (run is_empty is_valid area).
Local Abbreviation flash := (flash is_empty).
Local Abbreviation draw := (draw is_empty).
Local Abbreviation parse_gerber_full := (parse_gerber_full is_empty is_valid area bounds).
Local Abbreviation load_copper :=
  (load_copper is_empty is_valid area bounds difference_raises).

(** How a strict result and the non-strict result of the same call
    relate, from the warnings [ws] logged before the call: the strict
    call returns what the non-strict call returns and nothing is logged,
    or it raises the one warning that the non-strict call logs. *)
Definition agree (ws : list warning) (r_strict r_lax : GerberParseError + gstate)
    : Prop :=
  match r_strict with
  | inr st' => r_lax = inr st' /\ warnings st' = ws
  | inl (ParseError w) => exists st', r_lax = inr st' /\ warnings st' = ws ++ [w]
  end.

Lemma push_warnings (st : gstate) (g : geom) : warnings (push st g) = warnings st.
Proof. unfold push. now destruct (polarity_dark st). Qed.

Lemma agree_same (st' : gstate) (ws : list warning) :
  warnings st' = ws -> agree ws (inr st') (inr st').
Proof. intros H. split; [reflexivity | exact H]. Qed.

Lemma agree_warn (st : gstate) (w : warning) :
  agree (warnings st) (_warn st w true) (_warn st w false).
Proof. cbn. eexists. split; reflexivity. Qed.

Lemma flash_agree (st : gstate) (c : Z) (x y : Q) (macros : gmap string macro_def) :
  agree (warnings st) (flash st true c x y macros) (flash st false c x y macros).
Proof.
  unfold flash. destruct (aps st !! c) as [ap |] eqn:Eap.
  - apply agree_same. cbv zeta. cbn [aps set_lists]. rewrite Eap.
    destruct (pad_from_ap _ _ _ _) as [g |]; [| reflexivity].
    destruct (negb (is_empty g)); [| reflexivity].
    cbn [warnings set_prev]. now rewrite push_warnings.
  - cbn [_warn]. eexists. split; [reflexivity |].
    cbv zeta. cbn [aps set_lists log]. rewrite Eap. reflexivity.
Qed.

Lemma draw_agree (st : gstate) (c : Z) (p : pt) (x y : Q) :
  agree (warnings st) (draw st true c p x y) (draw st false c p x y).
Proof.
  unfold draw. destruct (aps st !! c) as [ap |] eqn:Eap.
  - apply agree_same. cbv zeta. cbn [aps set_lists]. rewrite Eap.
    destruct ap as [shape a b | name params]; [| reflexivity].
    destruct (Qlt_le_dec 0 _); [| reflexivity].
    destruct (negb (is_empty _)); [| reflexivity].
    cbn [warnings set_prev]. now rewrite push_warnings.
  - cbn [_warn]. eexists. split; [reflexivity |].
    cbv zeta. cbn [aps set_lists log]. rewrite Eap. reflexivity.
Qed.

Lemma step_agree (macros : gmap string macro_def) (st : gstate) (l : gline) :
  agree (warnings st) (step true macros st l) (step false macros st l).
Proof.
  unfold step. cbv zeta.
  change (warnings st) with (warnings (next_line st)).
  generalize (next_line st) as s. intros s.
  destruct l; try (now apply agree_same).
  - (* G37 *)
    apply agree_same. destruct (region_polys _ _ _ _); [reflexivity |].
    cbn [warnings set_prev set_region]. now rewrite push_warnings.
  - (* AddStd *)
    destruct (scaled _ a) as [a' |]; [destruct (scaled _ _) as [b' |] |];
      try apply agree_warn. now apply agree_same.
  - (* AddMacro *)
    destruct (scaled _ p1) as [q1 |]; [| apply agree_warn].
    destruct (match p2 with Some _ => _ | None => _ end) as [q2 |]; [| apply agree_warn].
    destruct (match p3 with Some _ => _ | None => _ end) as [q3 |]; [| apply agree_warn].
    destruct (macros !! name); [now apply agree_same |].
    cbn. eexists. split; reflexivity.
  - (* Coord *)
    destruct (coords s x y) as [[cx cy] |]; [| apply agree_warn].
    assert (Hout : agree (warnings s)
              match o, cur s, prev s with
              | D03, Some c, _ => flash s true c cx cy macros
              | D01, Some c, Some p => draw s true c p cx cy
              | D02, _, _ => inr (set_prev s (Some (cx, cy)))
              | _, _, _ => inr s
              end
              match o, cur s, prev s with
              | D03, Some c, _ => flash s false c cx cy macros
              | D01, Some c, Some p => draw s false c p cx cy
              | D02, _, _ => inr (set_prev s (Some (cx, cy)))
              | _, _, _ => inr s
              end).
    { destruct o, (cur s) as [c |], (prev s) as [p |];
        try (now apply agree_same); try apply flash_agree; apply draw_agree. }
    destruct (in_region s); [| exact Hout].
    destruct o; now apply agree_same.
Qed.


Lemma run_lax (macros : gmap string macro_def) (lines : list gline) (st : gstate) :
  exists st' ws, run false macros st lines = inr st' /\ warnings st' = warnings st ++ ws.
Proof.
  revert st. induction lines as [| l rest IH]; intros st; cbn [Gerber.run].
  - exists st, []. now rewrite app_nil_r.
  - pose proof (step_agree macros st l) as Ha. unfold agree in Ha.
    destruct (step true macros st l) as [[w] | st1].
    + destruct Ha as [st1 [-> Hw]]. destruct (IH st1) as [st' [ws [Hr Hws]]].
      exists st', (w :: ws). split; [exact Hr |].
      rewrite Hws, Hw. now rewrite <- app_assoc.
    + destruct Ha as [-> Hw]. destruct (IH st1) as [st' [ws [Hr Hws]]].
      exists st', ws. split; [exact Hr | now rewrite Hws, Hw].
Qed.

Lemma run_agree (macros : gmap string macro_def) (lines : list gline) (st : gstate) :
  match run true macros st lines with
  | inr st' => run false macros st lines = inr st' /\ warnings st' = warnings st
  | inl (ParseError w) =>
      exists st' ws, run false macros st lines = inr st' /\
                     warnings st' = warnings st ++ w :: ws
  end.
Proof.
  revert st. induction lines as [| l rest IH]; intros st; cbn [Gerber.run].
  - split; reflexivity.
  - pose proof (step_agree macros st l) as Ha. unfold agree in Ha.
    destruct (step true macros st l) as [[w] | st1].
    + destruct Ha as [st1 [-> Hw]].
      destruct (run_lax macros rest st1) as [st' [ws [Hr Hws]]].
      exists st', ws. split; [exact Hr |].
      rewrite Hws, Hw. now rewrite <- app_assoc.
    + destruct Ha as [-> Hw]. specialize (IH st1).
      destruct (run true macros st1 rest) as [[w] | st'].
      * destruct IH as [st' [ws [Hr Hws]]]. exists st', ws.
        split; [exact Hr | now rewrite Hws, Hw].
      * destruct IH as [Hr Hws]. split; [exact Hr | now rewrite Hws, Hw].
Qed.

Definition closing (w : warning) : Prop :=
  In w [WNoUnits; WNoFS; WNoApertures; WLargeExtents; WSmallExtents].

(** A state that differs from [st] by closing warnings appended. *)
Definition closes (st st' : gstate) : Prop :=
  exists ws, warnings st' = warnings st ++ ws /\ Forall closing ws.

Lemma closes_refl (st : gstate) : closes st st.
Proof. exists []. split; [now rewrite app_nil_r | constructor]. Qed.

Lemma closes_log (st st' : gstate) (w : warning) :
  closing w -> closes st st' -> closes st (log st' w).
Proof.
  intros Hw [ws [E Hws]]. exists (ws ++ [w]). split.
  - cbn [warnings log]. rewrite E. now rewrite <- app_assoc.
  - apply Forall_app. split; [exact Hws | now constructor].
Qed.

Lemma closing_warnings_appends (st : gstate) :
  closes st (closing_warnings bounds st).
Proof.
  unfold closing_warnings. cbv zeta.
  set (st1 := if saw_units st then st else log st WNoUnits).
  assert (H1 : closes st st1).
  { subst st1. destruct (saw_units st);
      [apply closes_refl | apply closes_log; [cbn; tauto | apply closes_refl]]. }
  clearbody st1.
  set (st2 := if saw_fs st1 then st1 else log st1 WNoFS).
  assert (H2 : closes st st2).
  { subst st2. destruct (saw_fs st1);
      [exact H1 | apply closes_log; [cbn; tauto | exact H1]]. }
  clearbody st2. clear H1 st1.
  set (st3 := if decide (aps st2 = ∅) then log st2 WNoApertures else st2).
  assert (H3 : closes st st3).
  { subst st3. destruct (decide (aps st2 = ∅));
      [apply closes_log; [cbn; tauto | exact H2] | exact H2]. }
  clearbody st3. clear H2 st2.
  destruct (_ ++ _); [exact H3 |].
  destruct (bounds _) as [[[minx miny] maxx] maxy].
  set (st4 := if Qlt_le_dec 2000 (maxx - minx) then log st3 WLargeExtents
              else if Qlt_le_dec 2000 (maxy - miny) then log st3 WLargeExtents
                   else st3).
  assert (H4 : closes st st4).
  { subst st4. destruct (Qlt_le_dec 2000 (maxx - minx));
      [| destruct (Qlt_le_dec 2000 (maxy - miny))];
      try exact H3; (apply closes_log; [cbn; tauto | exact H3]). }
  clearbody st4.
  destruct (Qlt_le_dec (maxx - minx) (1 # 100));
    [| destruct (Qlt_le_dec (maxy - miny) (1 # 100))];
    try exact H4; (apply closes_log; [cbn; tauto | exact H4]).
Qed.

(** A non-strict parse never raises a parse error: whatever the lines,
    [parse_gerber_full] returns. *)
Lemma nonstrict_parse_never_fails (macros : gmap string macro_def)
    (lines : list gline) :
  exists gf, parse_gerber_full false macros lines = inr gf.
Proof.
  unfold Gerber.parse_gerber_full.
  destruct (run_lax macros lines init_state) as [st [ws [-> _]]]. eauto.
Qed.

(** X7: strict and non-strict parsing differ in the first problem only.
    When the strict parse succeeds, the non-strict parse of the same lines
    returns the same result, and its only warnings are the closing ones
    (units, format, apertures, extents).  When the strict parse raises, the
    error it raises is the first warning of the non-strict parse. *)
Theorem strict_parse_agrees (macros : gmap string macro_def) (lines : list gline) :
  match parse_gerber_full true macros lines with
  | inr gf =>
      parse_gerber_full false macros lines = inr gf /\
      Forall closing (warnings gf)
  | inl (ParseError w) =>
      exists gf ws, parse_gerber_full false macros lines = inr gf /\
                    warnings gf = w :: ws
  end.
Proof.
  unfold Gerber.parse_gerber_full.
  pose proof (run_agree macros lines init_state) as Ha.
  destruct (run true macros init_state lines) as [[w] | st].
  - destruct Ha as [st' [ws [-> Hws]]].
    destruct (closing_warnings_appends st') as [ws' [Hc _]].
    eexists _, (ws ++ ws'). split; [reflexivity |].
    rewrite Hc, Hws. reflexivity.
  - destruct Ha as [-> Hws]. split; [reflexivity |].
    destruct (closing_warnings_appends st) as [ws' [Hc Hall]].
    rewrite Hc, Hws. exact Hall.
Qed.


(** *** What a line may touch *)

(** [st'] has the polarity of [st] and the bucket of the other polarity
    as [st] has it. *)
Definition keeps (st st' : gstate) : Prop :=
  polarity_dark st' = polarity_dark st /\
  if polarity_dark st then clear_geoms st' = clear_geoms st
  else dark_geoms st' = dark_geoms st.

Lemma keeps_same (st st' : gstate) :
  polarity_dark st' = polarity_dark st ->
  dark_geoms st' = dark_geoms st -> clear_geoms st' = clear_geoms st ->
  keeps st st'.
Proof. intros Hp Hd Hc. split; [exact Hp |]. now destruct (polarity_dark st). Qed.

Lemma keeps_trans (a b c : gstate) : keeps a b -> keeps b c -> keeps a c.
Proof.
  intros [Hp1 H1] [Hp2 H2]. split; [congruence |].
  rewrite Hp1 in H2. destruct (polarity_dark a); congruence.
Qed.

Lemma push_keeps (st : gstate) (g : geom) : keeps st (push st g).
Proof.
  unfold keeps, push. destruct (polarity_dark st) eqn:E; cbn; now rewrite E.
Qed.

Lemma warn_keeps (st st' : gstate) (w : warning) (strict : bool) :
  _warn st w strict = inr st' -> keeps st st'.
Proof.
  unfold _warn. destruct strict; [discriminate |].
  intros [= <-]. now apply keeps_same.
Qed.

Lemma flash_keeps (st st' : gstate) (strict : bool) (c : Z) (x y : Q)
    (macros : gmap string macro_def) :
  flash st strict c x y macros = inr st' -> keeps st st'.
Proof.
  unfold Gerber.flash.
  assert (Hbody : forall st1, keeps st st1 ->
            keeps st
              (set_prev
                 (let st2 := set_lists st1 (flashes st1 ++ [(c, x, y)]) (tracks st1) in
                  match (match aps st2 !! c with
                         | Some _ => pad_from_ap (aps st2 !! c) x y macros
                         | None => None
                         end) with
                  | Some g => if negb (is_empty g) then push st2 g else st2
                  | None => st2
                  end) (Some (x, y)))).
  { intros st1 H1. eapply keeps_trans; [exact H1 |]. cbv zeta.
    destruct (match aps _ !! c with Some _ => _ | None => _ end) as [g |];
      [| now apply keeps_same].
    destruct (negb (is_empty g)); [| now apply keeps_same].
    eapply keeps_trans; [| now apply keeps_same].
    eapply keeps_trans; [| apply push_keeps]. now apply keeps_same. }
  destruct (aps st !! c) as [ap |] eqn:Eap.
  - intros [= <-]. apply Hbody. now apply keeps_same.
  - destruct (_warn st (WFlashUndefined (line_no st) c) strict) as [e | st1] eqn:Ew;
      [discriminate |].
    intros [= <-]. apply Hbody. now apply warn_keeps in Ew.
Qed.

Lemma draw_keeps (st st' : gstate) (strict : bool) (c : Z) (p : pt) (x y : Q) :
  draw st strict c p x y = inr st' -> keeps st st'.
Proof.
  unfold Gerber.draw.
  assert (Hbody : forall st1, keeps st st1 ->
            keeps st
              (set_prev
                 (let st2 := set_lists st1 (flashes st1) (tracks st1 ++ [(c, p, (x, y))]) in
                  match aps st2 !! c with
                  | Some (ApStd shape a b) =>
                      let width := if Ascii.eqb shape "C"%char then a else Qmin a b in
                      if Qlt_le_dec 0 width then
                        let gg := LineBuffer [p; (x, y)] (width / 2) in
                        if negb (is_empty gg) then push st2 gg else st2
                      else st2
                  | _ => st2
                  end) (Some (x, y)))).
  { intros st1 H1. eapply keeps_trans; [exact H1 |]. cbv zeta.
    destruct (aps _ !! c) as [[shape a b | name params] |];
      try (now apply keeps_same).
    destruct (Qlt_le_dec 0 _); [| now apply keeps_same].
    destruct (negb (is_empty _)); [| now apply keeps_same].
    eapply keeps_trans; [| now apply keeps_same].
    eapply keeps_trans; [| apply push_keeps]. now apply keeps_same. }
  destruct (aps st !! c) as [ap |] eqn:Eap.
  - intros [= <-]. apply Hbody. now apply keeps_same.
  - destruct (_warn st (WDrawUndefined (line_no st) c) strict) as [e | st1] eqn:Ew;
      [discriminate |].
    intros [= <-]. apply Hbody. now apply warn_keeps in Ew.
Qed.

(** X8: a line that is not a polarity command leaves the polarity as it
    is and adds geometry, if any, to the bucket of that polarity only: under
    dark polarity the clear shapes stay as they are, under clear polarity
    the dark shapes. *)
Theorem step_keeps_other_bucket (strict : bool) (macros : gmap string macro_def)
    (st st' : gstate) (l : gline) :
  l <> LPD -> l <> LPC ->
  step strict macros st l = inr st' ->
  polarity_dark st' = polarity_dark st /\
  if polarity_dark st then clear_geoms st' = clear_geoms st
  else dark_geoms st' = dark_geoms st.
Proof.
  intros HD HC.
  assert (Hn : keeps st (next_line st)) by (now apply keeps_same).
  change (step strict macros st l = inr st' -> keeps st st').
  unfold Gerber.step. destruct l; cbv zeta; try congruence.
  all: try (intros [= <-]; now apply keeps_same).
  - (* G37 *)
    intros [= <-]. destruct (region_polys _ _ _ _) as [| g r]; [now apply keeps_same |].
    eapply keeps_trans; [| now apply keeps_same].
    eapply keeps_trans; [exact Hn | apply push_keeps].
  - (* AddStd *)
    destruct (scaled _ a) as [a' |]; [destruct (scaled _ _) as [b' |] |].
    + intros [= <-]. now apply keeps_same.
    + intros H. eapply keeps_trans; [exact Hn | eapply warn_keeps; exact H].
    + intros H. eapply keeps_trans; [exact Hn | eapply warn_keeps; exact H].
  - (* AddMacro *)
    repeat case_match; try (intros [= <-]; now apply keeps_same);
      intros Hw; apply warn_keeps in Hw;
      (eapply keeps_trans; [| exact Hw]); now apply keeps_same.
  - (* Coord *)
    destruct (coords (next_line st) x y) as [[cx cy] |];
      [| intros H; eapply keeps_trans; [exact Hn | eapply warn_keeps; exact H]].
    assert (Hout : forall st2,
              match o, cur (next_line st), prev (next_line st) with
              | D03, Some c, _ => flash (next_line st) strict c cx cy macros
              | D01, Some c, Some p => draw (next_line st) strict c p cx cy
              | D02, _, _ => inr (set_prev (next_line st) (Some (cx, cy)))
              | _, _, _ => inr (next_line st)
              end = inr st2 -> keeps st st2).
    { intros st2 H. eapply keeps_trans; [exact Hn |].
      destruct o, (cur (next_line st)) as [c |], (prev (next_line st)) as [p |];
        try (injection H as <-; now apply keeps_same);
        try (now apply flash_keeps in H); try (now apply draw_keeps in H). }
    destruct (in_region (next_line st)); [| apply Hout].
    destruct o; try apply Hout; intros [= <-]; now apply keeps_same.
Qed.

Lemma step_polarity_line (strict : bool) (macros : gmap string macro_def)
    (st st' : gstate) (dark : bool) :
  step strict macros st (if dark then LPD else LPC) = inr st' ->
  polarity_dark st' = dark /\
  dark_geoms st' = dark_geoms st /\ clear_geoms st' = clear_geoms st.
Proof. destruct dark; intros [= <-]; repeat split. Qed.

Lemma run_all_dark (strict : bool) (macros : gmap string macro_def)
    (lines : list gline) (st st' : gstate) :
  Forall (fun l => l <> LPC) lines ->
  polarity_dark st = true ->
  run strict macros st lines = inr st' ->
  polarity_dark st' = true /\ clear_geoms st' = clear_geoms st.
Proof.
  intros Hall. revert st. induction Hall as [| l rest Hl Hrest IH]; intros st Hp;
    cbn [Gerber.run].
  - intros [= <-]. split; [exact Hp | reflexivity].
  - destruct (step strict macros st l) as [e | st1] eqn:E; [discriminate |].
    intros Hrun.
    assert (H1 : polarity_dark st1 = true /\ clear_geoms st1 = clear_geoms st).
    { assert (HD : l = LPD \/ l <> LPD) by (destruct l; auto; right; discriminate).
      destruct HD as [-> | HD].
      - apply (step_polarity_line strict macros st st1 true) in E. tauto.
      - destruct (step_keeps_other_bucket strict macros st st1 l HD Hl E) as [Hp1 Hk].
        rewrite Hp in *. tauto. }
    destruct H1 as [Hp1 Hc1]. destruct (IH st1 Hp1 Hrun) as [Hp' Hc'].
    split; [exact Hp' | congruence].
Qed.

(** X9: a file without a clear-polarity command has no clear shapes, and
    its copper image is the plain union of its dark shapes: no difference
    is taken. *)
Theorem copper_without_clear (strict : bool) (macros : gmap string macro_def)
    (lines : list gline) (image : geom) :
  Forall (fun l => l <> LPC) lines ->
  load_copper strict macros lines = inr image ->
  exists gf,
    parse_gerber_full strict macros lines = inr gf /\
    clear_geoms gf = [] /\
    image = UnaryUnion (dark_geoms gf).
Proof.
  intros Hall. unfold Gerber.load_copper.
  destruct (parse_gerber_full strict macros lines) as [e | gf] eqn:Ep; [discriminate |].
  intros [= <-]. exists gf. split; [reflexivity |].
  unfold Gerber.parse_gerber_full in Ep.
  destruct (run strict macros init_state lines) as [e | st] eqn:Er; [discriminate |].
  injection Ep as <-.
  destruct (run_all_dark strict macros lines init_state st Hall eq_refl Er) as [_ Hc].
  destruct (closing_warnings_buckets bounds st) as [_ Hc'].
  assert (E : clear_geoms (closing_warnings bounds st) = []) by (now rewrite Hc', Hc).
  split; [exact E |]. unfold _compose_dark_clear. now rewrite E.
Qed.

(** X10: inside a region (between G36 and G37) a coordinate line records
    no flash and no track and adds no geometry, whatever its operation
    code: it only feeds the contour of the region. *)
Theorem region_records_nothing (strict : bool) (macros : gmap string macro_def)
    (st st' : gstate) (xt yt : token) (o : opcode) :
  in_region st = true ->
  step strict macros st (Coord xt yt o) = inr st' ->
  in_region st' = true /\
  flashes st' = flashes st /\ tracks st' = tracks st /\
  dark_geoms st' = dark_geoms st /\ clear_geoms st' = clear_geoms st.
Proof.
  intros Hreg. unfold Gerber.step. cbv zeta.
  destruct (coords (next_line st) xt yt) as [[cx cy] |].
  - change (in_region (next_line st)) with (in_region st). rewrite Hreg.
    destruct o; intros [= <-]; cbn; repeat split; exact Hreg.
  - unfold _warn. destruct strict; [discriminate |].
    intros [= <-]. cbn. repeat split; exact Hreg.
Qed.

End Kernel.

Definition dark_file : list gline :=
  [ AddStd 10 "R" (tok "2") (Some (tok "2")); Select 10;
    Coord (tok "0") (tok "0") D03 ].

(** The rectangle the flash of [dark_file] stamps: corners (-1,-1) and
    (1,1). *)
Definition dark_square : geom :=
  Polygon [(-2000000 # 2000000, -2000000 # 2000000);
           (2000000 # 2000000, -2000000 # 2000000);
           (2000000 # 2000000, 2000000 # 2000000);
           (-2000000 # 2000000, 2000000 # 2000000)].

Lemma copper_without_clear_witness :
  exists gf,
    parse_gerber_full box_is_empty box_is_valid box_area box_bounds false ∅ dark_file
      = inr gf /\
    clear_geoms gf = [] /\
    UnaryUnion [dark_square] = UnaryUnion (dark_geoms gf).
Proof.
  apply (copper_without_clear box_is_empty box_is_valid box_area box_bounds
           box_difference_raises false ∅ dark_file).
  - repeat constructor; discriminate.
  - vm_compute. reflexivity.
Defined.

(** The state after the aperture and its selection, clear polarity on. *)
Definition clear_selected : gstate :=
  state_after [AddStd 10 "R" (tok "2") (Some (tok "2")); Select 10; LPC].

Lemma step_keeps_other_bucket_witness :
  exists st',
    step box_is_empty box_is_valid box_area false ∅ clear_selected
         (Coord (tok "0") (tok "0") D03) = inr st' /\
    clear_geoms st' = [dark_square] /\
    polarity_dark st' = polarity_dark clear_selected /\
    if polarity_dark clear_selected
    then clear_geoms st' = clear_geoms clear_selected
    else dark_geoms st' = dark_geoms clear_selected.
Proof.
  eexists. split; [vm_compute; reflexivity |]. split; [reflexivity |].
  apply (step_keeps_other_bucket box_is_empty box_is_valid box_area false ∅
           clear_selected _ (Coord (tok "0") (tok "0") D03)).
  - discriminate.
  - discriminate.
  - vm_compute. reflexivity.
Defined.

(** The state after G36 with an aperture selected. *)
Definition region_open : gstate :=
  state_after [AddStd 10 "R" (tok "2") (Some (tok "2")); Select 10; G36].

Lemma region_records_nothing_witness :
  exists st',
    step box_is_empty box_is_valid box_area false ∅ region_open
         (Coord (tok "0") (tok "0") D03) = inr st' /\
    in_region st' = true /\
    flashes st' = flashes region_open /\ tracks st' = tracks region_open /\
    dark_geoms st' = dark_geoms region_open /\
    clear_geoms st' = clear_geoms region_open.
Proof.
  eexists. split; [vm_compute; reflexivity |].
  apply (region_records_nothing box_is_empty box_is_valid box_area false ∅
           region_open _ (tok "0") (tok "0") D03).
  - reflexivity.
  - vm_compute. reflexivity.
Defined.

End GerberRun.

(* ===================================================================== *)
(** ** drilling.py and ui/main_window.py: what a drill plan holds *)
(* ===================================================================== *)

Module DrillPlan.

Import Drilling.

(** The place of a hole, without its diameter. *)
Definition xy (h : Q * Q * Q) : Q * Q := (fst (fst h), snd (fst h)).

(** Largest first. *)
Definition descending (plan : list (bit * list (Q * Q))) : Prop :=
  StronglySorted (fun a b => diameter (fst b) <= diameter (fst a)) plan.

Lemma omap_cons {A B : Type} (f : A -> option B) (x : A) (l : list A) :
  omap f (x :: l) = match f x with Some y => y :: omap f l | None => omap f l end.
Proof. reflexivity. Qed.

Lemma alter_concat_perm {A : Type} (p : A) (assigned : list (list A)) (i : nat) :
  (i < List.length assigned)%nat ->
  Permutation (List.concat (alter (fun l => l ++ [p]) i assigned)) (List.concat assigned ++ [p]).
Proof.
  revert i. induction assigned as [| l r IH]; intros i Hi; cbn in Hi; [lia |].
  destruct i as [| i]; cbn.
  - rewrite <- !app_assoc. apply Permutation_app_head, Permutation_app_comm.
  - rewrite (IH i ltac:(lia)). now rewrite app_assoc.
Qed.

Lemma pick_loop_range (tol hd : Q) (ds : list Q) (i : nat) :
  pick_loop tol hd 0 ds None = Some i -> (i < List.length ds)%nat.
Proof.
  rewrite pick_loop_best_loop. intros H.
  apply best_loop_sound in H as [H | [k [d [-> [Hk _]]]]]; [discriminate |].
  apply lookup_lt_Some in Hk. cbn. exact Hk.
Qed.

(** The drills in use are those with a hole. *)
Definition used_ok (assigned : list (list (Q * Q))) (used : gset nat) : Prop :=
  forall i, i ∈ used <-> exists pts, assigned !! i = Some pts /\ pts <> [].

Lemma assign_loop_partition (ds : list Q) (tol : Q) (holes : list (Q * Q * Q))
    (assigned assigned' : list (list (Q * Q))) (used used' : gset nat) :
  List.length assigned = List.length ds ->
  used_ok assigned used ->
  assign_loop ds tol holes assigned used = inr (assigned', used') ->
  List.length assigned' = List.length ds /\
  used_ok assigned' used' /\
  Permutation (List.concat assigned') (List.concat assigned ++ map xy holes).
Proof.
  revert assigned used. induction holes as [| [[x y] hd] rest IH];
    intros assigned used Hlen Hu; cbn [assign_loop].
  - intros [= <- <-]. cbn [map]. rewrite app_nil_r. auto.
  - destruct (pick_loop tol hd 0 ds None) as [i |] eqn:Ep; [| discriminate].
    intros Hrun. apply pick_loop_range in Ep.
    apply IH in Hrun as [Hlen' [Hu' Hp]].
    + split; [exact Hlen' |]. split; [exact Hu' |].
      rewrite Hp, alter_concat_perm by lia.
      cbn [map]. now rewrite <- app_assoc.
    + now rewrite length_alter.
    + intros j. rewrite elem_of_union, elem_of_singleton, (Hu j).
      destruct (decide (j = i)) as [-> | Hne].
      * rewrite list_lookup_alter.
        destruct (lookup_lt_is_Some_2 assigned i ltac:(lia)) as [pts Hpts].
        rewrite Hpts. simpl. rewrite decide_True by reflexivity.
        split; [| now left].
        intros _. exists (pts ++ [(x, y)]). split; [reflexivity |].
        now destruct pts.
      * rewrite list_lookup_alter_ne by congruence. tauto.
Qed.

Lemma lookups_all {A : Type} (d : A) (l : list A) :
  map (fun i => default d (l !! i)) (seq 0 (List.length l)) = l.
Proof.
  induction l as [| x l IH]; [reflexivity |].
  cbn [List.length seq map]. cbn [lookup list_lookup default]. f_equal.
  rewrite <- seq_shift, map_map. exact IH.
Qed.

Lemma concat_filter_empty {A B : Type} (f : A -> list B) (P : A -> bool) (l : list A) :
  (forall x, In x l -> P x = false -> f x = []) ->
  List.concat (map f (List.filter P l)) = List.concat (map f l).
Proof.
  induction l as [| x l IH]; intros H; [reflexivity |]. cbn [List.filter map List.concat].
  destruct (P x) eqn:E; cbn [map List.concat].
  - f_equal. apply IH. intros z Hz. apply H. now right.
  - rewrite (H x (or_introl eq_refl) E). cbn. apply IH. intros z Hz. apply H. now right.
Qed.


Lemma omap_snd (drills : list bit) (assigned : list (list (Q * Q))) (l : list nat) :
  Forall (fun i => (i < List.length drills)%nat) l ->
  map snd (omap (fun i => b ← drills !! i; Some (b, default [] (assigned !! i))) l)
  = map (fun i => default [] (assigned !! i)) l.
Proof.
  induction 1 as [| i l Hi Hl IH]; [reflexivity |].
  rewrite omap_cons.
  destruct (lookup_lt_is_Some_2 drills i Hi) as [b Hb]. rewrite Hb. cbn.
  now rewrite IH.
Qed.

Lemma omap_descending (drills : list bit) (assigned : list (list (Q * Q)))
    (l : list nat) :
  StronglySorted (fun i j => Qle_bool (List.nth j (map diameter drills) 0)
                                      (List.nth i (map diameter drills) 0) = true) l ->
  descending (omap (fun i => b ← drills !! i; Some (b, default [] (assigned !! i))) l).
Proof.
  unfold descending. induction 1 as [| i l Hs IH Hall]; [constructor |].
  rewrite omap_cons. destruct (drills !! i) as [b |] eqn:Eb; cbn; [| exact IH].
  constructor; [exact IH |].
  apply Forall_forall. intros [b' pts'] Hin.
  apply list_elem_of_In, list_elem_of_omap in Hin as [j [Hj Hf]].
  destruct (drills !! j) as [bj |] eqn:Ej; [| discriminate].
  cbn in Hf. injection Hf as <- _. cbn [fst].
  rewrite Forall_forall in Hall. specialize (Hall j (proj1 (list_elem_of_In _ _) Hj)).
  apply Qle_bool_iff in Hall.
  assert (Hn : forall k bk, drills !! k = Some bk ->
                 List.nth k (map diameter drills) 0 = diameter bk).
  { intros k bk Hk. apply nth_lookup_Some with (d := 0).
    change (map diameter drills) with (diameter <$> drills).
    rewrite list_lookup_fmap, Hk. reflexivity. }
  now rewrite (Hn i b Eb), (Hn j bj Ej) in Hall.
Qed.

Lemma concat_empty_lists {A B : Type} (l : list A) :
  List.concat (map (fun _ => @nil B) l) = [].
Proof. induction l; [reflexivity | exact IHl]. Qed.

Lemma assign_holes_spec (holes : list (Q * Q * Q)) (drill_bits : list bit)
    (tol : Q) (plan : list (bit * list (Q * Q))) :
  _assign_holes_to_drills holes drill_bits tol = inr plan ->
  Permutation (List.concat (map snd plan)) (map xy holes) /\
  Forall (fun e => snd e <> [] /\ In (fst e) drill_bits /\ 0 < diameter (fst e)) plan /\
  descending plan.
Proof.
  unfold _assign_holes_to_drills. cbv zeta.
  set (drills := sort_by by_diameter
                   (List.filter (fun b => negb (Qle_bool (diameter b) 0)) drill_bits)).
  assert (Hbits : forall b, In b drills -> In b drill_bits /\ 0 < diameter b).
  { intros b Hb. apply sort_by_In, filter_In in Hb as [Hb Hpos]. split; [exact Hb |].
    apply negb_true_iff in Hpos.
    destruct (Qlt_le_dec 0 (diameter b)) as [Hlt | Hle]; [exact Hlt |].
    apply Qle_bool_iff in Hle. congruence. }
  clearbody drills.
  intros H.
  assert (Ha : assign_on drills holes tol = inr plan) by (destruct drills; [discriminate | exact H]).
  clear H. unfold assign_on in Ha. cbv zeta in Ha.
  destruct (assign_loop (map diameter drills) tol holes (map (fun _ => []) drills) ∅)
    as [e | [assigned used]] eqn:El; [discriminate |].
  injection Ha as <-.
  apply assign_loop_partition in El as [Hlen [Hu Hp]].
  2: { now rewrite !length_map. }
  2: { intros i. split; [intros Hi; now apply elem_of_empty in Hi |].
       intros [pts [Hi Hne]]. exfalso. apply Hne.
       change (map (fun _ : bit => []) drills) with ((fun _ : bit => @nil (Q * Q)) <$> drills) in Hi.
       rewrite list_lookup_fmap in Hi. destruct (drills !! i); [| discriminate].
       cbn in Hi. congruence. }
  rewrite concat_empty_lists in Hp. cbn [app] in Hp.
  rewrite length_map in Hlen.
  set (n := List.length drills) in *.
  set (P := fun i : nat => bool_decide (i ∈ used)).
  set (le' := fun i j : nat => Qle_bool (List.nth j (map diameter drills) 0)
                                        (List.nth i (map diameter drills) 0)).
  assert (Hrange : Forall (fun i => (i < n)%nat) (sort_by le' (List.filter P (seq 0 n)))).
  { apply Forall_forall. intros i Hi.
    apply sort_by_In, filter_In in Hi as [Hi _]. apply in_seq in Hi. lia. }
  split; [| split].
  - rewrite (omap_snd drills assigned _ Hrange).
    rewrite <- flat_map_concat_map.
    rewrite (Permutation_flat_map _ (sort_by_perm le' (List.filter P (seq 0 n)))).
    rewrite flat_map_concat_map, concat_filter_empty.
    + rewrite <- Hlen, lookups_all. exact Hp.
    + intros i Hi HP. apply in_seq in Hi. apply bool_decide_eq_false in HP.
      destruct (lookup_lt_is_Some_2 assigned i ltac:(lia)) as [pts Hpts].
      rewrite Hpts. cbn. destruct pts as [| p pts]; [reflexivity |].
      exfalso. apply HP, Hu. exists (p :: pts). split; [exact Hpts | discriminate].
  - apply Forall_forall. intros [b pts] Hin.
    apply list_elem_of_In, list_elem_of_omap in Hin as [i [Hi Hf]].
    destruct (drills !! i) as [bi |] eqn:Ei; [| discriminate].
    cbn in Hf. injection Hf as <- <-. cbn [fst snd].
    apply list_elem_of_In, sort_by_In, filter_In in Hi as [_ HP].
    apply bool_decide_eq_true, Hu in HP as [pts [Hpts Hne]].
    rewrite Hpts. cbn. split; [exact Hne |].
    apply Hbits, list_elem_of_In, list_elem_of_lookup. eauto.
  - apply omap_descending. apply sort_by_sorted; unfold le'.
    + intros a b E.
      apply Qle_bool_iff.
      destruct (Qlt_le_dec (List.nth b (map diameter drills) 0)
                           (List.nth a (map diameter drills) 0)) as [Hlt | Hle];
        [| exact Hle].
      apply Qlt_le_weak, Qle_bool_iff in Hlt. congruence.
    + intros a b c H1 H2. apply Qle_bool_iff in H1, H2. apply Qle_bool_iff.
      now apply Qle_trans with (List.nth b (map diameter drills) 0).
Qed.

(** X11: every hole is drilled once.  When the assignment succeeds, the
    points of its entries, taken together, are the places of the holes
    given, each as often as given; no entry is without a point; every
    drill named is one of the bits given, of positive diameter; and the
    entries run from the largest drill to the smallest. *)
Theorem assignment_partitions_holes (holes : list (Q * Q * Q)) (drill_bits : list bit)
    (tol : Q) (plan : list (bit * list (Q * Q))) :
  _assign_holes_to_drills holes drill_bits tol = inr plan ->
  Permutation (List.concat (map snd plan)) (map xy holes) /\
  Forall (fun e => snd e <> [] /\ In (fst e) drill_bits /\ 0 < diameter (fst e)) plan /\
  descending plan.
Proof.
  exact (assign_holes_spec holes drill_bits tol plan).
Qed.

Lemma assignment_partitions_holes_witness :
  Permutation (List.concat (map snd [(b10, [(1, 1)]); (b06, [(0, 0); (2, 2)])]))
              (map xy [(0, 0, 6 # 10); (1, 1, 1); (2, 2, 65 # 100)]) /\
  Forall (fun e => snd e <> [] /\ In (fst e) [b10; b05; b06] /\ 0 < diameter (fst e))
         [(b10, [(1, 1)]); (b06, [(0, 0); (2, 2)])] /\
  descending [(b10, [(1, 1)]); (b06, [(0, 0); (2, 2)])].
Proof.
  apply (assignment_partitions_holes
           [(0, 0, 6 # 10); (1, 1, 1); (2, 2, 65 # 100)] [b10; b05; b06] (5 # 100)).
  vm_compute. reflexivity.
Defined.


Lemma reduce_loop_inv (fuel : nat) (ds : list Q) (tol : Q) (hole_ds : list Q)
    (max_bits : Z) (used used' : list nat) (assign_idx assign_idx' : list (option nat)) :
  ascending ds ->
  plan_inv ds tol hole_ds used assign_idx ->
  reduce_loop fuel ds tol hole_ds max_bits used assign_idx
    = Some (inr (used', assign_idx')) ->
  plan_inv ds tol hole_ds used' assign_idx'.
Proof.
  intros Hs. revert used assign_idx.
  induction fuel as [| fuel IH]; intros used assign_idx Hinv; cbn [reduce_loop];
    destruct (max_bits <? Z.of_nat (List.length used))%Z; try discriminate;
    try (intros [= <- <-]; exact Hinv).
  destruct (sort_by _ _) as [| drop rest] eqn:E; [discriminate |].
  assert (Hd : In drop (List.filter (is_droppable ds tol hole_ds assign_idx used) used)).
  { apply (sort_by_In (drop_order ds assign_idx)). rewrite E. now left. }
  apply filter_In in Hd as [Hin Hdrop].
  apply IH. now apply drop_keeps_inv.
Qed.

(** X12: a plan reported [ok] is a plan.  Its drills are candidate bits,
    listed from the largest to the smallest, and every hole has among them
    a drill of diameter at most hole + tol (+ 1e-9). *)
Theorem plan_ok_covers (hole_ds : list Q) (candidate_bits : list bit)
    (tol : Q) (max_bits : Z) (p : plan) :
  _plan_drills_for_holes hole_ds candidate_bits tol max_bits = Some p ->
  status p = ok ->
  incl (planned p) candidate_bits /\
  (forall hd, In hd hole_ds ->
     exists b, In b (planned p) /\ diameter b <= hd + tol + eps) /\
  StronglySorted (fun a b => diameter b <= diameter a) (planned p).
Proof.
  unfold _plan_drills_for_holes.
  destruct hole_ds as [| h0 hs] eqn:Eh.
  { intros [= <-] _. cbn. repeat split; [intros b [] | intros hd [] | constructor]. }
  destruct candidate_bits as [| b0 bs] eqn:Eb.
  { intros [= <-]. discriminate. }
  rewrite <- Eh, <- Eb. clear Eh Eb h0 hs b0 bs.
  set (drills := sort_by by_diameter candidate_bits).
  set (ds := map diameter drills).
  set (assign_idx := map (fun hd => best_drill_index_for ds tol hd None) hole_ds).
  destruct (existsb (fun a => negb (bool_decide (is_Some a))) assign_idx) eqn:Ex.
  { intros [= <-]. discriminate. }
  pose proof (first_assignment_inv ds tol hole_ds Ex) as Hinv. fold assign_idx in Hinv.
  destruct (reduce_loop _ ds tol hole_ds max_bits (sorted_set assign_idx) assign_idx)
    as [[over | [used' assign']] |] eqn:Er; [| | discriminate].
  { intros [= <-]. discriminate. }
  apply reduce_loop_inv in Er; [| apply sorted_diameters | exact Hinv].
  intros [= <-] _. cbn [planned].
  assert (Hin : forall b, In b (omap (fun i => drills !! i) used') ->
                          In b candidate_bits).
  { intros b Hb. apply list_elem_of_In, list_elem_of_omap in Hb as [i [_ Hi]].
    apply (sort_by_In by_diameter). apply list_elem_of_In, list_elem_of_lookup. eauto. }
  split; [| split].
  - intros b Hb. apply sort_by_In in Hb. now apply Hin.
  - intros hd Hhd.
    apply list_elem_of_In, list_elem_of_lookup in Hhd as [k Hk].
    destruct (lookup_lt_is_Some_2 assign' k) as [a Ha].
    { rewrite (inv_length _ _ _ _ _ Er). now apply lookup_lt_Some in Hk. }
    destruct (inv_assigned _ _ _ _ _ Er k a Ha) as [i [d [hd' [-> [Hi [Hk' [Hd Hf]]]]]]].
    rewrite Hk in Hk'. injection Hk' as <-.
    unfold ds in Hd. change (map diameter drills) with (diameter <$> drills) in Hd.
    rewrite list_lookup_fmap in Hd.
    destruct (drills !! i) as [b |] eqn:Eb; [| discriminate].
    cbn in Hd. injection Hd as <-.
    exists b. split; [| now apply fits_iff].
    apply sort_by_In, list_elem_of_In, list_elem_of_omap.
    exists i. split; [now apply list_elem_of_In | exact Eb].
  - assert (H : StronglySorted (fun a b => by_diameter b a = true)
                  (sort_by (fun a b => by_diameter b a)
                           (omap (fun i => drills !! i) used'))).
    { apply sort_by_sorted; unfold by_diameter.
      - intros a b E. apply Qle_bool_iff.
        destruct (Qlt_le_dec (diameter b) (diameter a)) as [Hlt | Hle]; [| exact Hle].
        apply Qlt_le_weak, Qle_bool_iff in Hlt. congruence.
      - intros a b c H1 H2. apply Qle_bool_iff in H1, H2. apply Qle_bool_iff.
        now apply Qle_trans with (diameter b). }
    induction H as [| a r Hs IH Hall]; constructor; [exact IH |].
    rewrite Forall_forall in Hall |- *. intros b Hb.
    apply Qle_bool_iff. now apply Hall.
Qed.

Lemma plan_ok_covers_witness :
  exists p,
    _plan_drills_for_holes [6 # 10; 6 # 10; 8 # 10; 9 # 10; 1]
      [b05; b06; b08; b09; b10] (5 # 100) 2 = Some p /\
    planned p = [b10; b06] /\
    incl (planned p) [b05; b06; b08; b09; b10] /\
    (forall hd, In hd [6 # 10; 6 # 10; 8 # 10; 9 # 10; 1] ->
       exists b, In b (planned p) /\ diameter b <= hd + (5 # 100) + eps) /\
    StronglySorted (fun a b => diameter b <= diameter a) (planned p).
Proof.
  eexists. split; [vm_compute; reflexivity |]. split; [reflexivity |].
  apply (plan_ok_covers [6 # 10; 6 # 10; 8 # 10; 9 # 10; 1]
           [b05; b06; b08; b09; b10] (5 # 100) 2).
  - vm_compute. reflexivity.
  - reflexivity.
Defined.

End DrillPlan.

(* ===================================================================== *)
(** ** excellon_parser.py: what de-duplication keeps *)
(* ===================================================================== *)

Module Dedupe.

Import Excellon.

(** What holds of the kept holes [kept] once the holes [seen] have been
    read: every kept hole is a hole that was read, and every hole read has
    a kept hole at least as large. *)
Definition kept_ok (seen kept : list hole) : Prop :=
  (forall h', In h' kept -> In h' seen) /\
  (forall h, In h seen -> exists h', In h' kept /\ hole_d h <= hole_d h').

Lemma kept_ok_same (seen kept : list hole) (h h2 : hole) :
  kept_ok seen kept -> In h2 kept -> hole_d h <= hole_d h2 ->
  kept_ok (seen ++ [h]) kept.
Proof.
  intros [Hin Hcov] H2 Hle. split.
  - intros h' Hh'. apply in_or_app. left. now apply Hin.
  - intros h0 Hh0. apply in_app_or in Hh0 as [Hh0 | [<- | []]]; [now apply Hcov |].
    exists h2. now split.
Qed.

Lemma kept_ok_append (seen kept : list hole) (h : hole) :
  kept_ok seen kept -> kept_ok (seen ++ [h]) (kept ++ [h]).
Proof.
  intros [Hin Hcov]. split.
  - intros h' Hh'. apply in_or_app. apply in_app_or in Hh' as [Hh' | Hh']; auto.
  - intros h0 Hh0. apply in_app_or in Hh0 as [Hh0 | [<- | []]].
    + destruct (Hcov h0 Hh0) as [h' [Hh' Hle]]. exists h'. split; [| exact Hle].
      apply in_or_app. now left.
    + exists h. split; [apply in_or_app; right; now left | apply Qle_refl].
Qed.

(** A kept list in which [h] took the place of the smaller [h2]. *)
Lemma kept_ok_replace (seen kept kept' : list hole) (h h2 : hole) :
  kept_ok seen kept ->
  hole_d h2 < hole_d h ->
  In h kept' ->
  (forall v, In v kept' -> v = h \/ In v kept) ->
  (forall v, In v kept -> In v kept' \/ v = h2) ->
  kept_ok (seen ++ [h]) kept'.
Proof.
  intros [Hin Hcov] Hlt Hh Hnew Hold. split.
  - intros h' Hh'. apply in_or_app. destruct (Hnew h' Hh') as [-> | Hk].
    + right. now left.
    + left. now apply Hin.
  - intros h0 Hh0. apply in_app_or in Hh0 as [Hh0 | [<- | []]].
    + destruct (Hcov h0 Hh0) as [h' [Hh' Hle]].
      destruct (Hold h' Hh') as [Hk | ->].
      * exists h'. now split.
      * exists h. split; [exact Hh |]. apply Qlt_le_weak.
        now apply Qle_lt_trans with (hole_d h2).
    + exists h. split; [exact Hh | apply Qle_refl].
Qed.

Lemma insert_In {A : Type} (l : list A) (i : nat) (x z : A) :
  l !! i = Some z ->
  In x (<[i := x]> l) /\
  (forall v, In v (<[i := x]> l) -> v = x \/ In v l) /\
  (forall v, In v l -> In v (<[i := x]> l) \/ v = z).
Proof.
  revert i. induction l as [| y l IH]; intros [| i] Hi; try discriminate; cbn in *.
  - injection Hi as ->. split; [now left |]. split; intros v [-> | Hv]; auto.
  - destruct (IH i Hi) as [H1 [H2 H3]]. split; [now right |]. split.
    + intros v [-> | Hv]; [auto |]. destruct (H2 v Hv); auto.
    + intros v [-> | Hv]; [auto |]. destruct (H3 v Hv); auto.
Qed.

Lemma dedupe_step_kept (tol_xy : Q) (st : dedupe_state) (seen : list hole) (h : hole) :
  kept_ok seen (out st) -> kept_ok (seen ++ [h]) (out (dedupe_step tol_xy st h)).
Proof.
  intros Hk. unfold dedupe_step. cbv zeta.
  destruct (find_near tol_xy st h) as [found |] eqn:Ef; cbn [out];
    [| now apply kept_ok_append].
  unfold find_near in Ef. apply find_in_cells_sound in Ef as [h2 [Ho _]].
  rewrite Ho.
  destruct (Qlt_le_dec (hole_d h2) (hole_d h)) as [Hlt | Hle]; cbn [out].
  - destruct (insert_In (out st) found h h2 Ho) as [H1 [H2 H3]].
    now apply (kept_ok_replace seen (out st) _ h h2).
  - apply (kept_ok_same seen (out st) h h2 Hk); [| exact Hle].
    apply list_elem_of_In, list_elem_of_lookup. eauto.
Qed.

Lemma best_set_In (best : list ((Z * Z) * hole)) (key : Z * Z) (h : hole) :
  In h (map snd (best_set best key h)) /\
  (forall v, In v (map snd (best_set best key h)) -> v = h \/ In v (map snd best)) /\
  (forall v, In v (map snd best) ->
     In v (map snd (best_set best key h)) \/ best_get best key = Some v).
Proof.
  induction best as [| [k v0] r [H1 [H2 H3]]]; cbn [best_set best_get].
  - cbn. split; [now left |]. split; [intros v [<- | []]; now left | intros v []].
  - destruct (key_eqb k key); cbn [map snd In].
    + split; [now left |]. split; intros v [<- | Hv]; auto.
    + split; [now right |]. split.
      * intros v [<- | Hv]; [auto |]. destruct (H2 v Hv); auto.
      * intros v [<- | Hv]; [auto |]. destruct (H3 v Hv); auto.
Qed.

Lemma best_get_In (best : list ((Z * Z) * hole)) (key : Z * Z) (h : hole) :
  best_get best key = Some h -> In h (map snd best).
Proof.
  induction best as [| [k v] r IH]; cbn [best_get]; [discriminate |].
  destruct (key_eqb k key); [intros [= <-]; now left | intros H; right; now apply IH].
Qed.

Lemma best_set_new (best : list ((Z * Z) * hole)) (key : Z * Z) (h : hole) :
  best_get best key = None ->
  map snd (best_set best key h) = map snd best ++ [h].
Proof.
  induction best as [| [k v] r IH]; cbn [best_set best_get]; [reflexivity |].
  destruct (key_eqb k key); [discriminate |]. intros H. cbn. now rewrite IH.
Qed.

Lemma exact_step_kept (best : list ((Z * Z) * hole)) (seen : list hole) (h : hole) :
  kept_ok seen (map snd best) -> kept_ok (seen ++ [h]) (map snd (exact_step best h)).
Proof.
  intros Hk. unfold exact_step. cbv zeta.
  set (key := (round6 (hole_x h), round6 (hole_y h))).
  destruct (best_get best key) as [h0 |] eqn:Eg.
  - destruct (Qlt_le_dec (hole_d h0) (hole_d h)) as [Hlt | Hle].
    + destruct (best_set_In best key h) as [H1 [H2 H3]].
      apply (kept_ok_replace seen (map snd best) _ h h0 Hk Hlt H1 H2).
      intros v Hv. destruct (H3 v Hv) as [Hin | E]; [now left |].
      right. congruence.
    + apply (kept_ok_same seen _ h h0 Hk); [now apply (best_get_In best key) | exact Hle].
  - rewrite best_set_new by exact Eg. now apply kept_ok_append.
Qed.

Lemma fold_kept {S : Type} (f : S -> hole -> S) (kept : S -> list hole) :
  (forall s seen h, kept_ok seen (kept s) -> kept_ok (seen ++ [h]) (kept (f s h))) ->
  forall holes s seen,
    kept_ok seen (kept s) -> kept_ok (seen ++ holes) (kept (fold_left f holes s)).
Proof.
  intros Hf holes. induction holes as [| h r IH]; intros s seen Hk; cbn [fold_left].
  - now rewrite app_nil_r.
  - replace (seen ++ h :: r) with ((seen ++ [h]) ++ r) by (now rewrite <- app_assoc).
    apply IH. now apply Hf.
Qed.

(** X13: de-duplication selects.  Whatever the tolerance, every hole of
    the result is one of the holes given, centre and diameter, and every
    hole given has in the result a hole at least as large: the result is
    never empty for holes given, and the largest diameter always survives. *)
Theorem dedupe_selects (holes : list hole) (tol_xy : Q) :
  (forall h', In h' (dedupe_holes_by_xy holes tol_xy) -> In h' holes) /\
  (forall h, In h holes ->
     exists h', In h' (dedupe_holes_by_xy holes tol_xy) /\ hole_d h <= hole_d h').
Proof.
  assert (H0 : kept_ok [] []) by (split; [intros ? [] | intros ? []]).
  change (kept_ok holes (dedupe_holes_by_xy holes tol_xy)).
  unfold dedupe_holes_by_xy. destruct holes as [| h0 hs] eqn:E; [exact H0 |].
  rewrite <- E. clear E.
  destruct (Qle_bool tol_xy 0).
  - exact (fold_kept exact_step (map snd) exact_step_kept holes [] [] H0).
  - exact (fold_kept (dedupe_step tol_xy) out (dedupe_step_kept tol_xy)
             holes dedupe_init [] H0).
Qed.


(** The key of the exact branch: the position rounded to six decimals. *)
Definition position6 (h : hole) : Z * Z := (round6 (hole_x h), round6 (hole_y h)).

Lemma key_eqb_eq (a b : Z * Z) : key_eqb a b = true <-> a = b.
Proof.
  destruct a as [a1 a2], b as [b1 b2]. unfold key_eqb. cbn [fst snd].
  rewrite andb_true_iff, !Z.eqb_eq. split; [intros [-> ->]; reflexivity |].
  intros [= -> ->]. auto.
Qed.

(** The dictionary [best]: keys without repetition, each the rounded
    position of its hole. *)
Definition best_ok (best : list ((Z * Z) * hole)) : Prop :=
  List.NoDup (map fst best) /\ Forall (fun e => fst e = position6 (snd e)) best.

Lemma best_set_fst (best : list ((Z * Z) * hole)) (key : Z * Z) (h : hole) :
  map fst (best_set best key h)
  = match best_get best key with
    | Some _ => map fst best
    | None => map fst best ++ [key]
    end.
Proof.
  induction best as [| [k v] r IH]; cbn [best_set best_get]; [reflexivity |].
  destruct (key_eqb k key); [reflexivity |].
  cbn [map fst]. rewrite IH. now destruct (best_get r key).
Qed.

Lemma best_get_None (best : list ((Z * Z) * hole)) (key : Z * Z) :
  best_get best key = None -> ~ In key (map fst best).
Proof.
  induction best as [| [k v] r IH]; cbn [best_get]; [intros _ [] |].
  destruct (key_eqb k key) eqn:E; [discriminate |].
  intros H [Hk | Hin]; [| now apply IH].
  cbn in Hk. apply key_eqb_eq in Hk. congruence.
Qed.

Lemma best_set_ok (best : list ((Z * Z) * hole)) (h : hole) :
  best_ok best -> best_ok (best_set best (position6 h) h).
Proof.
  intros [Hnd Hall]. split.
  - rewrite best_set_fst. destruct (best_get best (position6 h)) eqn:E; [exact Hnd |].
    apply best_get_None in E.
    apply (Permutation_NoDup (l := position6 h :: map fst best)).
    + apply Permutation_cons_append.
    + now constructor.
  - clear Hnd. induction Hall as [| [k v] r Hk Hr IH]; cbn [best_set].
    + constructor; [reflexivity | constructor].
    + destruct (key_eqb k (position6 h)) eqn:E.
      * constructor; [| exact Hr]. now apply key_eqb_eq in E.
      * constructor; [exact Hk | exact IH].
Qed.

Lemma exact_step_ok (best : list ((Z * Z) * hole)) (h : hole) :
  best_ok best -> best_ok (exact_step best h).
Proof.
  intros Hb. unfold exact_step. cbv zeta. fold (position6 h).
  destruct (best_get best (position6 h)) as [h0 |]; [| now apply best_set_ok].
  destruct (Qlt_le_dec (hole_d h0) (hole_d h)); [now apply best_set_ok | exact Hb].
Qed.

Lemma best_keys (best : list ((Z * Z) * hole)) :
  Forall (fun e => fst e = position6 (snd e)) best ->
  map fst best = map position6 (map snd best).
Proof.
  induction 1 as [| e r He Hr IH]; [reflexivity |].
  cbn [map]. now rewrite He, IH.
Qed.

(** X14: with a tolerance of zero or less, no two holes of the result have
    the same position to six decimals. *)
Theorem dedupe_exact_distinct (holes : list hole) (tol_xy : Q) :
  tol_xy <= 0 ->
  List.NoDup (map position6 (dedupe_holes_by_xy holes tol_xy)).
Proof.
  intros Htol. unfold dedupe_holes_by_xy.
  destruct holes as [| h0 hs] eqn:E; [constructor |]. rewrite <- E. clear E.
  apply Qle_bool_iff in Htol. rewrite Htol.
  assert (H : best_ok (fold_left exact_step holes [])).
  { assert (G : forall best, best_ok best -> best_ok (fold_left exact_step holes best)).
    { induction holes as [| h r IH]; intros best Hb; cbn [fold_left]; [exact Hb |].
      apply IH. now apply exact_step_ok. }
    apply G. split; constructor. }
  destruct H as [Hnd Hall]. now rewrite <- (best_keys _ Hall).
Qed.

Lemma dedupe_exact_distinct_witness :
  List.NoDup (map position6
                (dedupe_holes_by_xy [(1, 1, 6 # 10); (2, 2, 1); (1, 1, 8 # 10)] 0)).
Proof.
  apply (dedupe_exact_distinct [(1, 1, 6 # 10); (2, 2, 1); (1, 1, 8 # 10)] 0).
  discriminate.
Defined.

End Dedupe.

(* ===================================================================== *)
(** ** The fixed-point decoders: the value and the range of a token *)
(* ===================================================================== *)

Module FixedPointValue.

Import FixedPoint.

Definition pow10 (n : nat) : Z := (10 ^ Z.of_nat n)%Z.

Lemma pow10_pos (n : nat) : (0 < pow10 n)%Z.
Proof. unfold pow10. apply Z.pow_pos_nonneg; lia. Qed.

Lemma pow10_S (n : nat) : pow10 (S n) = (10 * pow10 n)%Z.
Proof. unfold pow10. rewrite Nat2Z.inj_succ, Z.pow_succ_r by lia. reflexivity. Qed.

Lemma pow10_add (n m : nat) : pow10 (n + m) = (pow10 n * pow10 m)%Z.
Proof. unfold pow10. rewrite Nat2Z.inj_add, Z.pow_add_r by lia. reflexivity. Qed.

Lemma fold_digits (s : token) (acc : Z) :
  fold_left (fun a c => (a * 10 + digit_val c)%Z) s acc
  = (acc * pow10 (List.length s) + digits_value s)%Z.
Proof.
  unfold digits_value. revert acc. induction s as [| c r IH]; intros acc.
  - cbn. unfold pow10. cbn. lia.
  - cbn [fold_left List.length]. rewrite IH, (IH (0 * 10 + digit_val c)%Z), pow10_S. lia.
Qed.

Lemma digits_value_app (a b : token) :
  digits_value (a ++ b) = (digits_value a * pow10 (List.length b) + digits_value b)%Z.
Proof.
  unfold digits_value at 1. rewrite fold_left_app. fold (digits_value a).
  apply fold_digits.
Qed.

Lemma digit_val_range (c : ascii) : is_digit c = true -> (0 <= digit_val c <= 9)%Z.
Proof.
  unfold is_digit, digit_val. intros H. apply andb_prop in H as [H1 H2].
  apply Nat.leb_le in H1, H2. lia.
Qed.

Lemma digits_value_range (s : token) :
  digit_token s -> (0 <= digits_value s < pow10 (List.length s))%Z.
Proof.
  unfold digit_token, all_digits.
  induction s as [| c r IH] using rev_ind; intros H.
  - cbn. unfold pow10. cbn. lia.
  - rewrite forallb_app in H. apply andb_prop in H as [Hr Hc].
    cbn in Hc. rewrite andb_true_r in Hc.
    specialize (IH Hr). apply digit_val_range in Hc.
    rewrite digits_value_app, length_app. cbn [List.length].
    rewrite Nat.add_comm. cbn [Nat.add]. rewrite !pow10_S.
    change (digits_value [c]) with (0 * 10 + digit_val c)%Z.
    change (pow10 0) with 1%Z. lia.
Qed.

(** Integer part and decimals, read back as one number. *)
Lemma split_value (n : nat) (k : token) :
  (n <= List.length k)%nat ->
  inject_Z (digits_value (List.firstn n k)) + frac_value (List.skipn n k)
  == inject_Z (digits_value k) / inject_Z (pow10 (List.length k - n)).
Proof.
  intros Hn. unfold frac_value. fold (pow10 (List.length (List.skipn n k))).
  rewrite length_skipn.
  assert (E : digits_value k
              = (digits_value (List.firstn n k) * pow10 (List.length k - n)
                 + digits_value (List.skipn n k))%Z).
  { rewrite <- (firstn_skipn n k) at 1. now rewrite digits_value_app, length_skipn. }
  rewrite E, inject_Z_plus, inject_Z_mult.
  assert (Hp : ~ inject_Z (pow10 (List.length k - n)) == 0).
  { pose proof (pow10_pos (List.length k - n)) as Hp. intros E0.
    apply (Qlt_irrefl 0). rewrite <- E0 at 2.
    change 0 with (inject_Z 0). rewrite <- Zlt_Qlt. exact Hp. }
  field. exact Hp.
Qed.


(** Both decoders, of gerber_parser.py and of excellon_parser.py, return
    [v] on the token [t]. *)
Definition both_decode (t : token) (int_d dec_d : nat) (zm : zero_mode) (v : Q)
    : Prop :=
  _parse_rs274x_coord (Some t) int_d dec_d zm = Some v /\
  _parse_fixed {| ex_format := {| int_digits := int_d; dec_digits := dec_d |};
                  zero_suppression := zm |} (Some t) = Some v.

Lemma decoders_on_digits (neg : bool) (digits : token) (int_d dec_d : nat)
    (zm : zero_mode) :
  digit_token digits -> (1 <= int_d + dec_d)%nat ->
  exists v, both_decode (signed neg digits) int_d dec_d zm v /\
            v == decode_spec int_d dec_d zm neg digits.
Proof.
  intros Hd Hpos. unfold both_decode, _parse_rs274x_coord, _parse_fixed.
  cbn [ex_format int_digits dec_digits zero_suppression].
  rewrite strip_id by (now apply signed_no_space).
  rewrite signed_no_dot by exact Hd.
  destruct (signed neg digits) as [| c r] eqn:Es.
  - assert (neg = false /\ digits = []) as [-> ->]
      by (destruct neg; [discriminate Es | now split]).
    exists 0. split; [split; reflexivity |]. symmetry. apply decode_spec_empty.
  - rewrite <- Es. unfold decode_digits.
    destruct (signed_split neg digits Hd) as [-> ->].
    destruct (decode_body_refines int_d dec_d zm neg digits Hd) as [v [Hv Hspec]].
    replace ((0 <? int_d + dec_d)%nat) with true in Hspec
      by (symmetry; apply Nat.ltb_lt; lia).
    exists v. rewrite Hv. auto.
Qed.

(** The number of the specification is the kept digits, read as one
    integer, over [10 ^ dec_d]. *)
Lemma decode_spec_value (int_d dec_d : nat) (zm : zero_mode) (neg : bool)
    (digits : token) :
  decode_spec int_d dec_d zm neg digits
  == with_sign neg (inject_Z (digits_value (kept_spec (int_d + dec_d) zm digits))
                    / inject_Z (pow10 dec_d)).
Proof.
  unfold decode_spec. cbv zeta.
  pose proof (kept_spec_length (int_d + dec_d) zm digits) as Hlen.
  set (k := kept_spec (int_d + dec_d) zm digits) in *.
  fold (with_sign neg (inject_Z (digits_value (List.firstn int_d k))
                       + frac_value (List.skipn int_d k))).
  apply with_sign_proper. rewrite split_value by lia.
  replace (List.length k - int_d)%nat with dec_d by lia. reflexivity.
Qed.

(** What zero suppression does to a token that is not too long. *)
Definition scale (zm : zero_mode) (total len : nat) : Z :=
  match zm with
  | L => 1%Z
  | T => pow10 (total - len)
  end.

Lemma kept_spec_value (total : nat) (zm : zero_mode) (digits : token) :
  (List.length digits <= total)%nat ->
  digits_value (kept_spec total zm digits)
  = (digits_value digits * scale zm total (List.length digits))%Z.
Proof.
  intros Hlen. unfold kept_spec.
  replace ((total <? List.length digits)%nat) with false
    by (symmetry; apply Nat.ltb_ge; lia).
  destruct zm; unfold rjust0, ljust0, scale; rewrite digits_value_app.
  - rewrite digits_value_zeros. lia.
  - rewrite digits_value_zeros, repeat_length. lia.
Qed.

(** X15: the value of a fixed-point token.  Under a format with digits, a
    token of at most [int_d + dec_d] digits, signed or not, is decoded by
    both decoders to its digits read as an integer and divided by
    [10 ^ dec_d]; under trailing-zero suppression the integer is first
    multiplied by 10 for each missing digit. *)
Theorem fixed_point_value (neg : bool) (digits : token) (int_d dec_d : nat)
    (zm : zero_mode) :
  all_digits digits = true ->
  (1 <= int_d + dec_d)%nat ->
  (List.length digits <= int_d + dec_d)%nat ->
  exists v,
    both_decode (signed neg digits) int_d dec_d zm v /\
    v == with_sign neg
           (inject_Z (digits_value digits
                      * scale zm (int_d + dec_d) (List.length digits))
            / inject_Z (pow10 dec_d)).
Proof.
  intros Hd Hpos Hlen.
  destruct (decoders_on_digits neg digits int_d dec_d zm Hd Hpos) as [v [Hv Hs]].
  exists v. split; [exact Hv |].
  rewrite Hs, decode_spec_value. apply with_sign_proper.
  now rewrite kept_spec_value.
Qed.

(** X16: the range of a decoded coordinate.  Under a format with digits,
    whatever the length of a digit token, both decoders return a number
    smaller in magnitude than [10 ^ int_d]: digits beyond the format are
    cut off, not rejected. *)
Theorem fixed_point_range (neg : bool) (digits : token) (int_d dec_d : nat)
    (zm : zero_mode) :
  all_digits digits = true ->
  (1 <= int_d + dec_d)%nat ->
  exists v,
    both_decode (signed neg digits) int_d dec_d zm v /\
    - inject_Z (pow10 int_d) < v /\ v < inject_Z (pow10 int_d).
Proof.
  intros Hd Hpos.
  destruct (decoders_on_digits neg digits int_d dec_d zm Hd Hpos) as [v [Hv Hs]].
  exists v. split; [exact Hv |].
  rewrite Hs, decode_spec_value.
  pose proof (digits_value_range _ (kept_spec_digits (int_d + dec_d) zm digits Hd))
    as [H0 H1].
  rewrite kept_spec_length, pow10_add in H1.
  set (n := digits_value (kept_spec (int_d + dec_d) zm digits)) in *.
  pose proof (pow10_pos dec_d) as Hp. pose proof (pow10_pos int_d) as Hi.
  assert (Hq : 0 < inject_Z (pow10 dec_d))
    by (change 0 with (inject_Z 0); now rewrite <- Zlt_Qlt).
  assert (Hi' : 0 < inject_Z (pow10 int_d))
    by (change 0 with (inject_Z 0); now rewrite <- Zlt_Qlt).
  assert (Hlo : 0 <= inject_Z n / inject_Z (pow10 dec_d)).
  { apply Qle_shift_div_l; [exact Hq |]. rewrite Qmult_0_l.
    change 0 with (inject_Z 0). now rewrite <- Zle_Qle. }
  assert (Hhi : inject_Z n / inject_Z (pow10 dec_d) < inject_Z (pow10 int_d)).
  { apply Qlt_shift_div_r; [exact Hq |].
    rewrite <- inject_Z_mult, <- Zlt_Qlt. exact H1. }
  destruct neg; cbn [with_sign]; lra.
Qed.

Lemma fixed_point_value_witness :
  exists v,
    both_decode (signed true (tok "15")) 3 3 T v /\
    v == with_sign true
           (inject_Z (digits_value (tok "15") * scale T (3 + 3) (List.length (tok "15")))
            / inject_Z (pow10 3)).
Proof.
  apply (fixed_point_value true (tok "15") 3 3 T); [reflexivity | cbn; lia | cbn; lia].
Defined.

Lemma fixed_point_range_witness :
  exists v,
    both_decode (signed true (tok "1234567")) 2 3 L v /\
    - inject_Z (pow10 2) < v /\ v < inject_Z (pow10 2).
Proof.
  apply (fixed_point_range true (tok "1234567") 2 3 L); [reflexivity | cbn; lia].
Defined.

End FixedPointValue.

(* ===================================================================== *)
(** ** board_outline.py: the outline walk for every perimeter *)
(* ===================================================================== *)

Module OutlineWalk.

Import Outline.

Lemma nat_step (n : nat) :
  inject_Z (Z.of_nat (S n)) * step == inject_Z (Z.of_nat n) * step + step.
Proof.
  rewrite Nat2Z.inj_succ. unfold Z.succ. rewrite inject_Z_plus.
  change (inject_Z 1) with 1. unfold step. lra.
Qed.

(** The walk from [dist] ends after [n] rounds when [n] half millimetres
    cover what is left and [n - 1] do not; its descents are half a
    millimetre apart. *)
Lemma walk_dists_marks (length : Q) (n : nat) (dist : Q) :
  length - dist <= inject_Z (Z.of_nat n) * step ->
  (n = 0%nat \/ inject_Z (Z.of_nat n) * step - step < length - dist) ->
  exists l,
    walk_dists n length dist = Some l /\
    List.length l = n /\
    forall i x, List.nth_error l i = Some x ->
      x == dist + inject_Z (Z.of_nat i) * step /\ x < length.
Proof.
  revert dist. induction n as [| n IH]; intros dist Hhi Hlo; cbn [walk_dists].
  - change (inject_Z (Z.of_nat 0)) with 0 in Hhi.
    destruct (Qlt_le_dec dist length) as [Hlt | Hge]; [lra |].
    exists []. split; [reflexivity |]. split; [reflexivity |].
    intros [| i] x H; discriminate H.
  - destruct Hlo as [Hlo | Hlo]; [discriminate |].
    rewrite nat_step in Hhi, Hlo.
    assert (Hn : 0 <= inject_Z (Z.of_nat n) * step).
    { apply Qmult_le_0_compat; [| unfold step; lra].
      change 0 with (inject_Z 0). rewrite <- Zle_Qle. lia. }
    destruct (Qlt_le_dec dist length) as [Hlt | Hge]; [| lra].
    set (d2 := Qmin (dist + step) length).
    assert (Hd2 : (dist + step < length /\ d2 == dist + step)
                  \/ (length <= dist + step /\ d2 == length))
      by apply Q.min_spec.
    assert (Hcase : (n = 0%nat /\ d2 == length) \/ (n <> 0%nat /\ d2 == dist + step)).
    { destruct n as [| m].
      - left. split; [reflexivity |].
        change (inject_Z (Z.of_nat 0)) with 0 in Hhi.
        destruct Hd2 as [[H1 H2] | [H1 H2]]; [lra | exact H2].
      - right. split; [discriminate |].
        rewrite nat_step in Hlo.
        assert (0 <= inject_Z (Z.of_nat m) * step).
        { apply Qmult_le_0_compat; [| unfold step; lra].
          change 0 with (inject_Z 0). rewrite <- Zle_Qle. lia. }
        destruct Hd2 as [[H1 H2] | [H1 H2]]; [exact H2 | unfold step in *; lra]. }
    destruct (IH d2) as [l [El [Hlen Hl]]].
    + destruct Hcase as [[_ E] | [_ E]]; rewrite E; lra.
    + destruct Hcase as [[E _] | [_ E]]; [now left | right; rewrite E; lra].
    + rewrite El. cbn [option_map]. exists (dist :: l).
      split; [reflexivity |]. split; [cbn; now rewrite Hlen |].
      intros [| i] x Hx; cbn in Hx.
      * injection Hx as <-. change (inject_Z (Z.of_nat 0)) with 0. split; lra.
      * destruct (Hl i x Hx) as [H1 H2]. split; [| exact H2].
        rewrite H1, nat_step.
        destruct Hcase as [[E _] | [_ E]].
        -- subst n. destruct l; [destruct i; discriminate Hx | discriminate Hlen].
        -- rewrite E. lra.
Qed.

Lemma walk_fuel_covers (length : Q) :
  length - 0 <= inject_Z (Z.of_nat (walk_fuel length 0)) * step /\
  (walk_fuel length 0 = 0%nat \/
   inject_Z (Z.of_nat (walk_fuel length 0)) * step - step < length - 0).
Proof.
  unfold walk_fuel.
  set (q := (length - 0) / step).
  assert (Eq : length - 0 == q * step) by (unfold q, step; field).
  pose proof (Qle_ceiling q) as Hc.
  pose proof (Qceiling_lt q) as Hl.
  unfold Z.sub in Hl. rewrite inject_Z_plus, inject_Z_opp in Hl.
  change (inject_Z 1) with 1 in Hl.
  destruct (Z_lt_le_dec 0 (Qceiling q)) as [Hpos | Hneg].
  - rewrite Z2Nat.id by lia. split; [| right]; unfold step in *; lra.
  - assert (E : Z.to_nat (Qceiling q) = 0%nat) by lia. rewrite E.
    split; [| now left].
    change (inject_Z (Z.of_nat 0)) with 0.
    assert (inject_Z (Qceiling q) <= 0)
      by (change 0 with (inject_Z 0); now rewrite <- Zle_Qle).
    unfold step in *. lra.
Qed.

(** X17: the outline walk, for every perimeter.  The loop over the outline
    always ends; it descends once every half millimetre, at the arc lengths
    0, 0.5, 1, ... below the perimeter; each descent goes to the full
    board thickness, or to 0.75 of it when the arc length is within 0.5 mm
    of a tab position; and with tabs disabled every descent goes to the
    full thickness. *)
Theorem outline_walk_every_length (tabs_enabled : bool) (pcb_thickness length : Q) :
  exists cuts,
    outline_cuts tabs_enabled pcb_thickness length = Some cuts /\
    List.length cuts = walk_fuel length 0 /\
    forall i c, List.nth_error cuts i = Some c ->
      at_dist c == inject_Z (Z.of_nat i) * (1 # 2) /\
      at_dist c < length /\
      cut_z c = - (if is_in_tab (tab_positions tabs_enabled length) (at_dist c)
                   then pcb_thickness * (75 # 100)
                   else pcb_thickness) /\
      (tabs_enabled = false -> cut_z c = - pcb_thickness).
Proof.
  destruct (walk_fuel_covers length) as [Hhi Hlo].
  destruct (walk_dists_marks length _ 0 Hhi Hlo) as [l [El [Hlen Hl]]].
  unfold outline_cuts. rewrite walk_trace, El. cbn [option_map].
  eexists. split; [reflexivity |]. split; [now rewrite length_map |].
  intros i c Hc. rewrite nth_error_map in Hc.
  destruct (List.nth_error l i) as [x |] eqn:Ex; [| discriminate].
  cbn in Hc. injection Hc as <-. cbn [at_dist cut_z].
  destruct (Hl i x Ex) as [H1 H2].
  split; [rewrite H1; unfold step; lra |]. split; [exact H2 |].
  split; [reflexivity |]. intros ->. reflexivity.
Qed.

End OutlineWalk.

(* ===================================================================== *)
(** ** job_config.py: the file prefix *)
(* ===================================================================== *)

Module JobConfig.

Section Prefix.

(** The characters of a Python string, and what [str] decides about
    them: [ch.isalnum()], membership in the whitespace that [strip()]
    removes, and equality with "-" and with "_". *)
Context {char : Type}.
Variable isalnum : char -> bool.
Variable isspace : char -> bool.
Variable is_dash : char -> bool.
Variable is_underscore : char -> bool.
Variable underscore : char.

Fixpoint lstrip (s : list char) : list char :=
  match s with
  | [] => []
  | c :: r => if isspace c then lstrip r else s
  end.

(** [p.strip()] *)
Definition strip (s : list char) : list char :=
  List.rev (lstrip (List.rev (lstrip s))).

(** [ch.isalnum() or ch in ("-", "_")] *)
Definition safe (ch : char) : bool := isalnum ch || is_dash ch || is_underscore ch.

(** [p.endswith("_") or p.endswith("-")] *)
Definition ends_with_separator (p : list char) : bool :=
  match List.rev p with
  | [] => false
  | c :: _ => is_underscore c || is_dash c
  end.

(** [_normalize_file_prefix]; the empty list stands for [None] and for
    the empty string alike ([p or ""]). *)
Definition _normalize_file_prefix (p : list char) : list char :=
  let p := strip p in
  match p with
  | [] => []
  | _ =>
      let p := List.filter safe p in
      match p with
      | [] => []
      | _ => if ends_with_separator p then p else p ++ [underscore]
      end
  end.

Hypothesis underscore_is : is_underscore underscore = true.
Hypothesis space_unsafe : forall c, isspace c = true -> safe c = false.

Lemma lstrip_safe (s : list char) : Forall (fun c => safe c = true) s -> lstrip s = s.
Proof.
  destruct 1 as [| c r Hc Hr]; [reflexivity |]. cbn [lstrip].
  destruct (isspace c) eqn:E; [| reflexivity].
  apply space_unsafe in E. congruence.
Qed.

Lemma strip_safe (s : list char) : Forall (fun c => safe c = true) s -> strip s = s.
Proof.
  intros H. unfold strip. rewrite (lstrip_safe s H).
  rewrite lstrip_safe; [apply rev_involutive |].
  apply Forall_forall. intros c Hc. apply in_rev in Hc.
  rewrite Forall_forall in H. now apply H.
Qed.

Lemma filter_safe (s : list char) :
  Forall (fun c => safe c = true) s -> List.filter safe s = s.
Proof.
  induction 1 as [| c r Hc Hr IH]; [reflexivity |]. cbn [List.filter].
  now rewrite Hc, IH.
Qed.

Lemma ends_with_separator_snoc (p : list char) :
  ends_with_separator (p ++ [underscore]) = true.
Proof.
  unfold ends_with_separator. rewrite rev_app_distr. cbn.
  now rewrite underscore_is.
Qed.

Lemma normalize_cases (p : list char) :
  _normalize_file_prefix p = [] \/
  (_normalize_file_prefix p <> [] /\
   Forall (fun c => safe c = true) (_normalize_file_prefix p) /\
   ends_with_separator (_normalize_file_prefix p) = true).
Proof.
  unfold _normalize_file_prefix. cbv zeta.
  destruct (strip p) as [| c0 r0] eqn:Es; [now left |]. rewrite <- Es. clear Es.
  assert (Hf : Forall (fun c => safe c = true) (List.filter safe (strip p))).
  { apply Forall_forall. intros c Hc. now apply filter_In in Hc as [_ Hc]. }
  destruct (List.filter safe (strip p)) as [| c r] eqn:Ef; [now left |].
  rewrite <- Ef in *. right.
  destruct (ends_with_separator (List.filter safe (strip p))) eqn:Ee.
  - split; [rewrite Ef; discriminate |]. split; [exact Hf | exact Ee].
  - split; [rewrite Ef; discriminate |]. split.
    + apply Forall_app. split; [exact Hf |]. constructor; [| constructor].
      unfold safe. rewrite underscore_is. now rewrite orb_true_r.
    + apply ends_with_separator_snoc.
Qed.

(** X18: the shape of a normalised file prefix.  The result is empty, or
    it holds only letters, digits, "-" and "_" and ends with "-" or "_"; it
    is empty exactly when the prefix, stripped, holds no such character;
    and normalising it again changes nothing. *)
Theorem normalize_file_prefix_shape (p : list char) :
  let r := _normalize_file_prefix p in
  Forall (fun c => safe c = true) r /\
  (r <> [] -> ends_with_separator r = true) /\
  (r = [] <-> List.filter safe (strip p) = []) /\
  _normalize_file_prefix r = r.
Proof.
  cbv zeta. split; [| split; [| split]].
  - destruct (normalize_cases p) as [-> | [_ [H _]]]; [constructor | exact H].
  - intros Hne. destruct (normalize_cases p) as [E | [_ [_ H]]]; [contradiction | exact H].
  - unfold _normalize_file_prefix. cbv zeta.
    destruct (strip p) as [| c0 r0] eqn:Es; [cbn; tauto |]. rewrite <- Es. clear Es.
    destruct (List.filter safe (strip p)) as [| c r] eqn:Ef; [tauto |].
    rewrite <- Ef. split; [| intros E; rewrite E in Ef; discriminate].
    destruct (ends_with_separator (List.filter safe (strip p))); rewrite Ef;
      [discriminate | intros E; destruct r; discriminate E].
  - destruct (normalize_cases p) as [-> | [Hne [Hs He]]]; [reflexivity |].
    set (r := _normalize_file_prefix p) in *.
    unfold _normalize_file_prefix at 1. cbv zeta.
    rewrite (strip_safe r Hs), (filter_safe r Hs), He.
    destruct r; [contradiction | reflexivity].
Qed.

End Prefix.

(** ASCII letters and digits, for the examples. *)
Definition ascii_isalnum (c : ascii) : bool :=
  let n := nat_of_ascii c in
  ((48 <=? n) && (n <=? 57) || (65 <=? n) && (n <=? 90) || (97 <=? n) && (n <=? 122))%nat.

Definition ascii_prefix (s : string) : string :=
  string_of_list_ascii
    (_normalize_file_prefix ascii_isalnum FixedPoint.is_space
       (Ascii.eqb "-"%char) (Ascii.eqb "_"%char) "_"%char (list_ascii_of_string s)).

Example normalize_examples :
  ascii_prefix "  my board/v2 " = "myboardv2_"%string /\
  ascii_prefix "job-" = "job-"%string /\
  ascii_prefix " ../ " = ""%string.
Proof. repeat split; vm_compute; reflexivity. Qed.


Lemma ascii_space_unsafe (c : ascii) :
  FixedPoint.is_space c = true ->
  safe ascii_isalnum (Ascii.eqb "-"%char) (Ascii.eqb "_"%char) c = false.
Proof.
  destruct c as [[] [] [] [] [] [] [] []]; vm_compute; intros H;
    first [reflexivity | discriminate H].
Qed.

Lemma normalize_file_prefix_shape_witness :
  let r := _normalize_file_prefix ascii_isalnum FixedPoint.is_space
             (Ascii.eqb "-"%char) (Ascii.eqb "_"%char) "_"%char
             (list_ascii_of_string "  my board/v2 ") in
  Forall (fun c => safe ascii_isalnum (Ascii.eqb "-"%char) (Ascii.eqb "_"%char) c = true) r /\
  (r <> [] -> ends_with_separator (Ascii.eqb "-"%char) (Ascii.eqb "_"%char) r = true) /\
  (r = [] <->
   List.filter (safe ascii_isalnum (Ascii.eqb "-"%char) (Ascii.eqb "_"%char))
     (strip FixedPoint.is_space (list_ascii_of_string "  my board/v2 ")) = []) /\
  _normalize_file_prefix ascii_isalnum FixedPoint.is_space
    (Ascii.eqb "-"%char) (Ascii.eqb "_"%char) "_"%char r = r.
Proof.
  apply (normalize_file_prefix_shape ascii_isalnum FixedPoint.is_space
           (Ascii.eqb "-"%char) (Ascii.eqb "_"%char) "_"%char).
  - reflexivity.
  - exact ascii_space_unsafe.
Defined.

End JobConfig.

(* ===================================================================== *)
(** ** excellon_parser.py: [parse_excellon_file] *)
(* ===================================================================== *)

Module ExcellonParse.

Import FixedPoint.

Definition pt : Type := Q * Q.

(** A line, by the first test of the loop that it passes.  The tokens
    are the groups of the matching pattern; a tool is named by the digits
    after its "T". *)
Inductive xline :=
| XBlank                                  (* empty after strip *)
| XComment (fmt : option (nat * nat))     (* ; ... with or without FILE_FORMAT=i:d *)
| XUnitHdr (metric lz : bool)             (* METRIC,LZ  INCH,TZ ... *)
| XMetric                                 (* METRIC in line, or M71 *)
| XInch                                   (* INCH in line, or M72 *)
| XM15
| XM16
| XToolDef (tid : string) (diam : token)  (* T01C0.800 *)
| XToolSel (tid : string)                 (* T01 *)
| XG85 (x1 y1 x2 y2 : token)              (* X..Y..G85X..Y.. *)
| XCoord (xy : option (token * token))    (* X and Y in line; the groups of hole_re *)
| XOther.

Inductive xwarning :=
| XWInvalidDiameter (line_no : nat)
| XWSelectedUndefined (line_no : nat) (tid : string)
| XWBadG85 (line_no : nat)
| XWBadXY (line_no : nat)
| XWUndefinedTool (line_no : nat) (tid : string)
| XWNoUnits
| XWNoToolDefs
| XWLargeExtents
| XWSmallExtents.

(** [ExcellonParseError(msg)] *)
Inductive ExcellonParseError := XParseError (w : xwarning).

(** An [ExcellonTool]: its diameter and its holes. *)
Definition tool : Type := Q * list pt.

(** The [ExcellonFile] under construction and the variables of the
    loop.  [tools] is a dictionary that keeps insertion order. *)
Record xstate := {
  tools : list (string * tool);
  units_inch : bool;
  zero_supp : zero_mode;
  fmt : format;
  slots : list (pt * pt * Q);
  current_tool : option string;
  unit_scale : Q;
  route_mode : bool;
  last_route_xy : option pt;
  saw_units : bool;
  saw_any_tool_def : bool;
  holes_for_bounds : list pt;
  line_no : nat;
  warnings : list xwarning
}.

Definition init_state : xstate :=
  {| tools := []; units_inch := false; zero_supp := L;
     fmt := {| int_digits := 3; dec_digits := 3 |}; slots := [];
     current_tool := None; unit_scale := 1; route_mode := false;
     last_route_xy := None; saw_units := false; saw_any_tool_def := false;
     holes_for_bounds := []; line_no := 0; warnings := [] |}.

(** Field updates. *)
Definition set_data (st : xstate) (t : list (string * tool)) (s : list (pt * pt * Q))
    (def : bool) (b : list pt) : xstate :=
  {| tools := t; units_inch := units_inch st; zero_supp := zero_supp st;
     fmt := fmt st; slots := s; current_tool := current_tool st;
     unit_scale := unit_scale st; route_mode := route_mode st;
     last_route_xy := last_route_xy st; saw_units := saw_units st;
     saw_any_tool_def := def; holes_for_bounds := b;
     line_no := line_no st; warnings := warnings st |}.

Definition set_conf (st : xstate) (inch : bool) (zs : zero_mode) (f : format)
    (scale : Q) (su : bool) : xstate :=
  {| tools := tools st; units_inch := inch; zero_supp := zs;
     fmt := f; slots := slots st; current_tool := current_tool st;
     unit_scale := scale; route_mode := route_mode st;
     last_route_xy := last_route_xy st; saw_units := su;
     saw_any_tool_def := saw_any_tool_def st; holes_for_bounds := holes_for_bounds st;
     line_no := line_no st; warnings := warnings st |}.

Definition set_cursor (st : xstate) (cur : option string) (route : bool)
    (last : option pt) : xstate :=
  {| tools := tools st; units_inch := units_inch st; zero_supp := zero_supp st;
     fmt := fmt st; slots := slots st; current_tool := cur;
     unit_scale := unit_scale st; route_mode := route;
     last_route_xy := last; saw_units := saw_units st;
     saw_any_tool_def := saw_any_tool_def st; holes_for_bounds := holes_for_bounds st;
     line_no := line_no st; warnings := warnings st |}.

Definition next_line (st : xstate) : xstate :=
  {| tools := tools st; units_inch := units_inch st; zero_supp := zero_supp st;
     fmt := fmt st; slots := slots st; current_tool := current_tool st;
     unit_scale := unit_scale st; route_mode := route_mode st;
     last_route_xy := last_route_xy st; saw_units := saw_units st;
     saw_any_tool_def := saw_any_tool_def st; holes_for_bounds := holes_for_bounds st;
     line_no := S (line_no st); warnings := warnings st |}.

Definition log (st : xstate) (w : xwarning) : xstate :=
  {| tools := tools st; units_inch := units_inch st; zero_supp := zero_supp st;
     fmt := fmt st; slots := slots st; current_tool := current_tool st;
     unit_scale := unit_scale st; route_mode := route_mode st;
     last_route_xy := last_route_xy st; saw_units := saw_units st;
     saw_any_tool_def := saw_any_tool_def st; holes_for_bounds := holes_for_bounds st;
     line_no := line_no st; warnings := warnings st ++ [w] |}.

(** [_warn(lg, msg, strict=strict)]: log, and raise when strict. *)
Definition _warn (st : xstate) (w : xwarning) (strict : bool)
    : ExcellonParseError + xstate :=
  if strict then inl (XParseError w) else inr (log st w).

(** [self.tools.get(tool_id)] *)
Fixpoint tool_get (t : list (string * tool)) (tid : string) : option tool :=
  match t with
  | [] => None
  | (k, v) :: r => if String.eqb k tid then Some v else tool_get r tid
  end.

(** [self.tools[tool_id] = v] *)
Fixpoint tool_set (t : list (string * tool)) (tid : string) (v : tool)
    : list (string * tool) :=
  match t with
  | [] => [(tid, v)]
  | (k, v0) :: r =>
      if String.eqb k tid then (k, v) :: r else (k, v0) :: tool_set r tid v
  end.

(** [add_tool]: a fresh [ExcellonTool], without holes. *)
Definition add_tool (t : list (string * tool)) (tid : string) (diameter : Q)
    : list (string * tool) :=
  tool_set t tid (diameter, []).

(** [add_hole] *)
Definition add_hole (t : list (string * tool)) (tid : string) (p : pt)
    : list (string * tool) :=
  match tool_get t tid with
  | Some (d, holes) => tool_set t tid (d, holes ++ [p])
  | None => t
  end.

(** [add_slot] *)
Definition add_slot (t : list (string * tool)) (s : list (pt * pt * Q))
    (tid : string) (p1 p2 : pt) : list (pt * pt * Q) :=
  match tool_get t tid with
  | Some (w, _) => s ++ [(p1, p2, w)]
  | None => s
  end.

(** [all_holes] and [all_slots] *)
Definition all_holes (st : xstate) : list (Q * Q * Q) :=
  flat_map (fun e => map (fun p => (fst p, snd p, fst (snd e))) (snd (snd e))) (tools st).
Definition all_slots (st : xstate) : list (pt * pt * Q) := slots st.

(** [ex.parse_xy(tok) * unit_scale] under a format, a zero suppression
    and a unit scale; [None] when the token does not parse. *)
Definition coord_at (f : format) (zs : zero_mode) (scale : Q) (t : token) : option Q :=
  option_map (fun v => v * scale)
    (_parse_fixed {| ex_format := f; zero_suppression := zs |} (Some t)).

Definition point_at (f : format) (zs : zero_mode) (scale : Q) (xt yt : token)
    : option pt :=
  match coord_at f zs scale xt, coord_at f zs scale yt with
  | Some x, Some y => Some (x, y)
  | _, _ => None
  end.

Definition point_of (st : xstate) (xt yt : token) : option pt :=
  point_at (fmt st) (zero_supp st) (unit_scale st) xt yt.

(** The coordinate line of a defined tool: a hole, or the next end
    point of a routed slot. *)
Definition hit (st : xstate) (tid : string) (p : pt) : xstate :=
  let st :=
    if route_mode st then
      match last_route_xy st with
      | None => set_cursor st (current_tool st) (route_mode st) (Some p)
      | Some p1 =>
          set_cursor
            (set_data st (tools st) (add_slot (tools st) (slots st) tid p1 p)
                      (saw_any_tool_def st) (holes_for_bounds st))
            (current_tool st) (route_mode st) (Some p)
      end
    else set_data st (add_hole (tools st) tid p) (slots st)
                  (saw_any_tool_def st) (holes_for_bounds st) in
  set_data st (tools st) (slots st) (saw_any_tool_def st) (holes_for_bounds st ++ [p]).

(** One round of [for raw in f].  A FILE_FORMAT comment holds two
    numbers of digits, so [set_format] cannot fail on it. *)
Definition step (strict : bool) (st : xstate) (l : xline)
    : ExcellonParseError + xstate :=
  let st := next_line st in
  match l with
  | XBlank | XOther => inr st
  | XComment None => inr st
  | XComment (Some (i, d)) =>
      inr (set_conf st (units_inch st) (zero_supp st)
                    {| int_digits := i; dec_digits := d |} (unit_scale st) (saw_units st))
  | XUnitHdr metric lz =>
      inr (set_conf st (negb metric) (if lz then L else T) (fmt st)
                    (if metric then 1 else 254 # 10) true)
  | XMetric => inr (set_conf st false (zero_supp st) (fmt st) 1 true)
  | XInch => inr (set_conf st true (zero_supp st) (fmt st) (254 # 10) true)
  | XM15 => inr (set_cursor st (current_tool st) true (last_route_xy st))
  | XM16 => inr (set_cursor st (current_tool st) false None)
  | XToolDef tid diam =>
      match parse_float diam with
      | None => _warn st (XWInvalidDiameter (line_no st)) strict
      | Some v =>
          inr (set_data st (add_tool (tools st) tid (v * unit_scale st)) (slots st)
                        true (holes_for_bounds st))
      end
  | XToolSel tid =>
      let st := set_cursor st (Some tid) (route_mode st) None in
      match tool_get (tools st) tid with
      | None => inr (log st (XWSelectedUndefined (line_no st) tid))
      | Some _ => inr st
      end
  | XG85 x1 y1 x2 y2 =>
      match current_tool st with
      | None => inr st
      | Some tid =>
          match point_of st x1 y1, point_of st x2 y2 with
          | Some p1, Some p2 =>
              inr (set_data st (tools st) (add_slot (tools st) (slots st) tid p1 p2)
                            (saw_any_tool_def st) (holes_for_bounds st ++ [p1; p2]))
          | _, _ => _warn st (XWBadG85 (line_no st)) strict
          end
      end
  | XCoord xy =>
      match current_tool st, xy with
      | Some tid, Some (xt, yt) =>
          match point_of st xt yt with
          | None => _warn st (XWBadXY (line_no st)) strict
          | Some p =>
              match tool_get (tools st) tid with
              | None => inr (log st (XWUndefinedTool (line_no st) tid))
              | Some _ => inr (hit st tid p)
              end
          end
      | _, _ => inr st
      end
  end.

(** The loop over the lines; an error ends it. *)
Fixpoint run (strict : bool) (st : xstate) (lines : list xline)
    : ExcellonParseError + xstate :=
  match lines with
  | [] => inr st
  | l :: rest =>
      match step strict st l with
      | inl e => inl e
      | inr st => run strict st rest
      end
  end.

Definition Qmax_list (d : Q) (l : list Q) : Q := fold_left Qmax l d.
Definition Qmin_list (d : Q) (l : list Q) : Q := fold_left Qmin l d.

(** The closing warnings, never strict. *)
Definition closing_warnings (st : xstate) : xstate :=
  let st := if saw_units st then st else log st XWNoUnits in
  let st := if saw_any_tool_def st then st else log st XWNoToolDefs in
  match holes_for_bounds st with
  | [] => st
  | p :: r =>
      let xs := map fst r in
      let ys := map snd r in
      let w := Qmax_list (fst p) xs - Qmin_list (fst p) xs in
      let h := Qmax_list (snd p) ys - Qmin_list (snd p) ys in
      let st := if Qlt_le_dec 2000 w then log st XWLargeExtents
                else if Qlt_le_dec 2000 h then log st XWLargeExtents else st in
      if Qlt_le_dec w (1 # 100) then log st XWSmallExtents
      else if Qlt_le_dec h (1 # 100) then log st XWSmallExtents else st
  end.

(** [parse_excellon_file] on the lines of an existing file. *)
Definition parse_excellon_file (strict : bool) (lines : list xline)
    : ExcellonParseError + xstate :=
  match run strict init_state lines with
  | inl e => inl e
  | inr st => inr (closing_warnings st)
  end.

Example parse_example :
  match parse_excellon_file false
          [ XUnitHdr true true; XToolDef "01" (tok "0.800"); XToolSel "01";
            XCoord (Some (tok "001000", tok "002000"));
            XM15; XCoord (Some (tok "000000", tok "000000"));
            XCoord (Some (tok "005000", tok "000000")); XM16 ] with
  | inr ex => (map (fun h => (Qred (fst (fst h)), Qred (snd (fst h)), Qred (snd h)))
                   (all_holes ex),
               map (fun s => (Qred (fst (snd (fst s))), Qred (snd s))) (all_slots ex),
               warnings ex)
  | inl _ => ([], [], [])
  end = ([(1, 2, 4 # 5)], [(5, 4 # 5)], []).
Proof. vm_compute. reflexivity. Qed.


(** *** Strict and non-strict parsing *)

(** The strict call returns what the non-strict call returns and
    nothing is logged, or it raises, and the non-strict call logs at least
    the warning raised; [ws] are the warnings logged before the call. *)
Definition agree (ws : list xwarning) (r_strict r_lax : ExcellonParseError + xstate)
    : Prop :=
  match r_strict with
  | inr st' => r_lax = inr st'
  | inl (XParseError w) => exists st', r_lax = inr st' /\ warnings st' = ws ++ [w]
  end.

Lemma xagree_warn (st : xstate) (w : xwarning) :
  agree (warnings st) (_warn st w true) (_warn st w false).
Proof. cbn. eexists. split; reflexivity. Qed.

Lemma xstep_agree (st : xstate) (l : xline) :
  agree (warnings st) (step true st l) (step false st l).
Proof.
  unfold step. cbv zeta.
  change (warnings st) with (warnings (next_line st)).
  generalize (next_line st) as s. intros s.
  destruct l as [| [[i d] |] | | | | | | tid diam | tid | x1 y1 x2 y2 | [[xt yt] |] |];
    try reflexivity.
  - destruct (parse_float diam); [reflexivity | apply xagree_warn].
  - now destruct (tool_get _ tid).
  - destruct (current_tool s); [| reflexivity].
    destruct (point_of s x1 y1); [destruct (point_of s x2 y2) |];
      first [reflexivity | apply xagree_warn].
  - destruct (current_tool s) as [tid |]; [| reflexivity].
    destruct (point_of s xt yt); [| apply xagree_warn].
    now destruct (tool_get (tools s) tid).
  - now destruct (current_tool s).
Qed.

Lemma xstep_lax (st : xstate) (l : xline) :
  exists st' ws, step false st l = inr st' /\ warnings st' = warnings st ++ ws.
Proof.
  unfold step. cbv zeta.
  change (warnings st) with (warnings (next_line st)).
  generalize (next_line st) as s. intros s.
  assert (H0 : forall s', warnings s' = warnings s ->
             exists st' ws, @inr ExcellonParseError _ s' = inr st'
                            /\ warnings st' = warnings s ++ ws).
  { intros s' E. exists s', []. now rewrite app_nil_r. }
  assert (H1 : forall w,
             exists st' ws, _warn s w false = inr st'
                            /\ warnings st' = warnings s ++ ws).
  { intros w. exists (log s w), [w]. split; reflexivity. }
  destruct l as [| [[i d] |] | | | | | | tid diam | tid | x1 y1 x2 y2 | [[xt yt] |] |];
    try (now apply H0).
  - destruct (parse_float diam); [now apply H0 | apply H1].
  - destruct (tool_get _ tid); [now apply H0 |].
    eexists _, [_]. split; reflexivity.
  - destruct (current_tool s); [| now apply H0].
    destruct (point_of s x1 y1); [destruct (point_of s x2 y2) |];
      first [now apply H0 | apply H1].
  - destruct (current_tool s) as [tid |]; [| now apply H0].
    destruct (point_of s xt yt) as [p |]; [| apply H1].
    destruct (tool_get (tools s) tid); [| eexists _, [_]; split; reflexivity].
    apply H0. unfold hit. now destruct (route_mode s), (last_route_xy s).
  - destruct (current_tool s); now apply H0.
Qed.

Lemma xrun_lax (lines : list xline) (st : xstate) :
  exists st' ws, run false st lines = inr st' /\ warnings st' = warnings st ++ ws.
Proof.
  revert st. induction lines as [| l rest IH]; intros st; cbn [run].
  - exists st, []. now rewrite app_nil_r.
  - destruct (xstep_lax st l) as [st1 [ws1 [-> Hw1]]].
    destruct (IH st1) as [st' [ws [Hr Hws]]].
    exists st', (ws1 ++ ws). split; [exact Hr |].
    now rewrite Hws, Hw1, app_assoc.
Qed.

Lemma xrun_agree (lines : list xline) (st : xstate) :
  match run true st lines with
  | inr st' => run false st lines = inr st'
  | inl (XParseError w) =>
      exists st' ws pre, run false st lines = inr st' /\
                         warnings st' = pre ++ w :: ws
  end.
Proof.
  revert st. induction lines as [| l rest IH]; intros st; cbn [run]; [reflexivity |].
  pose proof (xstep_agree st l) as Ha. unfold agree in Ha.
  destruct (step true st l) as [[w] | st1].
  - destruct Ha as [st1 [-> Hw]].
    destruct (xrun_lax rest st1) as [st' [ws [Hr Hws]]].
    exists st', ws, (warnings st). split; [exact Hr |].
    rewrite Hws, Hw. now rewrite <- app_assoc.
  - rewrite Ha. apply IH.
Qed.

Lemma xclosing_warnings_appends (st : xstate) :
  exists ws, warnings (closing_warnings st) = warnings st ++ ws.
Proof.
  assert (Hlog : forall (b : bool) s w,
            exists ws, warnings (if b then s else log s w) = warnings s ++ ws).
  { intros [] s w; [exists []; now rewrite app_nil_r | now exists [w]]. }
  unfold closing_warnings. cbv zeta.
  destruct (Hlog (saw_units st) st XWNoUnits) as [ws1 H1].
  set (st1 := if saw_units st then st else log st XWNoUnits) in *.
  destruct (Hlog (saw_any_tool_def st1) st1 XWNoToolDefs) as [ws2 H2].
  set (st2 := if saw_any_tool_def st1 then st1 else log st1 XWNoToolDefs) in *.
  assert (H12 : warnings st2 = warnings st ++ ws1 ++ ws2)
    by (now rewrite H2, H1, app_assoc).
  clearbody st2. clear H1 H2.
  destruct (holes_for_bounds st2) as [| p r]; [eauto |].
  set (w := Qmax_list (fst p) (map fst r) - Qmin_list (fst p) (map fst r)).
  set (h := Qmax_list (snd p) (map snd r) - Qmin_list (snd p) (map snd r)).
  destruct (Qlt_le_dec 2000 w), (Qlt_le_dec 2000 h), (Qlt_le_dec w (1 # 100)),
    (Qlt_le_dec h (1 # 100)); cbn [warnings log]; rewrite H12;
    rewrite <- ?app_assoc; eauto.
Qed.

(** X19: strictness only decides whether a problem stops the parse.  A
    non-strict parse never raises; when the strict parse of the same lines
    succeeds the two results are the same; and when it raises, the error
    is among the warnings of the non-strict parse. *)
Theorem excellon_strict_agrees (lines : list xline) :
  (exists ex, parse_excellon_file false lines = inr ex) /\
  match parse_excellon_file true lines with
  | inr ex => parse_excellon_file false lines = inr ex
  | inl (XParseError w) =>
      exists ex, parse_excellon_file false lines = inr ex /\ In w (warnings ex)
  end.
Proof.
  unfold parse_excellon_file. split.
  - destruct (xrun_lax lines init_state) as [st [ws [-> _]]]. eauto.
  - pose proof (xrun_agree lines init_state) as Ha.
    destruct (run true init_state lines) as [[w] | st].
    + destruct Ha as [st' [ws [pre [-> Hws]]]].
      eexists. split; [reflexivity |].
      destruct (xclosing_warnings_appends st') as [ws' ->]. rewrite Hws.
      apply in_or_app. left. apply in_or_app. right. now left.
    + now rewrite Ha.
Qed.


(** *** Routed slots *)

(** The slots of a route: each point is joined to the point before it. *)
Fixpoint chain (w : Q) (prev : option pt) (pts : list pt) : list (pt * pt * Q) :=
  match pts with
  | [] => []
  | p :: r =>
      match prev with
      | Some a => (a, p, w) :: chain w (Some p) r
      | None => chain w (Some p) r
      end
  end.

Definition coord_line (t : token * token) : xline := XCoord (Some t).

(** X20: routing.  In route mode (after M15), with a defined tool
    selected, coordinate lines that decode to the points [pts] record no
    hole: they append one slot from each point to the next, of the width of
    the tool, starting from the last route point if there is one; no
    warning is given. *)
Theorem route_chain (strict : bool) (st : xstate) (tid : string) (w : Q)
    (hs : list pt) (toks : list (token * token)) (pts : list pt) :
  route_mode st = true ->
  current_tool st = Some tid ->
  tool_get (tools st) tid = Some (w, hs) ->
  Forall2 (fun t p => point_of st (fst t) (snd t) = Some p) toks pts ->
  exists st',
    run strict st (map coord_line toks) = inr st' /\
    slots st' = slots st ++ chain w (last_route_xy st) pts /\
    tools st' = tools st /\
    last_route_xy st' = List.last (map Some pts) (last_route_xy st) /\
    warnings st' = warnings st.
Proof.
  intros Hr Hc Ht H. unfold point_of in H.
  remember (fmt st) as f eqn:Ef. remember (zero_supp st) as z eqn:Ez.
  remember (unit_scale st) as sc eqn:Es.
  revert st Hr Hc Ht Ef Ez Es.
  induction H as [| [xt yt] p toks pts Hp Hrest IH]; intros st Hr Hc Ht Ef Ez Es.
  - exists st. cbn. now rewrite app_nil_r.
  - cbn [map coord_line run step]. cbv zeta.
    change (current_tool (next_line st)) with (current_tool st). rewrite Hc.
    unfold point_of.
    change (fmt (next_line st)) with (fmt st).
    change (zero_supp (next_line st)) with (zero_supp st).
    change (unit_scale (next_line st)) with (unit_scale st).
    rewrite <- Ef, <- Ez, <- Es. cbn [fst snd] in Hp. rewrite Hp.
    change (tools (next_line st)) with (tools st). rewrite Ht.
    unfold hit. change (route_mode (next_line st)) with (route_mode st). rewrite Hr.
    change (last_route_xy (next_line st)) with (last_route_xy st).
    destruct (last_route_xy st) as [a |] eqn:El.
    + match goal with
      | |- context [run strict ?s _] => destruct (IH s) as [st' [E [Hs [Htl [Hl Hw]]]]]
      end; try assumption; try reflexivity.
      exists st'. split; [exact E |].
      rewrite Hs, Htl, Hl, Hw. cbn [slots tools last_route_xy warnings set_data
        set_cursor next_line].
      unfold add_slot. rewrite Ht. cbn [chain map].
      split; [now rewrite <- app_assoc |]. split; [reflexivity |].
      split; [| reflexivity]. now rewrite (BoardOutline.last_cons (Some p)).
    + match goal with
      | |- context [run strict ?s _] => destruct (IH s) as [st' [E [Hs [Htl [Hl Hw]]]]]
      end; try assumption; try reflexivity.
      exists st'. split; [exact E |].
      rewrite Hs, Htl, Hl, Hw. cbn [slots tools last_route_xy warnings set_data
        set_cursor next_line chain map].
      split; [reflexivity |]. split; [reflexivity |].
      split; [| reflexivity]. now rewrite (BoardOutline.last_cons (Some p)).
Qed.

(** The state after the header, a tool and M15. *)
Definition routing_state : xstate :=
  match run false init_state
          [XUnitHdr true true; XToolDef "01" (tok "0.800"); XToolSel "01"; XM15] with
  | inr st => st
  | inl _ => init_state
  end.

Lemma route_chain_witness :
  exists st',
    run false routing_state
        (map coord_line [(tok "000000", tok "000000"); (tok "005000", tok "000000");
                         (tok "005000", tok "002000")]) = inr st' /\
    slots st' = slots routing_state
                ++ chain (800 # 1000) (last_route_xy routing_state)
                     [(0 # 1000, 0 # 1000);
                      (5000 # 1000, 0 # 1000);
                      (5000 # 1000, 2000 # 1000)] /\
    tools st' = tools routing_state /\
    last_route_xy st'
      = List.last (map Some [(0 # 1000, 0 # 1000);
                             (5000 # 1000, 0 # 1000);
                             (5000 # 1000, 2000 # 1000)])
                  (last_route_xy routing_state) /\
    warnings st' = warnings routing_state.
Proof.
  apply (route_chain false routing_state "01" _ []).
  - reflexivity.
  - reflexivity.
  - vm_compute. reflexivity.
  - repeat constructor.
Defined.


(** *** Files without a tool table *)

Definition is_tool_def (l : xline) : bool :=
  match l with
  | XToolDef _ _ => true
  | _ => false
  end.

(** No tool is defined and nothing is recorded. *)
Definition nothing (st : xstate) : Prop :=
  tools st = [] /\ slots st = [] /\ saw_any_tool_def st = false.

Lemma step_nothing (strict : bool) (st st' : xstate) (l : xline) :
  is_tool_def l = false -> nothing st -> step strict st l = inr st' -> nothing st'.
Proof.
  intros Hl [Ht [Hs Hd]]. unfold step. cbv zeta.
  assert (Hn : nothing (next_line st)) by (now split).
  assert (Hw : forall w, _warn (next_line st) w strict = inr st' -> nothing st').
  { intros w. unfold _warn. destruct strict; [discriminate |]. now intros [= <-]. }
  destruct l as [| [[i d] |] | | | | | | tid diam | tid | x1 y1 x2 y2 | [[xt yt] |] |];
    try discriminate Hl; try (intros [= <-]; exact Hn).
  - cbn [tools set_cursor next_line]. rewrite Ht. cbn [tool_get].
    intros [= <-]. exact Hn.
  - destruct (current_tool (next_line st)); [| intros [= <-]; exact Hn].
    destruct (point_of _ x1 y1); [destruct (point_of _ x2 y2) |]; try apply Hw.
    intros [= <-]. unfold nothing, add_slot. cbn. now rewrite Ht, Hs, Hd.
  - destruct (current_tool (next_line st)) as [tid |]; [| intros [= <-]; exact Hn].
    destruct (point_of _ xt yt); [| apply Hw].
    cbn [tools next_line]. rewrite Ht. cbn [tool_get]. intros [= <-]. exact Hn.
  - destruct (current_tool (next_line st)); intros [= <-]; exact Hn.
Qed.

Lemma run_nothing (strict : bool) (lines : list xline) (st st' : xstate) :
  forallb (fun l => negb (is_tool_def l)) lines = true ->
  nothing st -> run strict st lines = inr st' -> nothing st'.
Proof.
  revert st. induction lines as [| l rest IH]; intros st Hall Hn; cbn [run].
  - now intros [= <-].
  - cbn [forallb] in Hall. apply andb_prop in Hall as [Hl Hrest].
    apply negb_true_iff in Hl.
    destruct (step strict st l) as [e | st1] eqn:E; [discriminate |].
    apply IH; [exact Hrest |]. now apply (step_nothing strict st st1 l).
Qed.

Lemma closing_warnings_data (st : xstate) :
  tools (closing_warnings st) = tools st /\ slots (closing_warnings st) = slots st.
Proof.
  unfold closing_warnings. cbv zeta.
  destruct (saw_units st), (saw_any_tool_def _); cbn [holes_for_bounds log];
    (destruct (holes_for_bounds st) as [| p r]; [split; reflexivity |]);
    repeat match goal with
           | |- context [Qlt_le_dec ?a ?b] => destruct (Qlt_le_dec a b)
           end; split; reflexivity.
Qed.

Lemma closing_warnings_no_defs (st : xstate) :
  saw_any_tool_def st = false -> In XWNoToolDefs (warnings (closing_warnings st)).
Proof.
  intros Hd. unfold closing_warnings. cbv zeta.
  set (st1 := if saw_units st then st else log st XWNoUnits).
  assert (H1 : saw_any_tool_def st1 = false) by (unfold st1; now destruct (saw_units st)).
  rewrite H1.
  assert (H2 : In XWNoToolDefs (warnings (log st1 XWNoToolDefs)))
    by (cbn; apply in_or_app; right; now left).
  destruct (holes_for_bounds (log st1 XWNoToolDefs)) as [| p r]; [exact H2 |].
  repeat match goal with
         | |- context [Qlt_le_dec ?a ?b] => destruct (Qlt_le_dec a b)
         end; cbn [warnings log] in *;
    first [ exact H2
          | apply in_or_app; left; exact H2
          | do 2 (apply in_or_app; left); exact H2 ].
Qed.

(** X21: a file without a tool table gives nothing to drill.  When no
    line defines a tool, the parse, if it returns, returns no hole and no
    slot, whatever coordinates the file holds, and warns that no tool
    definition was found. *)
Theorem no_tool_table_no_holes (strict : bool) (lines : list xline) (ex : xstate) :
  forallb (fun l => negb (is_tool_def l)) lines = true ->
  parse_excellon_file strict lines = inr ex ->
  all_holes ex = [] /\ all_slots ex = [] /\ In XWNoToolDefs (warnings ex).
Proof.
  intros Hall. unfold parse_excellon_file.
  destruct (run strict init_state lines) as [e | st] eqn:Er; [discriminate |].
  intros [= <-].
  assert (H0 : nothing init_state) by (repeat split).
  destruct (run_nothing strict lines init_state st Hall H0 Er) as [Ht [Hs Hd]].
  destruct (closing_warnings_data st) as [Ht' Hs'].
  unfold all_holes, all_slots. rewrite Ht', Hs', Ht, Hs.
  split; [reflexivity |]. split; [reflexivity |]. now apply closing_warnings_no_defs.
Qed.

Definition untooled_file : list xline :=
  [XUnitHdr true true; XToolSel "01"; XCoord (Some (tok "001000", tok "002000"))].

Lemma no_tool_table_no_holes_witness :
  exists ex,
    parse_excellon_file false untooled_file = inr ex /\
    all_holes ex = [] /\ all_slots ex = [] /\ In XWNoToolDefs (warnings ex).
Proof.
  eexists. split; [vm_compute; reflexivity |].
  apply (no_tool_table_no_holes false untooled_file).
  - reflexivity.
  - vm_compute. reflexivity.
Defined.

End ExcellonParse.

(* ===================================================================== *)
(** ** drilling.py: the planned drill program of [run_drill] *)
(* ===================================================================== *)

Module DrillProgram.

Import GeomUtils Drilling PathOrder DrillPlan.

(** [for b, pts in plan: pts = _order_points_nearest(pts, start_xy=cur);
    if pts: cur = pts[-1]; ...]: the drills in the order of the plan, each
    with its holes in the order they are drilled. *)
Fixpoint schedule_loop (cur : point) (plan : list (bit * list point))
    : list (bit * list point) :=
  match plan with
  | [] => []
  | (b, pts) :: rest =>
      let pts := _order_points_nearest pts cur in
      let cur := match pts with
                 | [] => cur
                 | _ => List.last pts cur
                 end in
      (b, pts) :: schedule_loop cur rest
  end.

(** The planned branch of [run_drill], from the assignment to the order
    of drilling. *)
Definition drill_schedule (holes : list (Q * Q * Q)) (drill_bits : list bit) (tol : Q)
    : assign_error + list (bit * list point) :=
  match _assign_holes_to_drills holes drill_bits tol with
  | inl e => inl e
  | inr plan => inr (schedule_loop (0, 0) plan)
  end.

(** The tool visits each group nearest first, and starts a group where
    it ended the group before. *)
Inductive tour : point -> list (bit * list point) -> Prop :=
| tour_nil cur : tour cur []
| tour_cons cur b pts rest :
    nearest_first cur pts ->
    tour (List.last pts cur) rest ->
    tour cur ((b, pts) :: rest).

Lemma schedule_loop_spec (plan : list (bit * list point)) (cur : point) :
  map fst (schedule_loop cur plan) = map fst plan /\
  Forall2 (fun e e' => Permutation (snd e) (snd e')) plan (schedule_loop cur plan) /\
  tour cur (schedule_loop cur plan).
Proof.
  revert cur. induction plan as [| [b pts] rest IH]; intros cur; cbn [schedule_loop].
  - repeat split; constructor.
  - cbv zeta.
    destruct (point_loop_spec (List.length pts) cur pts eq_refl) as [Hp Hn].
    fold (_order_points_nearest pts cur) in Hp, Hn.
    set (o := _order_points_nearest pts cur) in *.
    set (cur' := match o with [] => cur | _ => List.last o cur end).
    assert (Ec : cur' = List.last o cur) by (unfold cur'; now destruct o).
    destruct (IH cur') as [H1 [H2 H3]].
    split; [cbn [map fst]; now rewrite H1 |]. split.
    + constructor; [exact Hp | exact H2].
    + constructor; [exact Hn |]. now rewrite <- Ec.
Qed.

Lemma concat_perm (a b : list (bit * list point)) :
  Forall2 (fun e e' => Permutation (snd e) (snd e')) a b ->
  Permutation (List.concat (map snd a)) (List.concat (map snd b)).
Proof.
  induction 1 as [| x y a b Hxy _ IH]; [reflexivity |].
  cbn [map List.concat]. now apply Permutation_app.
Qed.

(** X22: the drill program.  When the planned branch of [run_drill] has a
    plan, the holes drilled in the whole program are exactly the holes
    given, each once; the drills follow each other from the largest to the
    smallest, each with at least one hole; and within a drill the tool goes
    to the nearest hole not yet drilled, starting where the drill before
    ended (at the origin for the first). *)
Theorem drill_schedule_complete (holes : list (Q * Q * Q)) (drill_bits : list bit)
    (tol : Q) (sched : list (bit * list point)) :
  drill_schedule holes drill_bits tol = inr sched ->
  Permutation (List.concat (map snd sched)) (map xy holes) /\
  Forall (fun e => snd e <> [] /\ In (fst e) drill_bits) sched /\
  StronglySorted (fun a b => diameter b <= diameter a) (map fst sched) /\
  tour (0, 0) sched.
Proof.
  unfold drill_schedule.
  destruct (_assign_holes_to_drills holes drill_bits tol) as [e | plan] eqn:Ea;
    [discriminate |].
  intros [= <-].
  destruct (assign_holes_spec holes drill_bits tol plan Ea) as [Hp [Hall Hd]].
  destruct (schedule_loop_spec plan (0, 0)) as [H1 [H2 H3]].
  split; [| split; [| split]].
  - now rewrite <- (concat_perm _ _ H2).
  - revert Hall. clear -H1 H2. revert H1.
    induction H2 as [| x y a b Hxy _ IH]; intros H1 Hall; [constructor |].
    cbn [map] in H1. injection H1 as Hf H1.
    inversion Hall as [| ? ? [Hne [Hin _]] Hrest]; subst.
    constructor; [| now apply IH].
    rewrite Hf. split; [| exact Hin].
    intros E. rewrite E in Hxy. apply Permutation_sym, Permutation_nil in Hxy.
    contradiction.
  - rewrite H1. clear -Hd. unfold descending in Hd.
    induction Hd as [| e r Hs IH Hall]; cbn [map]; constructor; [exact IH |].
    rewrite Forall_forall in Hall |- *. intros b Hb.
    apply in_map_iff in Hb as [e' [<- He']]. now apply Hall.
  - exact H3.
Qed.

Lemma drill_schedule_complete_witness :
  Permutation
    (List.concat (map snd [(b10, [(1, 1)]); (b06, [(0, 0); (2, 2)])]))
    (map xy [(0, 0, 6 # 10); (1, 1, 1); (2, 2, 65 # 100)]) /\
  Forall (fun e => snd e <> [] /\ In (fst e) [b10; b05; b06])
         [(b10, [(1, 1)]); (b06, [(0, 0); (2, 2)])] /\
  StronglySorted (fun a b => diameter b <= diameter a)
                 (map fst [(b10, [(1, 1)]); (b06, [(0, 0); (2, 2)])]) /\
  tour (0, 0) [(b10, [(1, 1)]); (b06, [(0, 0); (2, 2)])].
Proof.
  apply (drill_schedule_complete
           [(0, 0, 6 # 10); (1, 1, 1); (2, 2, 65 # 100)] [b10; b05; b06] (5 # 100)).
  vm_compute. reflexivity.
Defined.

End DrillProgram.

(* ===================================================================== *)
(** ** soldermask_clear.py: the clearing paths of a pad *)
(* ===================================================================== *)

Module SoldermaskClear.

Definition pt : Type := Q * Q.

Definition MAX_OUTSIDE : Q := 1 # 10.
Definition STEPOVER_RATIO : Q := 45 # 100.

(** [while y <= maxy: paths.append(((x0, y), (x1, y))); y += step;
    flip = not flip], with [x0, x1 = (minx, maxx) if not flip else
    (maxx, minx)]. *)
Fixpoint rows (fuel : nat) (minx maxx maxy step : Q) (y : Q) (flip : bool)
    : option (list (pt * pt)) :=
  if Qlt_le_dec maxy y then Some []
  else
    match fuel with
    | O => None
    | S k =>
        let x0 := if flip then maxx else minx in
        let x1 := if flip then minx else maxx in
        option_map (cons ((x0, y), (x1, y)))
                   (rows k minx maxx maxy step (y + step) (negb flip))
    end.

(** Rounds that cover the height in steps of [step]. *)
Definition row_rounds (miny maxy step : Q) : nat :=
  S (Z.to_nat (Qfloor ((maxy - miny) / step))).

(** What stops [clear_pad] short of its paths: the geometry kernel gives
    no numbers for the bounds of the outline in use or for the centroid of
    the pad (an empty geometry has neither), or the loop does not end. *)
Inductive failure := no_bounds | no_centroid | unfinished.

Section Kernel.

(** The geometry kernel [clear_pad] calls: [poly.buffer(distance)],
    [.is_empty], [.bounds] and [.centroid]. *)
Variable geom : Type.
Variable buffer : geom -> Q -> geom.
Variable is_empty : geom -> bool.
Variable bounds : geom -> option (Q * Q * Q * Q).
Variable centroid : geom -> option pt.

(** [safe = poly.buffer(-(bit_d / 2.0 - MAX_OUTSIDE))]
    [if safe.is_empty: safe = poly.buffer(bit_d / 2.0)]: the pad shrunk by
    the bit radius less the allowed overrun, or, when nothing is left of
    it, the pad grown by the bit radius. *)
Definition safe_outline (poly : geom) (bit_d : Q) : geom :=
  let safe := buffer poly (- (bit_d / 2 - MAX_OUTSIDE)) in
  if is_empty safe then buffer poly (bit_d / 2) else safe.

Definition clear_pad (poly : geom) (bit_d : Q) : failure + list (pt * pt) :=
  match bounds (safe_outline poly bit_d) with
  | None => inl no_bounds
  | Some (minx, miny, maxx, maxy) =>
      let w := maxx - minx in
      let h := maxy - miny in
      let step := bit_d * STEPOVER_RATIO in
      match centroid poly with
      | None => inl no_centroid
      | Some (cx, cy) =>
          if (if Qlt_le_dec w (bit_d * (11 # 10)) then true
              else if Qlt_le_dec h (bit_d * (11 # 10)) then true else false)
          then inr [((cx - bit_d, cy), (cx + bit_d, cy));
                    ((cx, cy - bit_d), (cx, cy + bit_d))]
          else
            match rows (row_rounds miny maxy step) minx maxx maxy step miny false with
            | Some paths => inr paths
            | None => inl unfinished
            end
      end
  end.

End Kernel.

Arguments safe_outline {geom} buffer is_empty poly bit_d.
Arguments clear_pad {geom} buffer is_empty bounds centroid poly bit_d.

(** A kernel of axis-parallel rectangular pads, each kept as its bounds
    [(minx, miny, maxx, maxy)], [None] for the empty geometry.  Shrinking
    moves every side inward and leaves nothing when the sides meet; growing
    moves every side outward (the rounded corners do not change the
    bounds). *)
Definition box : Type := option (Q * Q * Q * Q).

Definition box_buffer (g : box) (d : Q) : box :=
  match g with
  | None => None
  | Some (minx, miny, maxx, maxy) =>
      let '(x0, y0, x1, y1) :=
        (Qred (minx - d), Qred (miny - d), Qred (maxx + d), Qred (maxy + d)) in
      if Qlt_le_dec x0 x1
      then if Qlt_le_dec y0 y1 then Some (x0, y0, x1, y1) else None
      else None
  end.

Definition box_is_empty (g : box) : bool :=
  match g with None => true | Some _ => false end.

Definition box_bounds (g : box) : option (Q * Q * Q * Q) := g.

Definition box_centroid (g : box) : option pt :=
  match g with
  | None => None
  | Some (minx, miny, maxx, maxy) =>
      Some (Qred ((minx + maxx) / 2), Qred ((miny + maxy) / 2))
  end.

Definition box_clear_pad : box -> Q -> failure + list (pt * pt) :=
  clear_pad box_buffer box_is_empty box_bounds box_centroid.

Definition reduced (r : failure + list (pt * pt)) : option (list (Q * Q * Q * Q)) :=
  match r with
  | inl _ => None
  | inr paths =>
      Some (map (fun r => (Qred (fst (fst r)), Qred (snd (fst r)),
                           Qred (fst (snd r)), Qred (snd (snd r)))) paths)
  end.

(** A pad of 3.6 x 1.6 and a bit of 0.8: rows over the pad shrunk by 0.3. *)
Example clear_pad_rows :
  reduced (box_clear_pad (Some (0, 0, 36 # 10, 16 # 10)) (8 # 10))
  = Some [(3 # 10, 3 # 10, 33 # 10, 3 # 10);
          (33 # 10, 33 # 50, 3 # 10, 33 # 50);
          (3 # 10, 51 # 50, 33 # 10, 51 # 50)].
Proof. vm_compute. reflexivity. Qed.

(** A pad of 1 x 1 and a bit of 0.8: the pad shrunk by 0.3 is 0.4 wide,
    less than 0.88, and the pad gets the cross. *)
Example clear_pad_cross :
  reduced (box_clear_pad (Some (0, 0, 1, 1)) (8 # 10))
  = Some [(-3 # 10, 1 # 2, 13 # 10, 1 # 2); (1 # 2, -3 # 10, 1 # 2, 13 # 10)].
Proof. vm_compute. reflexivity. Qed.

(** A pad of 0.5 x 0.5 and a bit of 0.8: nothing is left of the pad shrunk
    by 0.3, the outline in use is the pad grown by 0.4, which is 1.3 wide,
    and the pad gets four rows that reach 0.4 beyond it on either side. *)
Example clear_pad_small_pad :
  safe_outline box_buffer box_is_empty (Some (0, 0, 1 # 2, 1 # 2)) (8 # 10)
  = Some (-2 # 5, -2 # 5, 9 # 10, 9 # 10) /\
  reduced (box_clear_pad (Some (0, 0, 1 # 2, 1 # 2)) (8 # 10))
  = Some [(-2 # 5, -2 # 5, 9 # 10, -2 # 5);
          (9 # 10, -1 # 25, -2 # 5, -1 # 25);
          (-2 # 5, 8 # 25, 9 # 10, 8 # 25);
          (9 # 10, 17 # 25, -2 # 5, 17 # 25)].
Proof. split; vm_compute; reflexivity. Qed.






End SoldermaskClear.

(* ===================================================================== *)
(** ** gcode_writer.py: the header *)
(* ===================================================================== *)

Module GcodeHeader.

Import GcodeWriter.

(** The values [write_header] reads from job_config.py
    ([get_travel_z], [get_probe_on_start], [get_probe_gcode]). *)
Record header_config := {
  hdr_travel_z : Q;
  probe_on_start : bool;
  probe_gcode : string
}.

(** A file of the disk: missing, or the chunks written to it. *)
Definition disk_file : Type := option ofile.

(** [os.path.getsize(fn)] *)
Definition getsize (o : ofile) : nat := String.length (cat o).

Section Header.

(** [str.splitlines] and [str.strip]. *)
Variable splitlines : string -> list string.
Variable strip : string -> string.

Definition is_empty (s : string) : bool :=
  match s with
  | EmptyString => true
  | _ => false
  end.

(** [for ln in pg.splitlines(): ln = ln.strip(); if ln: o.write(f"{ln}\n")] *)
Definition write_probe_lines (o : ofile) (pg : string) : ofile :=
  fold_left (fun o ln => let ln := strip ln in
                         if is_empty ln then o else write o (cat [ln; nl]))
            (splitlines pg) o.

Definition write_header (cfg : header_config) (o : ofile) (job_name : string)
    (units_mm absolute : bool) : ofile :=
  let o := write o (cat ["; ----------------------------"%string; nl]) in
  let o := write o (cat ["; CNC_PCB job"%string; nl]) in
  let o := if is_empty job_name then o
           else write o (cat ["; Job: "%string; job_name; nl]) in
  let o := write o (cat ["; Units: mm"%string; nl]) in
  let o := write o (cat ["; ----------------------------"%string; nl]) in
  let o := write o (if units_mm then cat ["G21"%string; nl] else cat ["G20"%string; nl]) in
  let o := write o (if absolute then cat ["G90"%string; nl] else cat ["G91"%string; nl]) in
  let o := write o (cat ["G17"%string; nl]) in
  let o := write o (cat ["G94"%string; nl]) in
  let o := write o (cat ["G54"%string; nl]) in
  let o := write o (cat ["G92.1"%string; nl]) in
  let o := write o (cat ["G0 Z"%string; Num.fmt_f 3 (hdr_travel_z cfg); nl]) in
  if probe_on_start cfg then
    let pg := probe_gcode cfg in
    if is_empty pg then
      let o := write o (cat ["; Probe on start requested, but probe_gcode is empty."%string;
                             nl]) in
      write o (cat ["M0 ; Run your probe routine now, then resume"%string; nl])
    else
      let o := write o (cat ["; Probe on start (user-provided)"%string; nl]) in
      let o := write_probe_lines o pg in
      write o (cat ["G0 Z"%string; Num.fmt_f 3 (hdr_travel_z cfg); nl])
  else o.

(** [ensure_header]: [open(fn, "w")] starts the file anew. *)
Definition ensure_header (cfg : header_config) (f : disk_file) (job_name : string)
    : disk_file :=
  match f with
  | Some o => if Nat.eqb (getsize o) 0 then Some (write_header cfg [] job_name true true)
              else Some o
  | None => Some (write_header cfg [] job_name true true)
  end.

Definition banner : string := cat ["; ----------------------------"%string; nl].

Lemma write_probe_lines_extends (o : ofile) (pg : string) :
  exists more, write_probe_lines o pg = o ++ more.
Proof.
  unfold write_probe_lines. generalize (splitlines pg) as lines. intros lines.
  revert o. induction lines as [| ln r IH]; intros o; cbn [fold_left].
  - exists []. now rewrite app_nil_r.
  - destruct (is_empty (strip ln)); [apply IH |].
    destruct (IH (write o (cat [strip ln; nl]))) as [more ->].
    unfold write. rewrite <- app_assoc. eauto.
Qed.

Lemma write_header_extends (cfg : header_config) (o : ofile) (job_name : string)
    (units_mm absolute : bool) :
  exists rest, write_header cfg o job_name units_mm absolute = o ++ banner :: rest.
Proof.
  unfold write_header, write. cbv zeta.
  destruct (is_empty job_name), (probe_on_start cfg);
    try destruct (is_empty (probe_gcode cfg));
    try match goal with
        | |- context [write_probe_lines ?o0 ?pg] =>
            destruct (write_probe_lines_extends o0 pg) as [more ->]
        end;
    repeat rewrite <- app_assoc; cbn [app]; eexists; reflexivity.
Qed.

Lemma getsize_banner (rest : ofile) : getsize (banner :: rest) <> 0%nat.
Proof.
  unfold getsize, cat, banner. destruct rest as [| r rest]; cbn; discriminate.
Qed.

(** X24: the header is written once.  [ensure_header] leaves a file that
    is not empty and starts, when it was missing or empty before, with the
    header banner; a file that held anything is left as it was; so a second
    call, whatever the job name, changes nothing. *)
Theorem ensure_header_once (cfg : header_config) (f : disk_file)
    (job_name job_name' : string) :
  exists o,
    ensure_header cfg f job_name = Some o /\
    getsize o <> 0%nat /\
    ensure_header cfg (Some o) job_name' = Some o /\
    match f with
    | Some o0 => if Nat.eqb (getsize o0) 0 then exists rest, o = banner :: rest
                 else o = o0
    | None => exists rest, o = banner :: rest
    end.
Proof.
  destruct (write_header_extends cfg [] job_name true true) as [rest Hh].
  cbn [app] in Hh.
  assert (Hnew : forall o, o = banner :: rest ->
            getsize o <> 0%nat /\ ensure_header cfg (Some o) job_name' = Some o).
  { intros o ->. pose proof (getsize_banner rest) as Hs. split; [exact Hs |].
    unfold ensure_header. apply Nat.eqb_neq in Hs. now rewrite Hs. }
  unfold ensure_header at 1. destruct f as [o0 |].
  - destruct (Nat.eqb (getsize o0) 0) eqn:E.
    + rewrite Hh. eexists. split; [reflexivity |].
      destruct (Hnew _ eq_refl) as [H1 H2]. eauto.
    + exists o0. split; [reflexivity |].
      split; [now apply Nat.eqb_neq |]. split; [| reflexivity].
      unfold ensure_header. now rewrite E.
  - rewrite Hh. eexists. split; [reflexivity |].
    destruct (Hnew _ eq_refl) as [H1 H2]. eauto.
Qed.

End Header.

End GcodeHeader.

(* ===================================================================== *)
(** ** board_outline.py [_write_polyline] and geom_utils.py
       [_write_line_as_gcode]: the moves of a path *)
(* ===================================================================== *)

Module Polyline.

Import GcodeWriter.

Definition pt : Type := Q * Q.

(** The lines [_write_polyline] writes, by their words. *)
Inductive move :=
| RapidZ (z : Q)                          (* G0 Z{z:.3f} *)
| RapidXY (p : pt)                        (* G0 X{x:.4f} Y{y:.4f} *)
| FeedZ (z : Q) (feed : string)           (* G1 Z{z:.4f} F{feed} *)
| FeedXY (p : pt) (feed : string)         (* G1 X{x:.4f} Y{y:.4f} F{feed} *)
| FeedXYZ (p : pt) (z : Q) (feed : string). (* G1 X.. Y.. Z{z:.4f} F{feed} *)

Definition render (m : move) : string :=
  match m with
  | RapidZ z => cat ["G0 Z"%string; Num.fmt_f 3 z; nl]
  | RapidXY p =>
      cat ["G0 X"%string; Num.fmt_f 4 (fst p); " Y"%string; Num.fmt_f 4 (snd p); nl]
  | FeedZ z feed => cat ["G1 Z"%string; Num.fmt_f 4 z; " F"%string; feed; nl]
  | FeedXY p feed =>
      cat ["G1 X"%string; Num.fmt_f 4 (fst p); " Y"%string; Num.fmt_f 4 (snd p);
           " F"%string; feed; nl]
  | FeedXYZ p z feed =>
      cat ["G1 X"%string; Num.fmt_f 4 (fst p); " Y"%string; Num.fmt_f 4 (snd p);
           " Z"%string; Num.fmt_f 4 z; " F"%string; feed; nl]
  end.

Definition SAFE_Z : Q := 5.

(** Segments not longer than this are skipped by the ramp. *)
Definition tiny : Q := 1 # 1000000000000.

Definition eps : Q := 1 # 1000000000.

(** The point at the part [t] of the way from [p0] to [p1]. *)
Definition lerp (p0 p1 : pt) (t : Q) : pt :=
  (fst p0 + (fst p1 - fst p0) * t, snd p0 + (snd p1 - snd p0) * t).

Section Ramp.

(** [math.hypot] *)
Variable hypot : Q -> Q -> Q.

Definition seg_len (p0 p1 : pt) : Q := hypot (fst p1 - fst p0) (snd p1 - snd p0).

(** [for i in range(1, len(pts))] of the ramp: the ramp point and the
    index of the point that ends its segment, or [None] when the path is
    shorter than the ramp. *)
Fixpoint ramp_scan (remaining : Q) (p0 : pt) (i : nat) (rest : list pt)
    : option (pt * nat) :=
  match rest with
  | [] => None
  | p1 :: r =>
      let seg := seg_len p0 p1 in
      if Qle_bool seg tiny then ramp_scan remaining p1 (S i) r
      else if Qle_bool remaining seg then Some (lerp p0 p1 (remaining / seg), i)
      else ramp_scan (remaining - seg) p1 (S i) r
  end.

(** [abs(end_seg[0] - ramp_pt[0]) > 1e-9 or abs(end_seg[1] - ramp_pt[1]) > 1e-9] *)
Definition apart (a b : pt) : bool :=
  negb (Qle_bool (Qabs (fst a - fst b)) eps) || negb (Qle_bool (Qabs (snd a - snd b)) eps).

(** The moves of [_write_polyline] (board_outline.py) for a path of two
    points or more; [_write_line_as_gcode] (geom_utils.py) writes the same
    moves with the safe height of the job settings. *)
Definition polyline_moves (safe_z : Q) (p0 : pt) (rest : list pt) (z : Q)
    (feed_xy feed_z : string) (ramp_len : Q) : list move :=
  [RapidZ safe_z; RapidXY p0]
  ++ (if Qlt_le_dec 0 ramp_len then
        let '(ramp_pt, ramp_index) :=
          match ramp_scan ramp_len p0 1 rest with
          | Some r => r
          | None => (List.nth 0 rest (0, 0), 1%nat)
          end in
        let end_seg := List.nth ramp_index (p0 :: rest) (0, 0) in
        [FeedXYZ ramp_pt (- z) feed_xy]
        ++ (if apart end_seg ramp_pt then [FeedXY end_seg feed_xy] else [])
        ++ map (fun p => FeedXY p feed_xy) (List.skipn (S ramp_index) (p0 :: rest))
      else
        FeedZ (- z) feed_z :: map (fun p => FeedXY p feed_xy) rest)
  ++ [RapidZ safe_z].

Definition _write_polyline (g : ofile) (pts : list pt) (z : Q)
    (feed_xy feed_z : string) (ramp_len : Q) : ofile :=
  match pts with
  | [] | [_] => g
  | p0 :: rest => g ++ map render (polyline_moves SAFE_Z p0 rest z feed_xy feed_z ramp_len)
  end.

Definition _write_line_as_gcode (safe_z : Q) (o : ofile) (coords : list pt) (depth : Q)
    (feed_xy feed_z : string) (ramp_len : Q) : ofile :=
  match coords with
  | [] | [_] => o
  | p0 :: rest => o ++ map render (polyline_moves safe_z p0 rest depth feed_xy feed_z ramp_len)
  end.




End Ramp.

(** A length for the examples: the longer of the two sides, exact for
    segments along an axis. *)
Definition axis_hypot (dx dy : Q) : Q := Qmax (Qabs dx) (Qabs dy).


(** The ramp of the example ends on the second segment, half way up:
    the corner (1, 0) is not among the points the tool is sent to. *)
Example ramp_cuts_corner :
  map (fun m => match m with
                | FeedXYZ p _ _ | FeedXY p _ | RapidXY p => Some (Qred (fst p), Qred (snd p))
                | _ => None
                end)
      (polyline_moves axis_hypot 5 (0, 0) [(1, 0); (1, 4)] 2 "300" "100" 3)
  = [None; Some (0, 0); Some (1, 2); Some (1, 4); None].
Proof. vm_compute. reflexivity. Qed.

End Polyline.

(* ===================================================================== *)
(** ** board_outline.py: the passes of [_mill_slot] *)
(* ===================================================================== *)

Module MillSlot.

Import BoardOutline Polyline.

(** One pass of the tool: the segment and its depth. *)
Definition pass : Type := pt * pt * Q.

Section Slot.

(** [math.hypot] *)
Variable hypot : Q -> Q -> Q.

(** The passes of [_mill_slot]: [for z in depths: for o in offsets],
    each pass the axis of the slot moved sideways by [o]; [None] when a
    list of depths or offsets is not returned. *)
Definition slot_passes (p1 p2 : pt) (slot_w full_depth tool_d : Q)
    (stepdown : option Q) : option (list pass) :=
  let '(x1, y1) := p1 in
  let '(x2, y2) := p2 in
  let dx := x2 - x1 in
  let dy := y2 - y1 in
  let L := hypot dx dy in
  if Qlt_le_dec L BoardOutline.eps then Some []
  else
    let nx := - dy / L in
    let ny := dx / L in
    match _slot_offsets slot_w tool_d, _stepdown_list full_depth stepdown with
    | Some offsets, Some depths =>
        Some (flat_map
                (fun z => map (fun o => ((x1 + nx * o, y1 + ny * o),
                                         (x2 + nx * o, y2 + ny * o), z)) offsets)
                depths)
    | _, _ => None
    end.

(** [_mill_slot]: every pass is written by [_write_polyline]. *)
Definition _mill_slot (g : GcodeWriter.ofile) (p1 p2 : pt)
    (slot_w full_depth tool_d : Q) (stepdown : option Q)
    (feed_xy feed_z : string) (ramp_len : Q) : option GcodeWriter.ofile :=
  option_map
    (fun passes =>
       fold_left (fun g ps => _write_polyline hypot g [fst (fst ps); snd (fst ps)] (snd ps)
                                feed_xy feed_z ramp_len) passes g)
    (slot_passes p1 p2 slot_w full_depth tool_d stepdown).

End Slot.

Lemma stepdown_bounds (full_depth : Q) (stepdown : option Q) :
  exists depths,
    _stepdown_list full_depth stepdown = Some depths /\
    Forall (fun z => 0 < z /\ z <= full_depth) depths.
Proof.
  unfold _stepdown_list. cbv zeta.
  pose proof (effective_stepdown_pos stepdown) as Hs.
  destruct (clamped_steps_spec (effective_stepdown stepdown) full_depth Hs
              (rounds (effective_stepdown stepdown) full_depth) 0)
    as [l [El [Hc _]]].
  { pose proof (rounds_cover (effective_stepdown stepdown) full_depth Hs). lra. }
  exists l. split; [exact El |].
  eapply Forall_impl; [| exact (climbs_bounds _ _ _ _ Hc)].
  cbn. tauto.
Qed.

Lemma slot_offsets_bounds (slot_w tool_d : Q) :
  exists offsets,
    _slot_offsets slot_w tool_d = Some offsets /\
    Forall (fun o => o == 0 \/ Qabs o <= (slot_w - tool_d) / 2) offsets.
Proof.
  unfold _slot_offsets.
  destruct (Qle_bool (slot_w * (999 # 1000)) tool_d).
  { eexists. split; [reflexivity |]. constructor; [left; reflexivity | constructor]. }
  destruct (Qle_bool (tool_d * (60 # 100)) 0) eqn:Estep.
  { eexists. split; [reflexivity |]. constructor; [left; reflexivity | constructor]. }
  assert (Hs : 0 < tool_d * (60 # 100)).
  { destruct (Qlt_le_dec 0 (tool_d * (60 # 100))) as [H | H]; [exact H |].
    apply Qle_bool_iff in H. congruence. }
  set (off := (slot_w - tool_d) / 2).
  destruct (clamped_steps_spec (tool_d * (60 # 100)) off Hs
              (rounds (tool_d * (60 # 100)) off) 0) as [l [El [Hc _]]].
  { pose proof (rounds_cover (tool_d * (60 # 100)) off Hs). lra. }
  rewrite El. eexists. split; [reflexivity |].
  pose proof (climbs_bounds _ _ _ _ Hc) as Hb. rewrite Forall_forall in Hb.
  constructor; [left; reflexivity |].
  apply Forall_forall. intros o Ho. right.
  apply in_flat_map in Ho as [r [Hr Ho]]. destruct (Hb r Hr) as [Hr0 Hr1].
  destruct Ho as [<- | [<- | []]].
  - rewrite Qabs_pos by lra. exact Hr1.
  - rewrite Qabs_opp, Qabs_pos by lra. exact Hr1.
Qed.

(** Squared distance. *)
Definition dist2 (a b : pt) : Q :=
  (fst a - fst b) * (fst a - fst b) + (snd a - snd b) * (snd a - snd b).

Lemma square_le (o c : Q) : 0 <= c -> Qabs o <= c -> o * o <= c * c.
Proof.
  intros Hc Ho.
  assert (H0 : 0 <= Qabs o) by apply Qabs_nonneg.
  assert (E : o * o == Qabs o * Qabs o).
  { destruct (Qlt_le_dec o 0) as [Hn | Hp].
    - rewrite (Qabs_neg o) by lra. ring.
    - now rewrite (Qabs_pos o). }
  rewrite E. apply Qmult_le_compat_nonneg; split; assumption.
Qed.

Lemma map_snd_passes {A : Type} (f : Q -> A) (offsets depths : list Q) :
  map snd (flat_map (fun z => map (fun o => (f o, z)) offsets) depths)
  = flat_map (fun z => map (fun _ => z) offsets) depths.
Proof.
  induction depths as [| z ds IH]; [reflexivity |].
  cbn [flat_map]. rewrite map_app, IH, map_map. reflexivity.
Qed.

(** X26: milling a slot stays inside the slot.  For a slot of length at
    least 1e-9 whose length [hypot] gives exactly, and a tool not wider than
    the slot, the passes are returned: one for every depth and every
    offset, in the order of the depths; each pass is the axis of the slot
    moved sideways, so it is as long as the slot and parallel to it; its
    ends are no farther from the ends of the axis than
    (slot_w - tool_d) / 2, so the tool, of radius tool_d / 2, never cuts
    beyond half the slot width; and every depth is above 0 and at most the
    full depth. *)
Theorem mill_slot_within_slot (hypot : Q -> Q -> Q) (x1 y1 x2 y2 : Q)
    (slot_w full_depth tool_d : Q) (stepdown : option Q) :
  let L := hypot (x2 - x1) (y2 - y1) in
  BoardOutline.eps <= L ->
  L * L == (x2 - x1) * (x2 - x1) + (y2 - y1) * (y2 - y1) ->
  tool_d <= slot_w ->
  exists passes offsets depths,
    slot_passes hypot (x1, y1) (x2, y2) slot_w full_depth tool_d stepdown = Some passes /\
    _slot_offsets slot_w tool_d = Some offsets /\
    _stepdown_list full_depth stepdown = Some depths /\
    map snd passes = flat_map (fun z => map (fun _ => z) offsets) depths /\
    Forall (fun ps : pass =>
              let '(a, b, z) := ps in
              fst b - fst a == x2 - x1 /\ snd b - snd a == y2 - y1 /\
              dist2 a (x1, y1) <= ((slot_w - tool_d) / 2) * ((slot_w - tool_d) / 2) /\
              dist2 b (x2, y2) <= ((slot_w - tool_d) / 2) * ((slot_w - tool_d) / 2) /\
              0 < z /\ z <= full_depth) passes.
Proof.
  intros L HL Hsq Hfit. unfold slot_passes. cbv zeta. fold L.
  destruct (Qlt_le_dec L BoardOutline.eps) as [Hlt | _]; [lra |].
  destruct (slot_offsets_bounds slot_w tool_d) as [offsets [Eo Ho]].
  destruct (stepdown_bounds full_depth stepdown) as [depths [Ed Hd]].
  rewrite Eo, Ed. eexists. exists offsets, depths.
  split; [reflexivity |]. split; [reflexivity |]. split; [reflexivity |].
  assert (HL0 : 0 < L) by (unfold BoardOutline.eps in HL; lra).
  assert (Hc : 0 <= (slot_w - tool_d) / 2) by (apply Qle_shift_div_l; lra).
  split.
  - apply (map_snd_passes
             (fun o => (x1 + - (y2 - y1) / L * o, y1 + (x2 - x1) / L * o,
                        (x2 + - (y2 - y1) / L * o, y2 + (x2 - x1) / L * o)))).
  - apply Forall_forall. intros [[a b] z] Hin.
    apply in_flat_map in Hin as [z' [Hz Hin]].
    apply in_map_iff in Hin as [o [E Hoin]].
    injection E as <- <- <-.
    rewrite Forall_forall in Ho, Hd.
    destruct (Hd z' Hz) as [Hz0 Hz1].
    assert (Hoo : o * o <= (slot_w - tool_d) / 2 * ((slot_w - tool_d) / 2)).
    { destruct (Ho o Hoin) as [E0 | Hb].
      - rewrite E0. rewrite Qmult_0_l.
        apply Qmult_le_0_compat; exact Hc.
      - now apply square_le. }
    assert (Hn : forall px py, dist2 (px + - (y2 - y1) / L * o, py + (x2 - x1) / L * o)
                                     (px, py) == o * o).
    { intros px py. unfold dist2. cbn [fst snd].
      assert (E : (px + - (y2 - y1) / L * o - px) * (px + - (y2 - y1) / L * o - px)
                  + (py + (x2 - x1) / L * o - py) * (py + (x2 - x1) / L * o - py)
                  == o * o * (((x2 - x1) * (x2 - x1) + (y2 - y1) * (y2 - y1)) / (L * L)))
        by (field; lra).
      rewrite E, <- Hsq. field. lra. }
    cbn [fst snd]. split; [ring |]. split; [ring |].
    split; [now rewrite Hn |]. split; [now rewrite Hn |]. split; assumption.
Qed.

Lemma mill_slot_within_slot_witness :
  exists passes offsets depths,
    slot_passes axis_hypot (0, 0) (5, 0) 3 (16 # 10) 1 None = Some passes /\
    _slot_offsets 3 1 = Some offsets /\
    _stepdown_list (16 # 10) None = Some depths /\
    map snd passes = flat_map (fun z => map (fun _ => z) offsets) depths /\
    Forall (fun ps : pass =>
              let '(a, b, z) := ps in
              fst b - fst a == 5 - 0 /\ snd b - snd a == 0 - 0 /\
              dist2 a (0, 0) <= ((3 - 1) / 2) * ((3 - 1) / 2) /\
              dist2 b (5, 0) <= ((3 - 1) / 2) * ((3 - 1) / 2) /\
              0 < z /\ z <= 16 # 10) passes.
Proof.
  apply (mill_slot_within_slot axis_hypot 0 0 5 0 3 (16 # 10) 1 None).
  - vm_compute. discriminate.
  - vm_compute. reflexivity.
  - vm_compute. discriminate.
Defined.

End MillSlot.

(* ===================================================================== *)
(** ** ui/main_window.py: the hole counts of a plan *)
(* ===================================================================== *)

Module DrillCounts.

Import Drilling DrillPlan.

(** The holes counted, over all diameters. *)
Fixpoint total (counts : list (Q * nat)) : nat :=
  match counts with
  | [] => 0%nat
  | (_, n) :: r => (n + total r)%nat
  end.

Lemma count_bump_zero (d : Q) (counts : list (Q * nat)) :
  total counts = 0%nat -> total (count_bump true d counts) = 0%nat.
Proof.
  induction counts as [| [k n] r IH]; cbn [count_bump]; [reflexivity |].
  cbn [total]. intros H.
  destruct (Qeq_bool k d); cbn [total]; [lia |].
  rewrite IH; lia.
Qed.

Lemma count_bump_one (d : Q) (counts : list (Q * nat)) :
  total (count_bump false d counts) = S (total counts).
Proof.
  induction counts as [| [k n] r IH]; cbn [count_bump]; [reflexivity |].
  destruct (Qeq_bool k d); cbn [total]; [lia |].
  rewrite IH. lia.
Qed.

Lemma count_bump_keys (zero : bool) (d : Q) (counts : list (Q * nat)) (k : Q) :
  In k (map fst (count_bump zero d counts)) -> k = d \/ In k (map fst counts).
Proof.
  induction counts as [| [k0 n] r IH]; cbn [count_bump].
  - cbn. intros [<- | []]. now left.
  - destruct (Qeq_bool k0 d); cbn [map fst In].
    + intros [<- | H]; auto.
    + intros [<- | H]; [auto |]. destruct (IH H); auto.
Qed.

Section Folds.

Variable ds : list Q.

Definition zero_all (used : list nat) (counts : list (Q * nat)) : list (Q * nat) :=
  fold_left (fun c i => count_bump true (List.nth i ds 0) c) used counts.

Definition count_all (assign_idx : list (option nat)) (counts : list (Q * nat))
    : list (Q * nat) :=
  fold_left (fun c a => match a with
                        | Some i => count_bump false (List.nth i ds 0) c
                        | None => c
                        end) assign_idx counts.

Lemma zero_all_total (used : list nat) (counts : list (Q * nat)) :
  total counts = 0%nat -> total (zero_all used counts) = 0%nat.
Proof.
  unfold zero_all. revert counts.
  induction used as [| i r IH]; intros counts H; cbn [fold_left]; [exact H |].
  apply IH. now apply count_bump_zero.
Qed.

Lemma count_all_total (assign_idx : list (option nat)) (counts : list (Q * nat)) :
  Forall (fun a => is_Some a) assign_idx ->
  total (count_all assign_idx counts) = (total counts + List.length assign_idx)%nat.
Proof.
  unfold count_all. intros H. revert counts.
  induction H as [| a r [i ->] Hr IH]; intros counts; cbn [fold_left List.length]; [lia |].
  rewrite IH, count_bump_one. lia.
Qed.

Lemma zero_all_keys (used : list nat) (counts : list (Q * nat)) (k : Q) :
  In k (map fst (zero_all used counts)) ->
  In k (map fst counts) \/ exists i, In i used /\ k = List.nth i ds 0.
Proof.
  unfold zero_all. revert counts.
  induction used as [| i r IH]; intros counts; cbn [fold_left]; [now left |].
  intros H. destruct (IH _ H) as [Hk | [j [Hj E]]].
  - apply count_bump_keys in Hk as [-> | Hk]; [| now left].
    right. exists i. split; [now left | reflexivity].
  - right. exists j. split; [now right | exact E].
Qed.

Lemma count_all_keys (assign_idx : list (option nat)) (counts : list (Q * nat)) (k : Q) :
  In k (map fst (count_all assign_idx counts)) ->
  In k (map fst counts) \/ exists i, In (Some i) assign_idx /\ k = List.nth i ds 0.
Proof.
  unfold count_all. revert counts.
  induction assign_idx as [| a r IH]; intros counts; cbn [fold_left]; [now left |].
  intros H. destruct (IH _ H) as [Hk | [j [Hj E]]].
  - destruct a as [i |]; [| now left].
    apply count_bump_keys in Hk as [-> | Hk]; [| now left].
    right. exists i. split; [now left | reflexivity].
  - right. exists j. split; [now right | exact E].
Qed.

End Folds.

(** X27: the counts of a plan.  When a plan is reported [ok], the holes
    counted per diameter add up to the number of holes, and every diameter
    counted is the diameter of a planned drill. *)
Theorem plan_counts_total (hole_ds : list Q) (candidate_bits : list bit)
    (tol : Q) (max_bits : Z) (p : plan) :
  _plan_drills_for_holes hole_ds candidate_bits tol max_bits = Some p ->
  status p = ok ->
  total (counts p) = List.length hole_ds /\
  Forall (fun e => In (fst e) (map diameter (planned p))) (counts p).
Proof.
  unfold _plan_drills_for_holes.
  destruct hole_ds as [| h0 hs] eqn:Eh.
  { intros [= <-] _. cbn. split; [reflexivity | constructor]. }
  destruct candidate_bits as [| b0 bs] eqn:Eb.
  { intros [= <-]. discriminate. }
  rewrite <- Eh, <- Eb. clear Eh Eb h0 hs b0 bs.
  set (drills := sort_by by_diameter candidate_bits).
  set (ds := map diameter drills).
  set (assign_idx := map (fun hd => best_drill_index_for ds tol hd None) hole_ds).
  destruct (existsb (fun a => negb (bool_decide (is_Some a))) assign_idx) eqn:Ex.
  { intros [= <-]. discriminate. }
  pose proof (first_assignment_inv ds tol hole_ds Ex) as Hinv. fold assign_idx in Hinv.
  destruct (reduce_loop _ ds tol hole_ds max_bits (sorted_set assign_idx) assign_idx)
    as [[over | [used' assign']] |] eqn:Er; [| | discriminate].
  { intros [= <-]. discriminate. }
  apply reduce_loop_inv in Er; [| apply sorted_diameters | exact Hinv].
  intros [= <-] _. cbn [counts planned].
  fold (zero_all ds used' []). fold (count_all ds assign' (zero_all ds used' [])).
  assert (Hsome : Forall (fun a => is_Some a) assign').
  { apply Forall_forall. intros a Ha.
    apply list_elem_of_In, list_elem_of_lookup in Ha as [k Hk].
    destruct (inv_assigned _ _ _ _ _ Er k a Hk) as [i [_ [_ [-> _]]]]. eauto. }
  split.
  - rewrite (count_all_total ds assign' _ Hsome), zero_all_total by reflexivity.
    cbn. apply (inv_length _ _ _ _ _ Er).
  - apply Forall_forall. intros e He.
    assert (Hk : In (fst e) (map fst (count_all ds assign' (zero_all ds used' []))))
      by (now apply in_map).
    assert (Hu : exists i, In i used' /\ fst e = List.nth i ds 0).
    { apply count_all_keys in Hk as [Hk | [i [Hi E]]].
      - apply zero_all_keys in Hk as [[] | Hk]. exact Hk.
      - exists i. split; [| exact E].
        apply list_elem_of_In, list_elem_of_lookup in Hi as [k Hk].
        destruct (inv_assigned _ _ _ _ _ Er k _ Hk) as [i' [_ [_ [E' [Hin _]]]]].
        now injection E' as <-. }
    destruct Hu as [i [Hi ->]].
    destruct (inv_range _ _ _ _ _ Er i Hi) as [d Hd].
    unfold ds in Hd. change (map diameter drills) with (diameter <$> drills) in Hd.
    rewrite list_lookup_fmap in Hd.
    destruct (drills !! i) as [b |] eqn:Ebi; [| discriminate].
    assert (En : List.nth i ds 0 = diameter b).
    { apply nth_lookup_Some with (d := 0). unfold ds.
      change (map diameter drills) with (diameter <$> drills).
      now rewrite list_lookup_fmap, Ebi. }
    rewrite En. apply in_map. apply sort_by_In.
    apply list_elem_of_In, list_elem_of_omap. exists i.
    split; [now apply list_elem_of_In | exact Ebi].
Qed.

Lemma plan_counts_total_witness :
  exists p,
    _plan_drills_for_holes [6 # 10; 6 # 10; 8 # 10; 9 # 10; 1]
      [b05; b06; b08; b09; b10] (5 # 100) 2 = Some p /\
    counts p = [(6 # 10, 4%nat); (1, 1%nat)] /\
    total (counts p) = List.length [6 # 10; 6 # 10; 8 # 10; 9 # 10; 1] /\
    Forall (fun e => In (fst e) (map diameter (planned p))) (counts p).
Proof.
  eexists. split; [vm_compute; reflexivity |]. split; [reflexivity |].
  apply (plan_counts_total [6 # 10; 6 # 10; 8 # 10; 9 # 10; 1]
           [b05; b06; b08; b09; b10] (5 # 100) 2).
  - vm_compute. reflexivity.
  - reflexivity.
Defined.

End DrillCounts.

(* ===================================================================== *)
(** ** geom_utils.py: [order_lines_nearest] without reversal *)
(* ===================================================================== *)

Module ForwardOrder.

Import GeomUtils PathOrder.

(** Every path starts at least as near to the end of the one before it
    (the start point for the first) as each path that comes later. *)
Inductive nearest_start : point -> list polyline -> Prop :=
| nearest_start_nil cur : nearest_start cur []
| nearest_start_cons cur l out :
    (forall l', In l' out -> _dist2 cur (first_pt l) <= _dist2 cur (first_pt l')) ->
    nearest_start (last_pt l) out ->
    nearest_start cur (l :: out).

(** What the inner loop has established after looking at [seen], when
    no reversal is allowed. *)
Definition forward_ok (cur : point) (seen : list polyline) (b : best) : Prop :=
  best_flip b = false /\
  match best_d2 b with
  | None => seen = []
  | Some d =>
      (exists l, List.nth_error seen (best_i b) = Some l /\
                 d = _dist2 cur (first_pt l)) /\
      (forall l', In l' seen -> d <= _dist2 cur (first_pt l'))
  end.

Lemma forward_one_ok (cur : point) (seen : list polyline) (acc : best) (ls : polyline) :
  forward_ok cur seen acc ->
  forward_ok cur (seen ++ [ls]) (scan_one false cur acc (List.length seen) ls).
Proof.
  unfold forward_ok, scan_one. intros [Hf H].
  destruct (best_d2 acc) as [d0 |] eqn:E0; cbn [below].
  - destruct H as [[l [Hl Hd]] Hmin].
    destruct (Qlt_le_dec (_dist2 cur (first_pt ls)) d0) as [Hs | Hs];
      cbn [best_d2 best_i best_flip].
    + split; [reflexivity |]. split.
      * exists ls. split; [apply nth_error_snoc_new | reflexivity].
      * intros l' Hin. apply in_app_or in Hin as [Hin | [<- | []]].
        -- specialize (Hmin l' Hin). lra.
        -- lra.
    + split; [exact Hf |]. rewrite E0. split.
      * exists l. split; [now apply nth_error_snoc_old | exact Hd].
      * intros l' Hin. apply in_app_or in Hin as [Hin | [<- | []]];
          [now apply Hmin | exact Hs].
  - subst seen. cbn [best_d2 best_i best_flip app List.length].
    split; [reflexivity |]. split.
    + exists ls. split; reflexivity.
    + intros l' [<- | []]. lra.
Qed.

Lemma forward_ok_all (cur : point) (rest seen : list polyline) (acc : best) :
  forward_ok cur seen acc ->
  forward_ok cur (seen ++ rest) (scan false cur acc (List.length seen) rest).
Proof.
  revert seen acc. induction rest as [| ls rest IH]; intros seen acc H; cbn [scan].
  - now rewrite app_nil_r.
  - replace (seen ++ ls :: rest) with ((seen ++ [ls]) ++ rest)
      by (now rewrite <- app_assoc).
    replace (S (List.length seen)) with (List.length (seen ++ [ls]))
      by (rewrite length_app; cbn; lia).
    apply IH. now apply forward_one_ok.
Qed.

Lemma order_loop_forward (n : nat) (cur : point) (remaining : list polyline) :
  List.length remaining = n ->
  Permutation remaining (order_loop n false cur remaining) /\
  nearest_start cur (order_loop n false cur remaining).
Proof.
  revert cur remaining. induction n as [| k IH]; intros cur remaining Hn.
  - destruct remaining; [| discriminate]. split; [reflexivity | constructor].
  - destruct remaining as [| x r] eqn:Er; [discriminate |]. rewrite <- Er in *.
    replace (order_loop (S k) false cur remaining) with
      (let b := scan false cur {| best_i := 0; best_flip := false; best_d2 := None |}
                  0 remaining in
       let pick := oriented (best_flip b) (List.nth (best_i b) remaining []) in
       pick :: order_loop k false (last_pt pick) (remove_nth (best_i b) remaining))
      by (rewrite Er; reflexivity).
    cbv zeta.
    assert (H0 : forward_ok cur [] {| best_i := 0; best_flip := false; best_d2 := None |})
      by (split; reflexivity).
    pose proof (forward_ok_all cur remaining [] _ H0) as Hok.
    cbn [app List.length] in Hok.
    set (b := scan false cur _ 0 remaining) in *.
    destruct Hok as [Hflip Hok]. rewrite Hflip. cbn [oriented].
    destruct (best_d2 b) as [d |]; [| rewrite Hok in Er; discriminate].
    destruct Hok as [[l [Hl Hd]] Hmin].
    erewrite !nth_error_nth by exact Hl.
    pose proof (remove_nth_length _ _ _ Hl) as Hlen.
    destruct (IH (last_pt l) (remove_nth (best_i b) remaining) ltac:(lia))
      as [Hperm Hnear].
    pose proof (remove_nth_perm _ _ _ Hl) as Hrem.
    split.
    + rewrite Hrem at 1. now constructor.
    + constructor; [| exact Hnear].
      intros l' Hin. rewrite <- Hd. apply Hmin.
      apply (Permutation_in l' (Permutation_sym Hrem)). right.
      apply (Permutation_in l' (Permutation_sym Hperm)). exact Hin.
Qed.

(** X28: ordering without reversal.  With [allow_reverse=False] the
    result is the usable paths of the input in some order, every one in the
    direction it was given; and each path starts at least as near to the
    end of the one before it as every path placed later. *)
Theorem order_lines_forward (lines : list polyline) (start_xy : point) :
  Permutation (List.filter usable lines) (order_lines_nearest lines start_xy false) /\
  nearest_start start_xy (order_lines_nearest lines start_xy false).
Proof. unfold order_lines_nearest. now apply order_loop_forward. Qed.

End ForwardOrder.
